(** * simplept: a small path tracer (src/simplept.cpp)

    The program computes with C++ [double]s.  Its functions are embedded once,
    over an interface [Double] of the arithmetic the source uses, and the
    interface is instantiated twice:

    - [binary64]: IEEE-754 binary64 (Rocq's primitive floats), the numbers the
      compiled program computes with, NaN and the infinities included;
    - [exactR]: the real numbers, the arithmetic the formulas of the
      specification are written in.

    Statements about the control flow hold for every instance; statements
    about NaN and infinity, and concrete runs, are made on [binary64];
    algebraic identities are made on [exactR]. *)

From Stdlib Require Import ZArith List Bool Lia.
From Stdlib Require Import Floats.
From Stdlib Require Import Reals Lra.
From Stdlib Require Import String Ascii.
Import ListNotations.

(** ** The arithmetic of [double] *)

Declare Scope dbl_scope.
Delimit Scope dbl_scope with dbl.

Class Double (D : Type) : Type := {
  (** the decimal literal [m]e[e], that is m * 10^e *)
  lit : Z -> Z -> D;
  (** [#define PI 3.1415926535897932384626433832795] *)
  PI : D;
  d_add : D -> D -> D;
  d_sub : D -> D -> D;
  d_mul : D -> D -> D;
  d_div : D -> D -> D;
  d_neg : D -> D;
  (** [sqrt], [cos], [sin], [abs] of <cmath> *)
  d_sqrt : D -> D;
  d_cos : D -> D;
  d_sin : D -> D;
  d_abs : D -> D;
  (** [a < b], [a <= b], and the conversion of a [double] to [bool] *)
  d_lt : D -> D -> bool;
  d_le : D -> D -> bool;
  d_nonzero : D -> bool
}.

Notation "a + b" := (d_add a b) : dbl_scope.
Notation "a - b" := (d_sub a b) : dbl_scope.
Notation "a * b" := (d_mul a b) : dbl_scope.
Notation "a / b" := (d_div a b) : dbl_scope.
Notation "- a" := (d_neg a) : dbl_scope.
Notation "a <? b" := (d_lt a b) (at level 70, no associativity) : dbl_scope.
Notation "a >? b" := (d_lt b a) (at level 70, no associativity, only parsing) : dbl_scope.
Notation "a <=? b" := (d_le a b) (at level 70, no associativity) : dbl_scope.

(** ** The program *)

Section Program.

Context {D : Type} {DD : Double D}.
Local Open Scope dbl_scope.

(** Integer constants converted to [double]. *)
Definition int (n : Z) : D := lit n 0.

(** *** The random number generator

    [rng()] advances the engine of the calling thread and returns the next
    uniform sample.  A thread's engine is modelled by the sequence of the
    samples it will deliver and the position reached in it. *)

Record RNG : Type := mkRNG { draws : nat -> D; pos : nat }.

Definition rng (g : RNG) : D * RNG :=
  (draws g (pos g), mkRNG (draws g) (S (pos g))).

(** *** Basic data types: [struct Vec], [struct Ray]

    The fields [x], [y], [z] are [vx], [vy], [vz] here, [Ray]'s [o] and [d]
    are [ray_o] and [ray_d]. *)

Record Vec : Type := mkVec { vx : D; vy : D; vz : D }.

(** [Vec()] *)
Definition Vec0 : Vec := mkVec (int 0) (int 0) (int 0).

(** [operator+], [operator-], [operator*] *)
Definition vadd (a b : Vec) : Vec := mkVec (vx a + vx b) (vy a + vy b) (vz a + vz b).
Definition vsub (a b : Vec) : Vec := mkVec (vx a - vx b) (vy a - vy b) (vz a - vz b).
Definition vscale (a : Vec) (b : D) : Vec := mkVec (vx a * b) (vy a * b) (vz a * b).

Definition mult (a b : Vec) : Vec := mkVec (vx a * vx b) (vy a * vy b) (vz a * vz b).
Definition normalize (a : Vec) : Vec :=
  vscale a (lit 1 0 / d_sqrt (vx a * vx a + vy a * vy a + vz a * vz a)).
Definition dot (a b : Vec) : D := vx a * vx b + vy a * vy b + vz a * vz b.
Definition cross (a b : Vec) : Vec :=
  mkVec (vy a * vz b - vz a * vy b) (vz a * vx b - vx a * vz b) (vx a * vy b - vy a * vx b).

Record Ray : Type := mkRay { ray_o : Vec; ray_d : Vec }.

(** [struct BRDF] is an interface with two implementations, [DiffuseBRDF]
    (field [kd]) and [SpecularBRDF] (field [ks]); the virtual calls
    [isSpecular], [eval] and [sample] dispatch on the constructor. *)

Inductive BRDF : Type :=
| DiffuseBRDF (kd : Vec)
| SpecularBRDF (ks : Vec).

(** *** Shapes: [struct Sphere]

    The fields [p], [e], [rad], [brdf] are [sph_p], [sph_e], [sph_rad],
    [sph_brdf]; the constructor takes them in the order of the source's. *)

Record Sphere : Type := mkSphere { sph_rad : D; sph_p : Vec; sph_e : Vec; sph_brdf : BRDF }.

(** [Sphere::intersect]: returns distance, 0 if nohit. *)
Definition Sphere_intersect (s : Sphere) (r : Ray) : D :=
  let op := vsub (sph_p s) (ray_o r) in
  let eps := lit 1 (-4) in
  let b := dot op (ray_d r) in
  let det := b * b - dot op op + sph_rad s * sph_rad s in
  if det <? int 0 then int 0
  else
    let det := d_sqrt det in
    let t := b - det in
    if t >? eps then t
    else let t := b + det in if t >? eps then t else int 0.

(** *** Sampling functions *)

Definition createLocalCoord (n : Vec) : Vec * Vec * Vec :=
  let w := n in
  let u := normalize (cross (if d_abs (vx w) >? lit 1 (-1)
                             then mkVec (int 0) (int 1) (int 0)
                             else mkVec (int 1) (int 0) (int 0)) w) in
  let v := cross w u in
  (u, v, w).

(** Returns the sampled direction [i] and its [pdf]. *)
Definition uniformRandomPSA (n o : Vec) (g : RNG) : (Vec * D) * RNG :=
  let '(xi1, g) := rng g in
  let z := d_sqrt xi1 in
  let r := d_sqrt (lit 1 0 - z * z) in
  let '(xi2, g) := rng g in
  let phi := lit 2 0 * PI * xi2 in
  let x := r * d_cos phi in
  let y := r * d_sin phi in
  let '(u, v, w) := createLocalCoord n in
  let i := vadd (vadd (vscale u x) (vscale v y)) (vscale w z) in
  let i := normalize i in
  let pdf := dot n i / PI in
  ((i, pdf), g).

(** *** BRDFs *)

Definition isSpecular (f : BRDF) : bool :=
  match f with
  | DiffuseBRDF _ => false
  | SpecularBRDF _ => true
  end.

(** [SpecularBRDF::mirroredDirection]: [i = n * 2.0 * n.dot(o) - o]. *)
Definition mirroredDirection (n o : Vec) : Vec :=
  vsub (vscale (vscale n (lit 2 0)) (dot n o)) o.

(** The tolerance test of [SpecularBRDF::eval] and of [isVisibile]:
    [abs(a.x - b.x) <= 1e-4 && abs(a.y - b.y) <= 1e-4 && abs(a.z - b.z) <= 1e-4].
    With <cmath> included, [abs] on a [double] is the overload for [double],
    as [std::abs] in [createLocalCoord]. *)
Definition within_tol (a b : Vec) : bool :=
  (d_abs (vx a - vx b) <=? lit 1 (-4)) &&
  (d_abs (vy a - vy b) <=? lit 1 (-4)) &&
  (d_abs (vz a - vz b) <=? lit 1 (-4)).

Definition eval (f : BRDF) (n o i : Vec) : Vec :=
  match f with
  | DiffuseBRDF kd => vscale kd (lit 1 0 / PI)
  | SpecularBRDF ks =>
      let mirrored := mirroredDirection n o in
      let i_n := i in
      let mirrored := normalize mirrored in
      let i_n := normalize i_n in
      if within_tol i_n mirrored then vscale ks (int 1 / dot n i)
      else Vec0
  end.

Definition sample (f : BRDF) (n o : Vec) (g : RNG) : (Vec * D) * RNG :=
  match f with
  | DiffuseBRDF _ => uniformRandomPSA n o g
  | SpecularBRDF _ => ((mirroredDirection n o, lit 1 0), g)
  end.

(** *** Scene configuration *)

Definition V (a b c : D) : Vec := mkVec a b c.

Definition leftWall : BRDF := DiffuseBRDF (V (lit 75 (-2)) (lit 25 (-2)) (lit 25 (-2))).
Definition rightWall : BRDF := DiffuseBRDF (V (lit 25 (-2)) (lit 25 (-2)) (lit 75 (-2))).
Definition otherWall : BRDF := DiffuseBRDF (V (lit 75 (-2)) (lit 75 (-2)) (lit 75 (-2))).
Definition blackSurf : BRDF := DiffuseBRDF (V (lit 0 0) (lit 0 0) (lit 0 0)).
Definition brightSurf : BRDF := DiffuseBRDF (V (lit 9 (-1)) (lit 9 (-1)) (lit 9 (-1))).
Definition shinySurf : BRDF := SpecularBRDF (V (lit 999 (-3)) (lit 999 (-3)) (lit 999 (-3))).

Definition spheres : list Sphere :=
  [ mkSphere (lit 1 5) (V (lit 1 5 + int 1) (lit 408 (-1)) (lit 816 (-1))) Vec0 leftWall;
    mkSphere (lit 1 5) (V (- lit 1 5 + int 99) (lit 408 (-1)) (lit 816 (-1))) Vec0 rightWall;
    mkSphere (lit 1 5) (V (int 50) (lit 408 (-1)) (lit 1 5)) Vec0 otherWall;
    mkSphere (lit 1 5) (V (int 50) (lit 1 5) (lit 816 (-1))) Vec0 otherWall;
    mkSphere (lit 1 5) (V (int 50) (- lit 1 5 + lit 816 (-1)) (lit 816 (-1))) Vec0 otherWall;
    mkSphere (lit 165 (-1)) (V (int 27) (lit 165 (-1)) (int 47)) Vec0 brightSurf;
    mkSphere (lit 165 (-1)) (V (int 73) (lit 165 (-1)) (int 78)) Vec0 shinySurf;
    mkSphere (lit 50 (-1)) (V (int 50) (lit 700 (-1)) (lit 816 (-1)))
             (V (int 50) (int 50) (int 50)) blackSurf ].

(** [spheres[i]]; every index the program uses is in range. *)
Definition sphere_at (i : nat) : Sphere :=
  nth i spheres (mkSphere (int 0) Vec0 Vec0 blackSurf).

(** Camera position & direction *)
Definition cam : Ray :=
  mkRay (V (int 50) (int 52) (lit 2956 (-1)))
        (normalize (V (int 0) (- lit 42612 (-6)) (- int 1))).

(** *** Global functions *)

(** The loop of [intersect]: [for (int i = int(n); i--;)], with the current
    values of [t] and [id]. *)
Fixpoint intersect_loop (r : Ray) (i : nat) (t : D) (id : nat) : D * nat :=
  match i with
  | O => (t, id)
  | S i' =>
      let d := Sphere_intersect (sphere_at i') r in
      if d_nonzero d && (d <? t) then intersect_loop r i' d i'
      else intersect_loop r i' t id
  end.

(** [intersect(r, t, id)]: the result, and the values left in [t] and [id]
    ([id] is the caller's when nothing is hit). *)
Definition intersect (r : Ray) (id : nat) : bool * D * nat :=
  let inf := lit 1 20 in
  let '(t, id) := intersect_loop r (List.length spheres) inf id in
  (t <? inf, t, id).

(** Returns [surfacePoint], [n] and [pdf]. *)
Definition luminaireSample (source : Sphere) (g : RNG) : (Vec * Vec * D) * RNG :=
  let r := sph_rad source in
  let '(e1, g) := rng g in
  let '(e2, g) := rng g in
  let z := lit 2 0 * e1 - lit 1 0 in
  let x := d_sqrt (lit 1 0 - z * z) * d_cos (lit 2 0 * PI * e2) in
  let y := d_sqrt (lit 1 0 - z * z) * d_sin (lit 2 0 * PI * e2) in
  let surfacePoint := vadd (sph_p source) (vscale (V x y z) r) in
  let n := V x y z in
  let pdf := int 1 / (lit 4 0 * PI * (r * r)) in
  ((surfacePoint, n, pdf), g).

Definition isVisibile (x y : Vec) : D :=
  let r := mkRay x (normalize (vsub y x)) in
  let '(_, t, _) := intersect r 0 in
  let ip := vadd (ray_o r) (vscale (ray_d r) t) in
  if within_tol ip y then lit 1 0 else lit 0 0.

(** *** KEY FUNCTION: radiance estimator *)

Definition directRadiance (obj : Sphere) (r : Ray) (n : Vec) (g : RNG) : Vec * RNG :=
  if negb (isSpecular (sph_brdf obj)) then
    (* light source hard coded in this example to be 7th sphere in scene *)
    let '((y1, sourceNormal, pdf1), g) := luminaireSample (sphere_at 7) g in
    let o1 := normalize (vsub y1 (ray_o r)) in
    let r2 := dot (vsub (ray_o r) y1) (vsub (ray_o r) y1) in
    (vscale (vscale (mult (sph_e (sphere_at 7)) (eval (sph_brdf obj) n o1 (ray_d r)))
                    (isVisibile (ray_o r) y1))
            (dot n o1 * dot sourceNormal (vscale o1 (int (-1))) / (r2 * pdf1)), g)
  else (Vec0, g).

(** What [receivedRadiance] knows of the surface it hit: [obj], [x], [o], [n]. *)
Record Hit : Type := mkHit { hit_obj : Sphere; hit_x : Vec; hit_o : Vec; hit_n : Vec }.

(** Lines 285-291: the hit object, the intersection point, the outgoing
    direction and the normal, flipped to the side of [o]. *)
Definition hit_of (r : Ray) (t : D) (id : nat) : Hit :=
  let obj := sphere_at id in
  let x := vadd (ray_o r) (vscale (ray_d r) t) in
  let o := normalize (vsub Vec0 (ray_d r)) in
  let n := normalize (vsub x (sph_p obj)) in
  let n := if dot n o <? int 0 then vscale n (- lit 1 0) else n in
  mkHit obj x o n.

(** Lines 303-307: [totalRad] before the bounce. *)
Definition direct_term (h : Hit) (g : RNG) : Vec * RNG :=
  if negb (isSpecular (sph_brdf (hit_obj h)))
  then directRadiance (hit_obj h) (mkRay (hit_x h) (hit_o h)) (hit_n h) g
  else (Vec0, g).

(** Lines 309-311: [double p = 1.0; if (depth >= 5) p = 0.9;]. *)
Definition roulette_p (depth : Z) : D :=
  if (5 <=? depth)%Z then lit 9 (-1) else lit 1 0.

(** Lines 322-323, the term added to [totalRad]:
    [rec.mult(obj.brdf.eval(n, o, i)) * (n.dot(i) / (pdf * p))]. *)
Definition indirect (f : BRDF) (n o i : Vec) (pdf p : D) (rec : Vec) : Vec :=
  vscale (mult rec (eval f n o i)) (dot n i / (pdf * p)).

(** Line 327: [flag ? obj.e + totalRad : totalRad]. *)
Definition with_emission (flag : bool) (obj : Sphere) (totalRad : Vec) : Vec :=
  if flag then vadd (sph_e obj) totalRad else totalRad.

(** A call of the estimator either returns a vector and the engine it leaves,
    or does not return ([None]). *)
Definition Estimator : Type := Ray -> Z -> bool -> RNG -> option (Vec * RNG).

(** The body of [receivedRadiance], [self] standing for the recursive call.
    [depth] is an [int] in the source; [depth + 1] does not overflow before
    the call stack does. *)
Definition receivedRadiance_body (self : Estimator) : Estimator :=
  fun r depth flag g =>
  let '(hit, t, id) := intersect r 0 in
  if negb hit then Some (Vec0, g)
  else
    let h := hit_of r t id in
    let obj := hit_obj h in
    let x := hit_x h in
    let o := hit_o h in
    let n := hit_n h in
    let '(totalRad, g) := direct_term h g in
    let p := roulette_p depth in
    let '(u, g) := rng g in
    if u <? p then
      let '((i, pdf), g) := sample (sph_brdf obj) n o g in
      let i := normalize i in
      match self (mkRay x i) (depth + 1)%Z (isSpecular (sph_brdf obj)) g with
      | None => None
      | Some (rec, g) =>
          let totalRad := vadd totalRad (indirect (sph_brdf obj) n o i pdf p rec) in
          Some (with_emission flag obj totalRad, g)
      end
    else Some (with_emission flag obj totalRad, g).

(** The recursion is not bounded by the source (Russian roulette ends it with
    probability one only); [fuel] bounds the number of nested calls. *)
Fixpoint receivedRadiance (fuel : nat) : Estimator :=
  match fuel with
  | O => fun _ _ _ _ => None
  | S fuel' => receivedRadiance_body (receivedRadiance fuel')
  end.

(** *** Main function *)

Definition w : Z := 480%Z.
Definition h : Z := 360%Z.

Definition cx : Vec := V (int w * lit 5135 (-4) / int h) (int 0) (int 0).
Definition cy : Vec := vscale (normalize (cross cx (ray_d cam))) (lit 5135 (-4)).

(** The tent filter: [r1 < 1 ? sqrt(r1) - 1 : 1 - sqrt(2 - r1)]. *)
Definition tent (r1 : D) : D :=
  if r1 <? int 1 then d_sqrt r1 - int 1 else int 1 - d_sqrt (int 2 - r1).

(** Lines 358-361: the camera ray of one sample of sub-pixel [(sx, sy)] of
    pixel [(x, y)]. *)
Definition primaryRay (x y sx sy : Z) (g : RNG) : Ray * RNG :=
  let '(u1, g) := rng g in
  let r1 := int 2 * u1 in
  let dx := tent r1 in
  let '(u2, g) := rng g in
  let r2 := int 2 * u2 in
  let dy := tent r2 in
  let d := vadd (vadd (vscale cx (((int sx + lit 5 (-1) + dx) / int 2 + int x) / int w - lit 5 (-1)))
                      (vscale cy (((int sy + lit 5 (-1) + dy) / int 2 + int y) / int h - lit 5 (-1))))
                (ray_d cam) in
  (mkRay (ray_o cam) (normalize d), g).

(** Line 362: the radiance of one sample, before the weight [1. / samps]. *)
Definition primarySample (fuel : nat) (x y sx sy : Z) (g : RNG) : option (Vec * RNG) :=
  let '(r, g) := primaryRay x y sx sy g in
  receivedRadiance fuel r 1%Z true g.

End Program.

Arguments RNG D : clear implicits.
Arguments Vec D : clear implicits.
Arguments Ray D : clear implicits.
Arguments BRDF D : clear implicits.
Arguments Sphere D : clear implicits.
Arguments Hit D : clear implicits.
Arguments Estimator D : clear implicits.

(** *** The command line: [samps = argc == 2 ? atoi(argv[1]) / 4 : 1] *)

(** [atoi] of <stdlib.h> is not part of the repository; this is the C
    standard's: white space is skipped, then an optional sign and the longest
    run of decimal digits are read, and a string with no digit there gives 0.
    The result is an [int], 32 bits wide on the platforms of the program:
    when the number read cannot be represented in an [int] the standard
    leaves the behaviour undefined (C11 7.22.1), and [atoi] has no value
    here ([None]). *)

Definition is_space (c : ascii) : bool :=
  let n := nat_of_ascii c in
  (Nat.eqb n 32 || (Nat.leb 9 n && Nat.leb n 13))%bool.

Definition digit_of (c : ascii) : option Z :=
  let n := nat_of_ascii c in
  if (Nat.leb 48 n && Nat.leb n 57)%bool then Some (Z.of_nat (n - 48)) else None.

Fixpoint skip_spaces (s : string) : string :=
  match s with
  | String c s' => if is_space c then skip_spaces s' else s
  | EmptyString => s
  end.

Fixpoint read_digits (acc : Z) (s : string) : Z :=
  match s with
  | String c s' =>
      match digit_of c with
      | Some d => read_digits (10 * acc + d) s'
      | None => acc
      end
  | EmptyString => acc
  end.

(** The number written at the head of a text. *)
Definition number_read (s : string) : Z :=
  match skip_spaces s with
  | String "-"%char s' => (- read_digits 0 s')%Z
  | String "+"%char s' => read_digits 0 s'
  | s' => read_digits 0 s'
  end.

Definition INT_MIN : Z := (-2147483648)%Z.
Definition INT_MAX : Z := 2147483647%Z.

Definition in_int (v : Z) : bool := ((INT_MIN <=? v) && (v <=? INT_MAX))%Z.

Definition atoi (s : string) : option Z :=
  let v := number_read s in
  if in_int v then Some v else None.

(** [argv] is the argument vector, the program's name first; [argc] is its
    length.  The division of two [int]s truncates toward zero, and the
    quotient of an [int] by 4 is an [int].  [samps] has no value when
    [atoi] has none. *)
Definition samps (argv : list string) : option Z :=
  if Nat.eqb (List.length argv) 2 then
    match atoi (nth 1 argv EmptyString) with
    | Some a => Some (Z.quot a 4)
    | None => None
    end
  else Some 1%Z.

(** The loop [for (int s = 0; s < samps; s++)] of a sub-pixel: the number of
    camera rays it traces. *)
Definition samples_taken (argv : list string) : option Z :=
  option_map (Z.max 0) (samps argv).

(** *** The image: utility functions and the loops of [main] *)

Section Image.

Context {D : Type} {DD : Double D}.
Local Open Scope dbl_scope.

(** [clamp]: [x < 0 ? 0 : x > 1 ? 1 : x]. *)
Definition clamp (x : D) : D :=
  if x <? int 0 then int 0 else if x >? int 1 then int 1 else x.

(** [toInt]: [static_cast<int>(std::pow(clamp(x), 1.0 / 2.2) * 255 + .5)].
    [std::pow] of <cmath> and the conversion of a [double] to [int] are not
    among the operations of [Double]; they are the arguments [pow] and
    [to_int]. *)
Definition toInt (pow : D -> D -> D) (to_int : D -> Z) (x : D) : Z :=
  to_int (pow (clamp x) (lit 1 0 / lit 22 (-1)) * int 255 + lit 5 (-1)).

(** Line 352: the place of pixel [(x, y)] in the vector [c],
    [(h - y - 1)*w + x]. *)
Definition pixel_index (x y : Z) : Z := ((h - y - 1) * w + x)%Z.

(** Lines 356-363: the loop over the samples of a sub-pixel.  [inv] is
    [1. / samps], [n] the number of rounds left, [r] the sum so far. *)
Fixpoint subpixel_loop (fuel : nat) (inv : D) (n : nat) (x y sx sy : Z) (r : Vec D)
    (g : RNG D) : option (Vec D * RNG D) :=
  match n with
  | O => Some (r, g)
  | S n' =>
      match primarySample fuel x y sx sy g with
      | None => None
      | Some (rad, g) => subpixel_loop fuel inv n' x y sx sy (vadd r (vscale rad inv)) g
      end
  end.

(** [Vec r; for (int s = 0; s<samps; s++) ...]: no round when [samps <= 0]. *)
Definition subpixel (fuel : nat) (samps : Z) (x y sx sy : Z) (g : RNG D) : option (Vec D * RNG D) :=
  subpixel_loop fuel (lit 1 0 / int samps) (Z.to_nat samps) x y sx sy Vec0 g.

(** [Vec(clamp(r.x), clamp(r.y), clamp(r.z))] *)
Definition clamped (r : Vec D) : Vec D := mkVec (clamp (vx r)) (clamp (vy r)) (clamp (vz r)).

(** Line 364: [c[i] = c[i] + Vec(clamp(r.x), clamp(r.y), clamp(r.z))*.25]. *)
Definition add_subpixel (fuel : nat) (samps : Z) (x y sx sy : Z) (c : Vec D) (g : RNG D)
    : option (Vec D * RNG D) :=
  match subpixel fuel samps x y sx sy g with
  | None => None
  | Some (r, g) => Some (vadd c (vscale (clamped r) (lit 25 (-2))), g)
  end.

(** Lines 354-366: the four sub-pixels of pixel [(x, y)], [sy] outside and
    [sx] inside, added to the value [c] of [c[i]]. *)
Definition pixel (fuel : nat) (samps : Z) (x y : Z) (c : Vec D) (g : RNG D)
    : option (Vec D * RNG D) :=
  match add_subpixel fuel samps x y 0 0 c g with
  | None => None
  | Some (c, g) =>
      match add_subpixel fuel samps x y 1 0 c g with
      | None => None
      | Some (c, g) =>
          match add_subpixel fuel samps x y 0 1 c g with
          | None => None
          | Some (c, g) => add_subpixel fuel samps x y 1 1 c g
          end
      end
  end.

End Image.

(** ** IEEE-754 binary64 *)

Module B64.

(** The nearest [double] to an integer. *)
Definition Z2float (z : Z) : float := SF2Prim (binary_normalize prec emax z 0 false).

(** The decimal literals of the source have an integer mantissa below 2^53 and
    a power of ten of at most 10^22, both [double]s: their quotient, rounded
    once, is the literal's value. *)
Definition lit64 (m e : Z) : float :=
  if (0 <=? e)%Z then Z2float (m * 10 ^ e)
  else (Z2float m / Z2float (10 ^ (- e)))%float.

#[local] Set Warnings "-inexact-float".

(** [lit64] agrees with the rounding of decimal literals to the nearest
    [double]. *)
Lemma lit64_literals :
  lit64 1 (-4) = 1e-4%float /\ lit64 9 (-1) = 0.9%float /\ lit64 1 (-1) = 0.1%float /\
  lit64 1 20 = 1e20%float /\ lit64 1 5 = 1e5%float /\ lit64 408 (-1) = 40.8%float /\
  lit64 816 (-1) = 81.6%float /\ lit64 165 (-1) = 16.5%float /\ lit64 75 (-2) = 0.75%float /\
  lit64 25 (-2) = 0.25%float /\ lit64 999 (-3) = 0.999%float /\
  lit64 2956 (-1) = 295.6%float /\ lit64 42612 (-6) = 0.042612%float /\
  lit64 5135 (-4) = 0.5135%float /\ lit64 (-1) 0 = (-1)%float /\ lit64 0 0 = 0%float.
Proof. repeat split. Qed.

(** The value of the macro [PI] as a [double]. *)
Definition PI64 : float := 0x1.921fb54442d18p+1%float.

Lemma PI64_literal : PI64 = 3.1415926535897932384626433832795%float.
Proof. reflexivity. Qed.

Definition binary64 (cos sin : float -> float) : Double float :=
  {| lit := lit64;
     PI := PI64;
     d_add := PrimFloat.add;
     d_sub := PrimFloat.sub;
     d_mul := PrimFloat.mul;
     d_div := PrimFloat.div;
     d_neg := PrimFloat.opp;
     d_sqrt := PrimFloat.sqrt;
     d_cos := cos;
     d_sin := sin;
     d_abs := PrimFloat.abs;
     d_lt := PrimFloat.ltb;
     d_le := PrimFloat.leb;
     d_nonzero := fun x => negb (PrimFloat.eqb x 0%float) |}.

(** [cos] and [sin] of <cmath> are not part of the repository, and the C
    standard fixes their values only at zero: [cos(0) = 1], [sin(0) = 0].
    The concrete runs below use the Taylor polynomials of degree 40 and 41,
    which have these values at zero and approximate the cosine and the sine
    between 0 and 2 PI; every run below draws 0 for the samples that give an
    azimuth, so only the values at zero are used. *)
Fixpoint trig_series (n : nat) (k : float) (x2 term acc : float) : float :=
  match n with
  | O => acc
  | S n' =>
      let term' := (- term * x2 / ((k + 1) * (k + 2)))%float in
      trig_series n' (k + 2)%float x2 term' (acc + term')%float
  end.

Definition cos64 (x : float) : float := trig_series 20 0%float (x * x)%float 1%float 1%float.
Definition sin64 (x : float) : float := trig_series 20 1%float (x * x)%float x x.

Lemma trig_at_zero : cos64 0 = 1%float /\ sin64 0 = 0%float.
Proof. split; reflexivity. Qed.

(** The program as compiled. *)
Definition libm64 : Double float := binary64 cos64 sin64.

(** An engine that delivers the samples of [l], then [d] forever. *)
Definition engine (l : list float) (d : float) : RNG float :=
  mkRNG (fun k => nth k l d) 0.

End B64.

(** ** Exact real arithmetic *)

Module Exact.

Definition litR (m e : Z) : R := (IZR m * powerRZ 10 e)%R.
Definition Rltb (a b : R) : bool := if Rlt_dec a b then true else false.
Definition Rleb (a b : R) : bool := if Rle_dec a b then true else false.
Definition Rnonzero (a : R) : bool := if Req_dec_T a 0 then false else true.

(** The program on exact reals.  Where the real operations are not defined (a
    division by zero, the square root of a negative number) Rocq's reals
    return a number and the program's [double]s a NaN or an infinity:
    statements on [exactR] keep the computation inside the domain by their
    hypotheses, and what the program does outside is stated on [binary64]. *)
Definition exactR : Double R :=
  {| lit := litR;
     PI := Rtrigo1.PI;
     d_add := Rplus;
     d_sub := Rminus;
     d_mul := Rmult;
     d_div := Rdiv;
     d_neg := Ropp;
     d_sqrt := R_sqrt.sqrt;
     d_cos := Rtrigo_def.cos;
     d_sin := Rtrigo_def.sin;
     d_abs := Rabs;
     d_lt := Rltb;
     d_le := Rleb;
     d_nonzero := Rnonzero |}.

End Exact.

(** ** The control flow of the estimator, for every arithmetic *)

Section Control.

Context {D : Type} {DD : Double D}.
Local Open Scope dbl_scope.

Lemma roulette_p_below (depth : Z) : (depth < 5)%Z -> roulette_p depth = lit 1 0.
Proof.
  intros Hd. unfold roulette_p.
  destruct (Z.leb_spec 5 depth) as [Hge | _]; [lia | reflexivity].
Qed.

Lemma roulette_p_from5 (depth : Z) : (5 <= depth)%Z -> roulette_p depth = lit 9 (-1).
Proof.
  intros Hd. unfold roulette_p.
  destruct (Z.leb_spec 5 depth) as [_ | Hlt]; [reflexivity | lia].
Qed.

(** The body after a hit, with the results of its steps named. *)
Lemma body_hit (self : Estimator D) r depth flag g t id direct g1 u g2 :
  intersect r 0 = (true, t, id) ->
  direct_term (hit_of r t id) g = (direct, g1) ->
  rng g1 = (u, g2) ->
  receivedRadiance_body self r depth flag g =
    let h := hit_of r t id in
    let obj := hit_obj h in
    let p := roulette_p depth in
    if u <? p then
      let '((i, pdf), g3) := sample (sph_brdf obj) (hit_n h) (hit_o h) g2 in
      match self (mkRay (hit_x h) (normalize i)) (depth + 1)%Z (isSpecular (sph_brdf obj)) g3 with
      | None => None
      | Some (rec, g4) =>
          Some (with_emission flag obj
                  (vadd direct (indirect (sph_brdf obj) (hit_n h) (hit_o h) (normalize i) pdf p rec)),
                g4)
      end
    else Some (with_emission flag obj direct, g2).
Proof.
  intros Hi Hd Hr. unfold receivedRadiance_body.
  rewrite Hi. cbn [negb]. rewrite Hd, Hr. cbv zeta.
  destruct (u <? roulette_p depth); [| reflexivity].
  destruct (sample _ _ _ g2) as [[i pdf] g3]. reflexivity.
Qed.

Lemma body_miss (self : Estimator D) r depth flag g t id :
  intersect r 0 = (false, t, id) ->
  receivedRadiance_body self r depth flag g = Some (Vec0, g).
Proof.
  intros Hi. unfold receivedRadiance_body. rewrite Hi. reflexivity.
Qed.

(** A call that returns with some fuel returns the same with more: the
    result of a call that returns does not depend on the bound. *)
Lemma body_monotone (self self' : Estimator D) :
  (forall y d f g x, self y d f g = Some x -> self' y d f g = Some x) ->
  forall r depth flag g x,
    receivedRadiance_body self r depth flag g = Some x ->
    receivedRadiance_body self' r depth flag g = Some x.
Proof.
  intros Hself r depth flag g x. unfold receivedRadiance_body.
  destruct (intersect r 0) as [[hit t] id]. destruct (negb hit); [trivial |].
  destruct (direct_term _ g) as [direct g1]. destruct (rng g1) as [u g2].
  destruct (u <? roulette_p depth); [| trivial].
  destruct (sample _ _ _ g2) as [[i pdf] g3].
  destruct (self _ _ _ g3) as [[rec g4] |] eqn:Hrec; [| discriminate].
  rewrite (Hself _ _ _ _ _ Hrec). trivial.
Qed.

Lemma receivedRadiance_more_fuel (k j : nat) :
  forall r depth flag g x,
    receivedRadiance k r depth flag g = Some x ->
    receivedRadiance (k + j) r depth flag g = Some x.
Proof.
  induction k as [| k IH]; intros r depth flag g x Hk; [discriminate |].
  cbn [receivedRadiance Nat.add] in *.
  exact (body_monotone _ _ IH r depth flag g x Hk).
Qed.

(** C1. Russian roulette.  In a call that hits a surface the continuation
    probability [p] is 1.0 when [depth < 5] and 0.9 when [depth >= 5]; one
    sample [u] is drawn after the direct term; when [u < p] does not hold the
    call returns without recursing (the result does not depend on [self]);
    when [u < p] holds the call samples a direction [i] with its [pdf],
    recurses on [Ray(x, i.normalize())] and adds to the total the recursive
    result multiplied component-wise by [eval(n, o, i)] and scaled by
    [n.dot(i) / (pdf * p)]. *)
Theorem roulette_continuation (self : Estimator D) r depth flag g t id :
  intersect r 0 = (true, t, id) ->
  let h := hit_of r t id in
  let obj := hit_obj h in
  let n := hit_n h in
  let o := hit_o h in
  let p := roulette_p depth in
  let direct := fst (direct_term h g) in
  let u := fst (rng (snd (direct_term h g))) in
  let g2 := snd (rng (snd (direct_term h g))) in
  ((depth < 5)%Z -> p = lit 1 0) /\
  ((depth >= 5)%Z -> p = lit 9 (-1)) /\
  ((u <? p) = false ->
     receivedRadiance_body self r depth flag g = Some (with_emission flag obj direct, g2)) /\
  ((u <? p) = true ->
     let i := normalize (fst (fst (sample (sph_brdf obj) n o g2))) in
     let pdf := snd (fst (sample (sph_brdf obj) n o g2)) in
     let g3 := snd (sample (sph_brdf obj) n o g2) in
     receivedRadiance_body self r depth flag g =
       match self (mkRay (hit_x h) i) (depth + 1)%Z (isSpecular (sph_brdf obj)) g3 with
       | None => None
       | Some (rec, g4) =>
           Some (with_emission flag obj
                   (vadd direct (vscale (mult rec (eval (sph_brdf obj) n o i))
                                        (dot n i / (pdf * p)))), g4)
       end).
Proof.
  intros Hi h obj n o p direct u g2.
  split; [apply roulette_p_below |].
  split; [intros Hd; apply roulette_p_from5; lia |].
  assert (Hd : direct_term h g = (direct, snd (direct_term h g)))
    by (unfold direct; destruct (direct_term h g); reflexivity).
  assert (Hr : rng (snd (direct_term h g)) = (u, g2)) by reflexivity.
  split; intros Hu.
  - rewrite (body_hit self r depth flag g _ _ _ _ _ _ Hi Hd Hr). cbv zeta.
    fold p. rewrite Hu. reflexivity.
  - cbv zeta. rewrite (body_hit self r depth flag g _ _ _ _ _ _ Hi Hd Hr). cbv zeta.
    fold p. rewrite Hu. fold h obj n o.
    destruct (sample (sph_brdf obj) n o g2) as [[i pdf] g3]. reflexivity.
Qed.

(** An estimator that answers only the calls at depth [d] with flag [f] and
    does not return from any other. *)
Definition only_call (d : Z) (f : bool) (self : Estimator D) : Estimator D :=
  fun y d' f' g => if ((d' =? d)%Z && Bool.eqb f' f)%bool then self y d' f' g else None.

Lemma only_call_same (d : Z) (f : bool) (self : Estimator D) y g :
  only_call d f self y d f g = self y d f g.
Proof.
  unfold only_call. rewrite Z.eqb_refl, Bool.eqb_reflx. reflexivity.
Qed.

(** C2. Emission and the flag of the bounce.  A call that misses returns
    black whatever its flag.  In a call that hits sphere [id], let [direct]
    be the direct term and [total] the sum of [direct] and of the indirect
    term of the bounce, neither of which holds the emission of the sphere.
    When the roulette stops the path the call returns [direct] with
    [flag = false] and [obj.e + direct] with [flag = true]; when the path
    continues the call makes one recursive call, on the ray of the bounce at
    [depth + 1] with the flag [isSpecular] of the material of the sphere
    hit, and returns [total] with [flag = false] and [obj.e + total] with
    [flag = true] if that call returns (and does not return if it does
    not): the emission is in the value returned exactly when the flag is
    set.  The call with the flag set returns the emission plus what the
    call with the flag clear returns, and the body is the same when every
    other recursive call is forbidden.  The camera rays of [main] are traced
    at depth 1 with the flag set. *)
Theorem emission_and_bounce_flag (self : Estimator D) r depth g :
  (forall t id flag, intersect r 0 = (false, t, id) ->
     receivedRadiance_body self r depth flag g = Some (Vec0, g)) /\
  (forall t id, intersect r 0 = (true, t, id) ->
     let h := hit_of r t id in
     let obj := sphere_at id in
     let f := sph_brdf obj in
     let direct := fst (directRadiance obj (mkRay (hit_x h) (hit_o h)) (hit_n h) g) in
     let g1 := snd (directRadiance obj (mkRay (hit_x h) (hit_o h)) (hit_n h) g) in
     let u := fst (rng g1) in
     let g2 := snd (rng g1) in
     let i := normalize (fst (fst (sample f (hit_n h) (hit_o h) g2))) in
     let pdf := snd (fst (sample f (hit_n h) (hit_o h) g2)) in
     let g3 := snd (sample f (hit_n h) (hit_o h) g2) in
     let total rec :=
       vadd direct (vscale (mult rec (eval f (hit_n h) (hit_o h) i))
                           (dot (hit_n h) i / (pdf * roulette_p depth))) in
     ((u <? roulette_p depth) = false ->
        receivedRadiance_body self r depth false g = Some (direct, g2) /\
        receivedRadiance_body self r depth true g = Some (vadd (sph_e obj) direct, g2)) /\
     ((u <? roulette_p depth) = true ->
        receivedRadiance_body self r depth false g =
          match self (mkRay (hit_x h) i) (depth + 1)%Z (isSpecular f) g3 with
          | Some (rec, g4) => Some (total rec, g4)
          | None => None
          end /\
        receivedRadiance_body self r depth true g =
          match self (mkRay (hit_x h) i) (depth + 1)%Z (isSpecular f) g3 with
          | Some (rec, g4) => Some (vadd (sph_e obj) (total rec), g4)
          | None => None
          end)) /\
  (forall t id, intersect r 0 = (true, t, id) ->
     receivedRadiance_body self r depth true g =
       match receivedRadiance_body self r depth false g with
       | Some (totalRad, g') => Some (vadd (sph_e (sphere_at id)) totalRad, g')
       | None => None
       end) /\
  (forall t id flag, intersect r 0 = (true, t, id) ->
     receivedRadiance_body self r depth flag g =
     receivedRadiance_body
       (only_call (depth + 1) (isSpecular (sph_brdf (sphere_at id))) self) r depth flag g) /\
  (forall fuel x y sx sy,
     primarySample fuel x y sx sy g =
     receivedRadiance fuel (fst (primaryRay x y sx sy g)) 1%Z true (snd (primaryRay x y sx sy g))).
Proof.
  split; [| split; [| split; [| split]]].
  - intros t id flag Hi. exact (body_miss self r depth flag g t id Hi).
  - intros t id Hi h obj f direct g1 u g2 i pdf g3 total.
    assert (Hd : direct_term h g = (direct, g1)).
    { unfold direct_term, direct, g1. change (hit_obj h) with obj. fold f.
      destruct (isSpecular f) eqn:Hs; cbn [negb].
      - unfold directRadiance. fold f. rewrite Hs. reflexivity.
      - destruct (directRadiance obj _ _ g); reflexivity. }
    assert (Hr : rng g1 = (u, g2)) by reflexivity.
    split; intros Hu.
    + split; rewrite (body_hit self r depth _ g _ _ _ _ _ _ Hi Hd Hr); cbv zeta;
        rewrite Hu; reflexivity.
    + split; rewrite (body_hit self r depth _ g _ _ _ _ _ _ Hi Hd Hr); cbv zeta;
        rewrite Hu; fold h; change (hit_obj h) with obj; fold f;
        unfold total, i, pdf, g3;
        destruct (sample f (hit_n h) (hit_o h) g2) as [[i0 pdf0] g30]; cbn [fst snd];
        destruct (self _ _ _ g30) as [[rec g4] |]; reflexivity.
  - intros t id Hi.
    destruct (direct_term (hit_of r t id) g) as [direct g1] eqn:Hd.
    destruct (rng g1) as [u g2] eqn:Hr.
    rewrite !(body_hit self r depth _ g _ _ _ _ _ _ Hi Hd Hr). cbv zeta.
    destruct (u <? roulette_p depth); [| reflexivity].
    destruct (sample _ _ _ g2) as [[i pdf] g3].
    destruct (self _ _ _ g3) as [[rec g4] |]; reflexivity.
  - intros t id flag Hi.
    destruct (direct_term (hit_of r t id) g) as [direct g1] eqn:Hd.
    destruct (rng g1) as [u g2] eqn:Hr.
    rewrite !(body_hit _ r depth flag g _ _ _ _ _ _ Hi Hd Hr). cbv zeta.
    destruct (u <? roulette_p depth); [| reflexivity].
    destruct (sample _ _ _ g2) as [[i pdf] g3].
    cbn [hit_obj hit_of]. rewrite only_call_same. reflexivity.
  - intros fuel x y sx sy. unfold primarySample.
    destruct (primaryRay x y sx sy g) as [r0 g0]. reflexivity.
Qed.

(** For every arithmetic: [SpecularBRDF::eval] and [SpecularBRDF::sample]
    with their definitions unfolded down to the components. *)
Lemma specular_eval_sample (ks n o i : Vec D) (g : RNG D) :
  eval (SpecularBRDF ks) n o i =
    (if (d_abs (vx (normalize i) - vx (normalize (mirroredDirection n o))) <=? lit 1 (-4)) &&
        (d_abs (vy (normalize i) - vy (normalize (mirroredDirection n o))) <=? lit 1 (-4)) &&
        (d_abs (vz (normalize i) - vz (normalize (mirroredDirection n o))) <=? lit 1 (-4))
     then mkVec (vx ks * (int 1 / dot n i)) (vy ks * (int 1 / dot n i)) (vz ks * (int 1 / dot n i))
     else mkVec (int 0) (int 0) (int 0)) /\
  sample (SpecularBRDF ks) n o g = ((mirroredDirection n o, lit 1 0), g) /\
  mirroredDirection n o =
    mkVec (vx n * lit 2 0 * dot n o - vx o)
          (vy n * lit 2 0 * dot n o - vy o)
          (vz n * lit 2 0 * dot n o - vz o).
Proof.
  repeat split.
Qed.

(** For every arithmetic: the cases of [Sphere::intersect]. *)
Lemma Sphere_intersect_cases (s : Sphere D) (r : Ray D) :
  let op := vsub (sph_p s) (ray_o r) in
  let b := dot op (ray_d r) in
  let det := b * b - dot op op + sph_rad s * sph_rad s in
  let eps := lit 1 (-4) in
  Sphere_intersect s r =
    if det <? int 0 then int 0
    else if b - d_sqrt det >? eps then b - d_sqrt det
    else if b + d_sqrt det >? eps then b + d_sqrt det
    else int 0.
Proof.
  reflexivity.
Qed.

End Control.

(** ** The command line *)

Section CommandLine.

Local Open Scope Z_scope.
Local Open Scope string_scope.

Lemma atoi_in_int (s : string) :
  INT_MIN <= number_read s <= INT_MAX -> atoi s = Some (number_read s).
Proof.
  intros [Hlo Hhi]. unfold atoi, in_int.
  rewrite (proj2 (Z.leb_le _ _) Hlo), (proj2 (Z.leb_le _ _) Hhi). reflexivity.
Qed.

Lemma atoi_outside_int (s : string) :
  ~ (INT_MIN <= number_read s <= INT_MAX) -> atoi s = None.
Proof.
  intros Hout. unfold atoi, in_int.
  destruct (Z.leb_spec INT_MIN (number_read s)) as [Hlo | Hlo];
    destruct (Z.leb_spec (number_read s) INT_MAX) as [Hhi | Hhi];
    try reflexivity. contradiction Hout. split; assumption.
Qed.

Lemma samps_other (argv : list string) : List.length argv <> 2%nat -> samps argv = Some 1.
Proof.
  intros Hn. unfold samps.
  destruct (Nat.eqb_spec (List.length argv) 2) as [He | _]; [contradiction | reflexivity].
Qed.

(** C4, as the specification states it, fails: with the argument 3 the sample
    count is 3 / 4 = 0, below the minimum of 1 that is claimed, and no camera
    ray is traced. *)
Lemma samps_below_one :
  atoi "3" = Some 3 /\
  samps ["simplept"; "3"] = Some 0 /\
  samples_taken ["simplept"; "3"] = Some 0 /\
  ~ (exists n, samps ["simplept"; "3"] = Some n /\ 1 <= n).
Proof.
  split; [reflexivity |]. split; [reflexivity |]. split; [reflexivity |].
  intros [n [Hn Hle]]. change (samps ["simplept"; "3"]) with (Some 0) in Hn.
  injection Hn as <-. lia.
Qed.

(** C4, amended.  With exactly one argument, whose number [v] can be
    represented in an [int], the sample count is [atoi(argv[1]) / 4], the
    quotient of [v] by 4 truncated toward zero, on which no minimum is
    imposed: it is at least 1 when [v] is at least 4, and 0 when [v] is
    between 0 and 3 (no ray is then traced, as for a negative [v]).  When
    [v] cannot be represented in an [int] the C standard gives [atoi], and
    so the sample count, no value.  With no argument, or with more than
    one, the sample count is 1. *)
Theorem samps_spec (argv : list string) :
  (List.length argv = 2%nat ->
     let v := number_read (nth 1 argv "") in
     (INT_MIN <= v <= INT_MAX ->
        atoi (nth 1 argv "") = Some v /\
        samps argv = Some (Z.quot v 4) /\
        INT_MIN <= Z.quot v 4 <= INT_MAX /\
        (4 <= v -> 1 <= Z.quot v 4 /\ 4 * Z.quot v 4 <= v < 4 * Z.quot v 4 + 4) /\
        (0 <= v < 4 -> samps argv = Some 0) /\
        (v < 4 -> samples_taken argv = Some 0)) /\
     (~ (INT_MIN <= v <= INT_MAX) ->
        atoi (nth 1 argv "") = None /\ samps argv = None /\ samples_taken argv = None)) /\
  (List.length argv <> 2%nat -> samps argv = Some 1 /\ samples_taken argv = Some 1).
Proof.
  split.
  - intros Hlen v. split.
    + intros Hv.
      assert (Ha : atoi (nth 1 argv "") = Some v) by (apply atoi_in_int; exact Hv).
      assert (Hs : samps argv = Some (Z.quot v 4)).
      { unfold samps. rewrite Hlen. cbn [Nat.eqb]. rewrite Ha. reflexivity. }
      assert (Hq : 4 <= v -> 1 <= Z.quot v 4 /\ 4 * Z.quot v 4 <= v < 4 * Z.quot v 4 + 4).
      { intros H4. rewrite Z.quot_div_nonneg by lia.
        pose proof (Z.div_mod v 4 ltac:(lia)) as Hdm.
        pose proof (Z.mod_pos_bound v 4 ltac:(lia)) as Hm.
        assert (1 <= v / 4) by (apply Z.div_le_lower_bound; lia).
        lia. }
      assert (Hneg : v < 4 -> Z.quot v 4 <= 0).
      { intros H4. destruct (Z.le_gt_cases 0 v) as [Hp | Hn].
        - rewrite Z.quot_small; lia.
        - apply Z.quot_le_upper_bound; lia. }
      split; [exact Ha |]. split; [exact Hs |].
      split.
      { unfold INT_MIN, INT_MAX in *. destruct (Z.le_gt_cases 0 v) as [Hp | Hn].
        - rewrite Z.quot_div_nonneg by lia.
          pose proof (Z.div_mod v 4 ltac:(lia)) as Hdm.
          pose proof (Z.mod_pos_bound v 4 ltac:(lia)) as Hm. lia.
        - pose proof (Z.quot_opp_l v 4 ltac:(lia)) as Ho.
          rewrite Z.quot_div_nonneg in Ho by lia.
          pose proof (Z.div_mod (- v) 4 ltac:(lia)) as Hdm.
          pose proof (Z.mod_pos_bound (- v) 4 ltac:(lia)) as Hm. lia. }
      split; [exact Hq |].
      split.
      * intros H03. rewrite Hs, Z.quot_small by exact H03. reflexivity.
      * intros H4. unfold samples_taken. rewrite Hs. cbn [option_map].
        f_equal. specialize (Hneg H4). lia.
    + intros Hout.
      assert (Ha : atoi (nth 1 argv "") = None) by (apply atoi_outside_int; exact Hout).
      assert (Hs : samps argv = None).
      { unfold samps. rewrite Hlen. cbn [Nat.eqb]. rewrite Ha. reflexivity. }
      split; [exact Ha |]. split; [exact Hs |]. unfold samples_taken. rewrite Hs. reflexivity.
  - intros Hlen. unfold samples_taken. rewrite (samps_other argv Hlen). split; reflexivity.
Qed.

(** The arguments 16 and -7, which fit in an [int]; the argument
    2147483648, which does not; and no argument. *)
Lemma samps_spec_witness :
  samps ["simplept"; "16"] = Some 4 /\ samples_taken ["simplept"; "16"] = Some 4 /\
  samps ["simplept"; "-7"] = Some (-1) /\ samples_taken ["simplept"; "-7"] = Some 0 /\
  samps ["simplept"; "2147483648"] = None /\
  samps ["simplept"] = Some 1.
Proof.
  pose proof (samps_spec ["simplept"; "16"]) as [H16 _].
  pose proof (samps_spec ["simplept"; "-7"]) as [H7 _].
  pose proof (samps_spec ["simplept"; "2147483648"]) as [Hbig _].
  pose proof (samps_spec ["simplept"]) as [_ H1].
  specialize (H16 eq_refl). cbv zeta in H16. destruct H16 as [H16 _].
  specialize (H7 eq_refl). cbv zeta in H7. destruct H7 as [H7 _].
  specialize (Hbig eq_refl). cbv zeta in Hbig. destruct Hbig as [_ Hbig].
  specialize (H1 ltac:(discriminate)). destruct H1 as [H1 _].
  destruct H16 as (_ & Hs16 & _); [vm_compute; split; discriminate |].
  destruct H7 as (_ & Hs7 & _ & _ & _ & Ht7); [vm_compute; split; discriminate |].
  destruct Hbig as (_ & Hsbig & _).
  { vm_compute. intros [_ H]. apply H. reflexivity. }
  split; [rewrite Hs16; reflexivity |]. split; [reflexivity |].
  split; [rewrite Hs7; reflexivity |].
  split; [apply Ht7; vm_compute; reflexivity |].
  split; [exact Hsbig | exact H1].
Defined.

End CommandLine.

(** ** Facts of binary64 arithmetic *)

Module B64Facts.

Local Open Scope float_scope.

Definition sf_is_nan (x : spec_float) : bool :=
  match x with S754_nan => true | _ => false end.

Definition sf_is_infinity (x : spec_float) : bool :=
  match x with S754_infinity _ => true | _ => false end.

Definition sf_is_zero (x : spec_float) : bool :=
  match x with S754_zero _ => true | _ => false end.

(** The sign bit, which a NaN does not have. *)
Definition sf_sign (x : spec_float) : option bool :=
  match x with
  | S754_nan => None
  | S754_zero s | S754_infinity s | S754_finite s _ _ => Some s
  end.

Lemma SFcompare_refl (x : spec_float) :
  SFcompare x x = if sf_is_nan x then None else Some Eq.
Proof.
  destruct x as [s | s | | s m e]; cbn.
  - reflexivity.
  - destruct s; reflexivity.
  - reflexivity.
  - rewrite Z.compare_refl, Pos.compare_cont_refl. destruct s; reflexivity.
Qed.

Lemma is_nan_spec (x : float) : is_nan x = sf_is_nan (Prim2SF x).
Proof.
  unfold is_nan. rewrite FloatAxioms.eqb_spec. unfold SFeqb. rewrite SFcompare_refl.
  destruct (sf_is_nan (Prim2SF x)); reflexivity.
Qed.

Lemma is_infinity_spec (x : float) : is_infinity x = sf_is_infinity (Prim2SF x).
Proof.
  unfold is_infinity. rewrite FloatAxioms.eqb_spec, FloatAxioms.abs_spec.
  change (Prim2SF infinity) with (S754_infinity false).
  destruct (Prim2SF x) as [s | s | | s m e]; reflexivity.
Qed.

Lemma is_finite_spec (x : float) :
  is_finite x = negb (sf_is_nan (Prim2SF x) || sf_is_infinity (Prim2SF x)).
Proof.
  unfold is_finite. rewrite is_nan_spec, is_infinity_spec. reflexivity.
Qed.

Lemma eqb_zero_spec (x : float) : (x =? 0) = sf_is_zero (Prim2SF x).
Proof.
  rewrite FloatAxioms.eqb_spec. change (Prim2SF 0) with (S754_zero false).
  destruct (Prim2SF x) as [s | s | | s m e]; try reflexivity; destruct s; reflexivity.
Qed.

Lemma ltb_zero_spec (x : float) :
  (x <? 0) = match Prim2SF x with
             | S754_infinity true | S754_finite true _ _ => true
             | _ => false
             end.
Proof.
  rewrite FloatAxioms.ltb_spec. change (Prim2SF 0) with (S754_zero false).
  destruct (Prim2SF x) as [s | s | | s m e]; try reflexivity; destruct s; reflexivity.
Qed.

(** *** Division by zero, and what a NaN or an infinity does to [*] and [+] *)

Lemma div_by_zero (x y : float) : (y =? 0) = true -> is_finite (x / y) = false.
Proof.
  rewrite eqb_zero_spec, is_finite_spec, FloatAxioms.div_spec. unfold SF64div.
  destruct (Prim2SF y) as [sy | sy | | sy my ey]; try discriminate. intros _.
  destruct (Prim2SF x) as [sx | sx | | sx mx ex]; reflexivity.
Qed.

Lemma mul_not_finite (x w : float) : is_finite w = false -> is_finite (x * w) = false.
Proof.
  rewrite !is_finite_spec, FloatAxioms.mul_spec. unfold SF64mul.
  destruct (Prim2SF w) as [sw | sw | | sw mw ew]; try discriminate; intros _;
    destruct (Prim2SF x) as [sx | sx | | sx mx ex]; reflexivity.
Qed.

Lemma add_not_finite_r (x w : float) : is_finite w = false -> is_finite (x + w) = false.
Proof.
  rewrite !is_finite_spec, FloatAxioms.add_spec. unfold SF64add.
  destruct (Prim2SF w) as [sw | sw | | sw mw ew]; try discriminate; intros _;
    destruct (Prim2SF x) as [sx | sx | | sx mx ex]; try reflexivity;
    destruct sx, sw; reflexivity.
Qed.

Lemma mul_zero_finite (z q : float) :
  (z =? 0) = true -> is_finite q = true -> (z * q =? 0) = true.
Proof.
  rewrite !eqb_zero_spec, is_finite_spec, FloatAxioms.mul_spec. unfold SF64mul.
  destruct (Prim2SF z) as [sz | sz | | sz mz ez]; try discriminate. intros _.
  destruct (Prim2SF q) as [sq | sq | | sq mq eq]; try discriminate; reflexivity.
Qed.

(** *** Signs *)

(** Not negative: a NaN, a zero of either sign, or a number above zero. *)
Definition not_negative (x : float) : bool := negb (x <? 0).

Definition sf_not_negative (x : spec_float) : bool :=
  match x with
  | S754_infinity true | S754_finite true _ _ => false
  | _ => true
  end.

(** [x] is a NaN or has the sign bit [s]. *)
Definition sf_sign_or_nan (s : bool) (x : spec_float) : bool :=
  match sf_sign x with
  | None => true
  | Some s' => Bool.eqb s s'
  end.

Definition sf_zero_or_nan (x : spec_float) : bool := sf_is_zero x || sf_is_nan x.

Lemma not_negative_spec (x : float) : not_negative x = sf_not_negative (Prim2SF x).
Proof.
  unfold not_negative. rewrite ltb_zero_spec.
  destruct (Prim2SF x) as [s | s | | s m e]; try reflexivity; destruct s; reflexivity.
Qed.

Lemma sf_not_negative_cases (x : spec_float) :
  sf_not_negative x = sf_zero_or_nan x || sf_sign_or_nan false x.
Proof.
  destruct x as [s | s | | s m e]; try reflexivity; destruct s; reflexivity.
Qed.

Lemma round_sign (s : bool) (m e : Z) (l : location) :
  sf_sign_or_nan s (binary_round_aux prec emax s m e l) = true.
Proof.
  unfold binary_round_aux.
  destruct (shr_fexp prec emax m e l) as [mrs e'].
  destruct (shr_fexp prec emax _ e' loc_Exact) as [mrs' e''].
  destruct (shr_m mrs') as [| q | q]; [| destruct (e'' <=? emax - prec)%Z |];
    cbn; try apply Bool.eqb_reflx; reflexivity.
Qed.

Lemma SFmul_sign (sx sy : bool) (x y : spec_float) :
  sf_sign_or_nan sx x = true -> sf_sign_or_nan sy y = true ->
  sf_sign_or_nan (xorb sx sy) (SF64mul x y) = true.
Proof.
  unfold SF64mul.
  destruct x as [s | s | | s m e], y as [s' | s' | | s' m' e']; cbn;
    intros Hx Hy; try reflexivity;
    apply Bool.eqb_prop in Hx; apply Bool.eqb_prop in Hy; subst;
    try apply Bool.eqb_reflx.
  apply round_sign.
Qed.

Lemma SFdiv_sign (sx sy : bool) (x y : spec_float) :
  sf_sign_or_nan sx x = true -> sf_sign_or_nan sy y = true ->
  sf_sign_or_nan (xorb sx sy) (SF64div x y) = true.
Proof.
  unfold SF64div.
  destruct x as [s | s | | s m e], y as [s' | s' | | s' m' e']; cbn -[SFdiv_core_binary];
    intros Hx Hy; try reflexivity;
    apply Bool.eqb_prop in Hx; apply Bool.eqb_prop in Hy; subst;
    try apply Bool.eqb_reflx.
  destruct (SFdiv_core_binary prec emax (Z.pos m) e (Z.pos m') e') as [[mz ez] lz].
  apply round_sign.
Qed.

Lemma SFmul_zero_or_nan_l (x y : spec_float) :
  sf_zero_or_nan x = true -> sf_zero_or_nan (SF64mul x y) = true.
Proof.
  unfold SF64mul.
  destruct x as [s | s | | s m e]; try discriminate; intros _;
    destruct y as [s' | s' | | s' m' e']; reflexivity.
Qed.

Lemma SFmul_zero_or_nan_r (x y : spec_float) :
  sf_zero_or_nan y = true -> sf_zero_or_nan (SF64mul x y) = true.
Proof.
  unfold SF64mul.
  destruct y as [s' | s' | | s' m' e']; try discriminate; intros _;
    destruct x as [s | s | | s m e]; reflexivity.
Qed.

Lemma SFmul_not_negative (x y : spec_float) :
  sf_not_negative x = true -> sf_not_negative y = true ->
  sf_not_negative (SF64mul x y) = true.
Proof.
  rewrite !sf_not_negative_cases. intros Hx Hy.
  apply Bool.orb_true_iff in Hx. apply Bool.orb_true_iff in Hy.
  apply Bool.orb_true_iff.
  destruct Hx as [Hx | Hx]; [left; apply SFmul_zero_or_nan_l, Hx |].
  destruct Hy as [Hy | Hy]; [left; apply SFmul_zero_or_nan_r, Hy |].
  right. exact (SFmul_sign false false x y Hx Hy).
Qed.

Lemma SFadd_not_negative (x y : spec_float) :
  sf_not_negative x = true -> sf_not_negative y = true ->
  sf_not_negative (SF64add x y) = true.
Proof.
  unfold SF64add.
  destruct x as [[|] | [|] | | [|] m e], y as [[|] | [|] | | [|] m' e'];
    intros Hx Hy; try discriminate; try reflexivity.
  unfold SFadd. cbn [cond_Zopp Z.add].
  unfold binary_normalize, binary_round.
  destruct (shl_align _ _ _) as [mz ez].
  rewrite sf_not_negative_cases. apply Bool.orb_true_iff. right. apply round_sign.
Qed.

Lemma mul_not_negative (x y : float) :
  not_negative x = true -> not_negative y = true -> not_negative (x * y) = true.
Proof.
  rewrite !not_negative_spec, FloatAxioms.mul_spec. apply SFmul_not_negative.
Qed.

Lemma add_not_negative (x y : float) :
  not_negative x = true -> not_negative y = true -> not_negative (x + y) = true.
Proof.
  rewrite !not_negative_spec, FloatAxioms.add_spec. apply SFadd_not_negative.
Qed.

Lemma zero_or_nan_not_negative (x : spec_float) :
  sf_zero_or_nan x = true -> sf_not_negative x = true.
Proof.
  intros H. rewrite sf_not_negative_cases, H. reflexivity.
Qed.

Lemma sign_or_nan_exists (x : spec_float) : exists s, sf_sign_or_nan s x = true.
Proof.
  destruct x as [s | s | | s m e]; [exists s | exists s | exists false | exists s];
    cbn; try apply Bool.eqb_reflx; reflexivity.
Qed.

(** The specular term [(rec * (k * (1 / a))) * (a / q)]: the sign of [a]
    cancels. *)
Lemma mirror_term_not_negative (rec k a q : float) :
  not_negative rec = true -> not_negative k = true ->
  sf_sign_or_nan false (Prim2SF q) = true ->
  not_negative ((rec * (k * (1 / a))) * (a / q)) = true.
Proof.
  rewrite !not_negative_spec, !FloatAxioms.mul_spec, !FloatAxioms.div_spec.
  change (Prim2SF 1) with (S754_finite false 4503599627370496 (-52)).
  set (one := S754_finite false 4503599627370496 (-52)).
  intros Hrec Hk Hq.
  destruct (sign_or_nan_exists (Prim2SF a)) as [s Ha].
  assert (H1 : sf_sign_or_nan false one = true) by reflexivity.
  pose proof (SFdiv_sign false s one (Prim2SF a) H1 Ha) as Hinv.
  pose proof (SFdiv_sign s false (Prim2SF a) (Prim2SF q) Ha Hq) as Hw.
  rewrite sf_not_negative_cases in Hrec, Hk.
  apply Bool.orb_true_iff in Hrec. apply Bool.orb_true_iff in Hk.
  destruct Hk as [Hk | Hk].
  { apply zero_or_nan_not_negative, SFmul_zero_or_nan_l, SFmul_zero_or_nan_r,
      SFmul_zero_or_nan_l, Hk. }
  pose proof (SFmul_sign false _ _ _ Hk Hinv) as He.
  destruct Hrec as [Hrec | Hrec].
  { apply zero_or_nan_not_negative, SFmul_zero_or_nan_l, SFmul_zero_or_nan_l, Hrec. }
  pose proof (SFmul_sign false _ _ _ Hrec He) as Hre.
  pose proof (SFmul_sign _ _ _ _ Hre Hw) as Hall.
  rewrite sf_not_negative_cases. apply Bool.orb_true_iff. right.
  destruct s; exact Hall.
Qed.

Lemma black_term_not_negative (rec w : float) :
  not_negative ((rec * 0) * w) = true.
Proof.
  rewrite not_negative_spec, !FloatAxioms.mul_spec.
  apply zero_or_nan_not_negative, SFmul_zero_or_nan_l, SFmul_zero_or_nan_r. reflexivity.
Qed.

End B64Facts.

(** ** The estimator on binary64 *)

Module OnBinary64.

Import B64 B64Facts.

(** Every component is a NaN or an infinity. *)
Definition v_not_finite (v : Vec float) : Prop :=
  is_finite (vx v) = false /\ is_finite (vy v) = false /\ is_finite (vz v) = false.

(** No component is negative. *)
Definition v_not_negative (v : Vec float) : bool :=
  not_negative (vx v) && not_negative (vy v) && not_negative (vz v).

(** The reflectance of a material, [kd] or [ks]. *)
Definition reflectance (f : BRDF float) : Vec float :=
  match f with DiffuseBRDF kd => kd | SpecularBRDF ks => ks end.

Section AnyLibm.

(** Whatever [cos] and [sin] the C library provides. *)
Variables cos sin : float -> float.

#[local] Instance F : Double float := binary64 cos sin.

Local Open Scope dbl_scope.

Lemma roulette_p_finite (depth : Z) : is_finite (roulette_p depth) = true.
Proof.
  unfold roulette_p. destruct (5 <=? depth)%Z; reflexivity.
Qed.

Lemma vscale_not_finite (a : Vec float) (w : float) :
  is_finite w = false -> v_not_finite (vscale a w).
Proof.
  intros Hw. repeat split; cbn; apply mul_not_finite; exact Hw.
Qed.

Lemma vadd_not_finite_r (a b : Vec float) : v_not_finite b -> v_not_finite (vadd a b).
Proof.
  intros (Hx & Hy & Hz). repeat split; cbn; apply add_not_finite_r; assumption.
Qed.

Lemma with_emission_not_finite (flag : bool) (obj : Sphere float) (v : Vec float) :
  v_not_finite v -> v_not_finite (with_emission flag obj v).
Proof.
  intros Hv. destruct flag; cbn [with_emission]; [apply vadd_not_finite_r |]; exact Hv.
Qed.

(** C3, amended.  The estimator does not special-case [pdf = 0].  In a call
    that continues after the roulette and whose [sample()] returns a [pdf]
    that is exactly zero, the weight [n.dot(i) / (pdf * p)] is computed as
    for any other [pdf]: it is a NaN or an infinity, so is each component of
    the indirect term whatever the recursive call returns, and so is each
    component of the vector the call returns. *)
Theorem zero_pdf_not_finite (self : Estimator float) r depth flag g t id :
  intersect r 0 = (true, t, id) ->
  let h := hit_of r t id in
  let obj := hit_obj h in
  let n := hit_n h in
  let o := hit_o h in
  let p := roulette_p depth in
  let g1 := snd (direct_term h g) in
  let u := fst (rng g1) in
  let g2 := snd (rng g1) in
  let i := normalize (fst (fst (sample (sph_brdf obj) n o g2))) in
  let pdf := snd (fst (sample (sph_brdf obj) n o g2)) in
  (u <? p) = true ->
  PrimFloat.eqb pdf 0 = true ->
  is_finite (dot n i / (pdf * p)) = false /\
  (forall rec, v_not_finite (indirect (sph_brdf obj) n o i pdf p rec)) /\
  (forall v g', receivedRadiance_body self r depth flag g = Some (v, g') -> v_not_finite v).
Proof.
  intros Hi h obj n o p g1 u g2 i pdf Hu Hpdf.
  assert (Hw : is_finite (dot n i / (pdf * p)) = false).
  { apply div_by_zero. apply mul_zero_finite; [exact Hpdf | apply roulette_p_finite]. }
  assert (Hind : forall rec, v_not_finite (indirect (sph_brdf obj) n o i pdf p rec)).
  { intros rec. unfold indirect. apply vscale_not_finite. exact Hw. }
  split; [exact Hw |]. split; [exact Hind |].
  intros v g' Hbody.
  assert (Hd : direct_term h g = (fst (direct_term h g), g1))
    by (unfold g1; destruct (direct_term h g); reflexivity).
  assert (Hr : rng g1 = (u, g2)) by reflexivity.
  rewrite (body_hit self r depth flag g _ _ _ _ _ _ Hi Hd Hr) in Hbody.
  cbv zeta in Hbody. fold h obj n o p in Hbody. rewrite Hu in Hbody.
  unfold i, pdf in Hind.
  destruct (sample (sph_brdf obj) n o g2) as [[i0 pdf0] g3]. cbn [fst snd] in Hind.
  destruct (self _ _ _ g3) as [[rec g4] |]; [| discriminate].
  injection Hbody as Hv _. subst v.
  apply with_emission_not_finite, vadd_not_finite_r, Hind.
Qed.

Lemma v_not_negative_iff (v : Vec float) :
  v_not_negative v = true <->
  not_negative (vx v) = true /\ not_negative (vy v) = true /\ not_negative (vz v) = true.
Proof.
  unfold v_not_negative. rewrite !Bool.andb_true_iff. tauto.
Qed.

(** The emission and the reflectance of every sphere of the scene have no
    negative component. *)
Lemma scene_not_negative (id : nat) :
  v_not_negative (sph_e (sphere_at id)) = true /\
  v_not_negative (reflectance (sph_brdf (sphere_at id))) = true.
Proof.
  do 8 (destruct id as [| id]; [split; reflexivity |]).
  destruct id; split; reflexivity.
Qed.

Lemma vadd_not_negative (a b : Vec float) :
  v_not_negative a = true -> v_not_negative b = true ->
  v_not_negative (vadd a b) = true.
Proof.
  rewrite !v_not_negative_iff. intros (Ha1 & Ha2 & Ha3) (Hb1 & Hb2 & Hb3).
  repeat split; cbn; apply add_not_negative; assumption.
Qed.

Lemma with_emission_not_negative (flag : bool) (id : nat) (v : Vec float) :
  v_not_negative v = true ->
  v_not_negative (with_emission flag (sphere_at id) v) = true.
Proof.
  intros Hv. destruct flag; cbn [with_emission]; [| exact Hv].
  apply vadd_not_negative; [apply scene_not_negative | exact Hv].
Qed.

Lemma roulette_p_sign (depth : Z) :
  sf_sign_or_nan false (Prim2SF (PrimFloat.mul 1 (roulette_p depth))) = true.
Proof.
  unfold roulette_p. destruct (5 <=? depth)%Z; reflexivity.
Qed.

Lemma inv_PI_not_negative : not_negative (PrimFloat.div 1 PI64) = true.
Proof. reflexivity. Qed.

(** The indirect term of a bounce has no negative component when the
    recursive result and the reflectance have none and, on a diffuse surface,
    the weight is not negative. *)
Lemma indirect_not_negative (f : BRDF float) (n o i rec : Vec float) (pdf : float) (depth : Z) :
  v_not_negative (reflectance f) = true ->
  v_not_negative rec = true ->
  (isSpecular f = false ->
     not_negative (PrimFloat.div (dot n i) (PrimFloat.mul pdf (roulette_p depth))) = true) ->
  (isSpecular f = true -> pdf = 1%float) ->
  v_not_negative (indirect f n o i pdf (roulette_p depth) rec) = true.
Proof.
  rewrite !v_not_negative_iff. intros (Hk1 & Hk2 & Hk3) (Hr1 & Hr2 & Hr3) Hw Hpdf.
  destruct f as [kd | ks]; cbn [reflectance isSpecular] in *.
  - specialize (Hw eq_refl).
    unfold indirect, eval. repeat split; cbn;
      (apply mul_not_negative; [apply mul_not_negative; [assumption |] | exact Hw]);
      (apply mul_not_negative; [assumption | exact inv_PI_not_negative]).
  - rewrite (Hpdf eq_refl). unfold indirect, eval. cbv zeta.
    destruct (within_tol _ _).
    + repeat split; cbn; apply mirror_term_not_negative; try assumption; apply roulette_p_sign.
    + repeat split; cbn; apply black_term_not_negative.
Qed.

(** C8, amended.  The estimator does not clamp what it adds up.  A call that
    misses returns black.  A call that hits returns a vector with no negative
    component (each is zero, above zero or a NaN) provided the direct term of
    the call has no negative component, the vector returned by the recursive
    call it makes has none and, on a diffuse surface, the weight
    [n.dot(i) / (pdf * p)] is not negative; on the mirror the sign of
    [n.dot(i)] cancels between [eval] and the weight.  Nothing makes the
    direct term non-negative: it has the sign of
    [n.dot(o1) * sourceNormal.dot(-o1)]. *)
Theorem radiance_not_negative_step (self : Estimator float) r depth flag g :
  (forall t id, intersect r 0 = (false, t, id) ->
     receivedRadiance_body self r depth flag g = Some (Vec0, g) /\
     v_not_negative Vec0 = true) /\
  (forall t id, intersect r 0 = (true, t, id) ->
     let h := hit_of r t id in
     let n := hit_n h in
     let o := hit_o h in
     let f := sph_brdf (hit_obj h) in
     let p := roulette_p depth in
     let direct := fst (direct_term h g) in
     let g2 := snd (rng (snd (direct_term h g))) in
     let i := normalize (fst (fst (sample f n o g2))) in
     let pdf := snd (fst (sample f n o g2)) in
     let g3 := snd (sample f n o g2) in
     v_not_negative direct = true ->
     (isSpecular f = false -> not_negative (dot n i / (pdf * p)) = true) ->
     (forall rec g4,
        self (mkRay (hit_x h) i) (depth + 1)%Z (isSpecular f) g3 = Some (rec, g4) ->
        v_not_negative rec = true) ->
     forall v g', receivedRadiance_body self r depth flag g = Some (v, g') ->
                  v_not_negative v = true).
Proof.
  split.
  - intros t id Hi. split; [exact (body_miss self r depth flag g t id Hi) | reflexivity].
  - intros t id Hi h n o f p direct g2 i pdf g3 Hdirect Hw Hself v g' Hbody.
    assert (Hd : direct_term h g = (direct, snd (direct_term h g)))
      by (unfold direct; destruct (direct_term h g); reflexivity).
    assert (Hr : rng (snd (direct_term h g)) = (fst (rng (snd (direct_term h g))), g2))
      by reflexivity.
    rewrite (body_hit self r depth flag g _ _ _ _ _ _ Hi Hd Hr) in Hbody.
    cbv zeta in Hbody. fold h n o p in Hbody.
    change (hit_obj h) with (sphere_at id) in Hbody.
    change (sph_brdf (sphere_at id)) with f in Hbody.
    destruct (_ <? p).
    + assert (Hpdf : isSpecular f = true -> pdf = 1%float).
      { unfold pdf. destruct f; [discriminate | reflexivity]. }
      unfold i, pdf, g3 in Hw, Hself, Hpdf.
      destruct (sample f n o g2) as [[i0 pdf0] g30]. cbn [fst snd] in Hw, Hself, Hpdf.
      destruct (self _ _ _ g30) as [[rec g4] |] eqn:Hrec; [| discriminate].
      injection Hbody as Hv _. subst v.
      apply with_emission_not_negative, vadd_not_negative; [exact Hdirect |].
      apply indirect_not_negative; try assumption.
      * apply scene_not_negative.
      * exact (Hself rec g4 eq_refl).
    + injection Hbody as Hv _. subst v.
      apply with_emission_not_negative. exact Hdirect.
Qed.

End AnyLibm.

End OnBinary64.

(** ** Concrete runs of the compiled program *)

Module Runs.

Import B64 B64Facts OnBinary64.

Local Open Scope Z_scope.

#[local] Existing Instance libm64.

Definition vec (a b c : float) : Vec float := mkVec a b c.

(** A ray that falls on the top of the matte ball (sphere 5) from above. *)
Definition ray_down : Ray float := mkRay (vec 27 50 47) (vec 0 (-1) 0).

(** A ray from the centre of the matte ball to its top, hit from inside. *)
Definition ray_inside : Ray float := mkRay (vec 27 16.5 47) (vec 0 1 0).

(** Samples for two calls: light sample (0, 0), roulette 0, bounce (0, 0);
    then light sample (0, 0), roulette 0.95. *)
Definition two_calls : RNG float :=
  engine [0; 0; 0; 0; 0; 0; 0; lit64 95 (-2)]%float 0%float.

(** Samples for one call: light sample (0, 0), roulette 0.95. *)
Definition one_call : RNG float := engine [0; 0; lit64 95 (-2)]%float 0%float.

(** A ray that leaves the scene: it starts outside every sphere and points
    away from them. *)
Definition ray_away : Ray float := mkRay (vec 0 300000 0) (vec 0 1 0).

(** A ray that falls on the top of the mirror ball (sphere 6) from above. *)
Definition ray_mirror : Ray float := mkRay (vec 73 50 78) (vec 0 (-1) 0).

(** Samples for two calls on matte surfaces: light sample (0, 0), roulette 0,
    bounce (0.25, 0); then light sample (0, 0), roulette 0.95. *)
Definition two_calls_quarter : RNG float :=
  engine [0; 0; 0; 0.25; 0; 0; 0; lit64 95 (-2)]%float 0%float.

(** Samples for a call on the mirror (roulette 0) and two calls on matte
    surfaces. *)
Definition mirror_calls : RNG float :=
  engine [0; 0; 0; 0; 0.25; 0; 0; 0; lit64 95 (-2)]%float 0%float.


Lemma ray_down_hit : intersect ray_down 0 = (true, 17%float, 5%nat).
Proof. vm_compute. reflexivity. Qed.

Lemma ray_mirror_hit : intersect ray_mirror 0 = (true, 17%float, 6%nat).
Proof. vm_compute. reflexivity. Qed.

Lemma ray_away_miss : intersect ray_away 0 = (false, lit64 1 20, 0%nat).
Proof. vm_compute. reflexivity. Qed.

(** C3, as the specification states it, fails.  [ray_down] hits the matte
    ball where the normal is the y axis; with the first bounce sample 0 the
    sampled direction is horizontal, [n.dot(i)] is 0 and [pdf] is exactly 0.
    The weight is then 0 / 0: the indirect term is a NaN in every component,
    not zero, and so is the value of the call. *)
Lemma zero_pdf_gives_nan :
  let g := two_calls in
  let r := ray_down in
  let h := hit_of r 17%float 5%nat in
  let obj := hit_obj h in
  let p : float := roulette_p 5 in
  let g2 := snd (rng (snd (direct_term h g))) in
  let s := sample (sph_brdf obj) (hit_n h) (hit_o h) g2 in
  let i := normalize (fst (fst s)) in
  let pdf := snd (fst s) in
  let rec := receivedRadiance 1 (mkRay (hit_x h) i) 6 false (snd s) in
  intersect r 0 = (true, 17%float, 5%nat) /\
  PrimFloat.ltb (fst (rng (snd (direct_term h g)))) p = true /\
  pdf = 0%float /\
  dot (hit_n h) i = 0%float /\
  option_map (fun vg => indirect (sph_brdf obj) (hit_n h) (hit_o h) i pdf p (fst vg)) rec
    = Some (vec nan nan nan) /\
  option_map fst (receivedRadiance 2 r 5 false g) = Some (vec nan nan nan).
Proof.
  vm_compute. repeat split.
Qed.

Lemma zero_pdf_not_finite_witness :
  let g := two_calls in
  let r := ray_down in
  let h := hit_of r 17%float 5%nat in
  let p : float := roulette_p 5 in
  let g2 := snd (rng (snd (direct_term h g))) in
  let s := sample (sph_brdf (hit_obj h)) (hit_n h) (hit_o h) g2 in
  is_finite (d_div (dot (hit_n h) (normalize (fst (fst s)))) (d_mul (snd (fst s)) p)) = false /\
  (forall rec, v_not_finite
     (indirect (sph_brdf (hit_obj h)) (hit_n h) (hit_o h) (normalize (fst (fst s))) (snd (fst s)) p rec)) /\
  (forall v g', receivedRadiance 2 r 5 false g = Some (v, g') -> v_not_finite v).
Proof.
  apply (zero_pdf_not_finite cos64 sin64 (receivedRadiance 1) ray_down 5 false two_calls
           17%float 5%nat ray_down_hit); vm_compute; reflexivity.
Defined.

Lemma roulette_continuation_witness :
  let h := hit_of ray_down 17%float 5%nat in
  let obj := sphere_at 5 in
  let direct := fst (direct_term h one_call) in
  let g2 := snd (rng (snd (direct_term h two_calls_quarter))) in
  let s := sample (sph_brdf obj) (hit_n h) (hit_o h) g2 in
  let i := normalize (fst (fst s)) in
  roulette_p 5 = lit64 9 (-1) /\
  roulette_p 4 = lit64 1 0 /\
  receivedRadiance_body (receivedRadiance 1) ray_down 5 false one_call
    = Some (direct, snd (rng (snd (direct_term h one_call)))) /\
  receivedRadiance_body (receivedRadiance 1) ray_down 5 false two_calls_quarter
    = match receivedRadiance 1 (mkRay (hit_x h) i) 6 false (snd s) with
      | None => None
      | Some (rec, g4) =>
          Some (vadd direct
                  (vscale (mult rec (eval (sph_brdf obj) (hit_n h) (hit_o h) i))
                          (d_div (dot (hit_n h) i) (d_mul (snd (fst s)) (roulette_p 5)))), g4)
      end.
Proof.
  destruct (@roulette_continuation float libm64 (receivedRadiance 1) ray_down 5 false one_call
              17%float 5%nat ray_down_hit) as (_ & H5 & Hstop & _).
  destruct (@roulette_continuation float libm64 (receivedRadiance 1) ray_down 4 false one_call
              17%float 5%nat ray_down_hit) as (H4 & _).
  destruct (@roulette_continuation float libm64 (receivedRadiance 1) ray_down 5 false two_calls_quarter
              17%float 5%nat ray_down_hit) as (_ & _ & _ & Hcont).
  split; [apply H5; lia |]. split; [apply H4; lia |].
  split; [apply Hstop | apply Hcont]; vm_compute; reflexivity.
Defined.

(** A ray that goes up to the light (sphere 7) from below it. *)
Definition ray_light : Ray float := mkRay (vec 50 60 (lit64 816 (-1))) (vec 0 1 0).

(** The ray from [a] toward [b]. *)
Definition toward (a b : Vec float) : Ray float := mkRay a (normalize (vsub b a)).

(** Rays toward the centres of the mirror ball and of the matte ball, from
    points of the lines that join these centres to the centre of the light:
    each ball is hit where its normal points to the light. *)
Definition ray_to_mirror : Ray float :=
  toward (vec (lit64 546 (-1)) (lit64 593 (-1)) (lit64 8088 (-2))) (sph_p (sphere_at 6)).
Definition ray_to_matte : Ray float :=
  toward (vec (lit64 454 (-1)) (lit64 593 (-1)) (lit64 7468 (-2))) (sph_p (sphere_at 5)).

(** Samples for a call on the mirror (roulette 0) and a call on the light:
    light sample (0, 0), roulette 0.95. *)
Definition calls_mirror : RNG float := engine [0; 0; 0; lit64 95 (-2)]%float 0%float.

(** Samples for a call on the matte ball, light sample (0, 0), roulette 0,
    bounce (0.999, 0), close to the normal, and a call on the light. *)
Definition calls_matte : RNG float :=
  engine [0; 0; 0; lit64 999 (-3); 0; 0; 0; lit64 95 (-2)]%float 0%float.

Lemma ray_light_hit : intersect ray_light 0 = (true, 5%float, 7%nat).
Proof. vm_compute. reflexivity. Qed.

Lemma ray_to_mirror_hit :
  intersect ray_to_mirror 0 = (true, snd (fst (intersect ray_to_mirror 0)), 6%nat).
Proof. vm_compute. reflexivity. Qed.

Lemma ray_to_matte_hit :
  intersect ray_to_matte 0 = (true, snd (fst (intersect ray_to_matte 0)), 5%nat).
Proof. vm_compute. reflexivity. Qed.

(** The ray of the bounce of a call that hits sphere [id]. *)
Definition bounce_ray (r : Ray float) (id : nat) (g : RNG float) : Ray float :=
  let h := hit_of r (snd (fst (intersect r 0))) id in
  let g2 := snd (rng (snd (directRadiance (sphere_at id) (mkRay (hit_x h) (hit_o h)) (hit_n h) g))) in
  mkRay (hit_x h) (normalize (fst (fst (sample (sph_brdf (sphere_at id)) (hit_n h) (hit_o h) g2)))).

(** The light, hit at depth 5 with the roulette sample 0.95, returns its
    emission (50, 50, 50) with the flag set and black with the flag clear.
    The bounce on the mirror hits the light: the call made there has the
    flag set and returns the emission, which the call on the mirror returns
    multiplied by 0.999 / 0.9.  The bounce on the matte ball hits the light
    too: the call made there has the flag clear and returns black, and the
    call on the matte ball returns its direct term alone. *)
Lemma emission_and_bounce_flag_witness :
  receivedRadiance_body (receivedRadiance 1) ray_away 1 true one_call = Some (Vec0, one_call) /\
  option_map fst (receivedRadiance_body (receivedRadiance 0) ray_light 5 true one_call)
    = Some (vec 50 50 50) /\
  option_map fst (receivedRadiance_body (receivedRadiance 0) ray_light 5 false one_call)
    = Some (vec 0 0 0) /\
  fst (fst (intersect (bounce_ray ray_to_mirror 6 calls_mirror) 0)) = true /\
  snd (intersect (bounce_ray ray_to_mirror 6 calls_mirror) 0) = 7%nat /\
  option_map fst (receivedRadiance_body (receivedRadiance 1) ray_to_mirror 5 false calls_mirror)
    = Some (vec 55.5 55.5 55.5) /\
  fst (fst (intersect (bounce_ray ray_to_matte 5 calls_matte) 0)) = true /\
  snd (intersect (bounce_ray ray_to_matte 5 calls_matte) 0) = 7%nat /\
  option_map fst (receivedRadiance_body (receivedRadiance 1) ray_to_matte 5 false calls_matte)
    = Some (fst (directRadiance (sphere_at 5)
                   (mkRay (ray_o (bounce_ray ray_to_matte 5 calls_matte))
                          (hit_o (hit_of ray_to_matte (snd (fst (intersect ray_to_matte 0))) 5)))
                   (hit_n (hit_of ray_to_matte (snd (fst (intersect ray_to_matte 0))) 5))
                   calls_matte)).
Proof.
  destruct (@emission_and_bounce_flag float libm64 (receivedRadiance 1) ray_away 1 one_call)
    as (Hmiss & _).
  destruct (@emission_and_bounce_flag float libm64 (receivedRadiance 0) ray_light 5 one_call)
    as (_ & Hlight & _).
  destruct (@emission_and_bounce_flag float libm64 (receivedRadiance 1) ray_to_mirror 5 calls_mirror)
    as (_ & Hmirror & _).
  destruct (@emission_and_bounce_flag float libm64 (receivedRadiance 1) ray_to_matte 5 calls_matte)
    as (_ & Hmatte & _).
  specialize (Hlight _ _ ray_light_hit). cbv zeta in Hlight. destruct Hlight as [Hstop _].
  destruct Hstop as [Hclear Hset]; [vm_compute; reflexivity |].
  specialize (Hmirror _ _ ray_to_mirror_hit). cbv zeta in Hmirror. destruct Hmirror as [_ Hmirror].
  destruct Hmirror as [Hmirror _]; [vm_compute; reflexivity |].
  specialize (Hmatte _ _ ray_to_matte_hit). cbv zeta in Hmatte. destruct Hmatte as [_ Hmatte].
  destruct Hmatte as [Hmatte _]; [vm_compute; reflexivity |].
  split; [exact (Hmiss _ _ true ray_away_miss) |].
  split; [rewrite Hset; vm_compute; reflexivity |].
  split; [rewrite Hclear; vm_compute; reflexivity |].
  split; [vm_compute; reflexivity |]. split; [vm_compute; reflexivity |].
  split; [rewrite Hmirror; vm_compute; reflexivity |].
  split; [vm_compute; reflexivity |]. split; [vm_compute; reflexivity |].
  rewrite Hmatte. vm_compute. reflexivity.
Defined.

(** C8, as the specification states it, fails.  [ray_inside] starts at the
    centre of the matte ball and hits its surface from inside, where the
    normal is flipped to point inward.  The sampled point of the light is
    visible from the hit point and lies behind the surface, so
    [n.dot(o1)] is negative and the direct term is negative in every
    component; with the roulette sample 0.95 at depth 5 the call returns
    it. *)
Lemma radiance_negative :
  let h := hit_of ray_inside 16.5%float 5%nat in
  let y1 := fst (fst (fst (luminaireSample (sphere_at 7) one_call))) in
  let o1 := normalize (vsub y1 (hit_x h)) in
  intersect ray_inside 0 = (true, 16.5%float, 5%nat) /\
  isVisibile (hit_x h) y1 = 1%float /\
  PrimFloat.ltb (dot (hit_n h) o1) 0 = true /\
  match receivedRadiance 1 ray_inside 5 false one_call with
  | Some (v, _) =>
      PrimFloat.ltb (vx v) 0 = true /\ PrimFloat.ltb (vy v) 0 = true /\
      PrimFloat.ltb (vz v) 0 = true /\ v_not_negative v = false
  | None => False
  end.
Proof.
  vm_compute. repeat split.
Qed.

Lemma radiance_not_negative_step_witness :
  receivedRadiance_body (receivedRadiance 1) ray_away 5 false one_call = Some (Vec0, one_call) /\
  (forall v g', receivedRadiance 2 ray_down 5 true two_calls_quarter = Some (v, g') ->
                v_not_negative v = true) /\
  (forall v g', receivedRadiance 3 ray_mirror 5 true mirror_calls = Some (v, g') ->
                v_not_negative v = true).
Proof.
  destruct (radiance_not_negative_step cos64 sin64 (receivedRadiance 1) ray_away 5 false one_call)
    as [Hmiss _].
  destruct (radiance_not_negative_step cos64 sin64 (receivedRadiance 1) ray_down 5 true
              two_calls_quarter) as [_ Hmatte].
  destruct (radiance_not_negative_step cos64 sin64 (receivedRadiance 2) ray_mirror 5 true
              mirror_calls) as [_ Hmirror].
  split; [exact (proj1 (Hmiss _ _ ray_away_miss)) |].
  split.
  - apply (Hmatte 17%float 5%nat ray_down_hit).
    + reflexivity.
    + intros _. reflexivity.
    + intros rec g4 Hrec. vm_compute in Hrec. injection Hrec as <- _. reflexivity.
  - apply (Hmirror 17%float 6%nat ray_mirror_hit).
    + vm_compute. reflexivity.
    + discriminate.
    + intros rec g4 Hrec. vm_compute in Hrec. injection Hrec as <- _. reflexivity.
Defined.

(** *** Rounding

    The equalities proved below on exact reals are those of the formulas; on
    doubles each operation rounds and they are not exact.

    A finite double is [m * 2^e] for integers [m] and [e], and a pair
    [(m, e)] stands for that number: sums, differences and products of such
    pairs are computed exactly. *)

Definition dyadic (x : float) : Z * Z :=
  match Prim2SF x with
  | S754_finite s m e => (if s then Z.neg m else Z.pos m, e)
  | _ => (0, 0)
  end.

(** Two pairs brought to their smaller exponent. *)
Definition dalign (a b : Z * Z) : Z * Z * Z :=
  let e := Z.min (snd a) (snd b) in
  (fst a * 2 ^ (snd a - e), fst b * 2 ^ (snd b - e), e).

Definition dadd (a b : Z * Z) : Z * Z := let '(x, y, e) := dalign a b in (x + y, e).
Definition dsub (a b : Z * Z) : Z * Z := let '(x, y, e) := dalign a b in (x - y, e).
Definition dmul (a b : Z * Z) : Z * Z := (fst a * fst b, snd a + snd b).
Definition deqb (a b : Z * Z) : bool := let '(x, y, _) := dalign a b in x =? y.

(** The exact dot product of two vectors of doubles, and the exact square
    of the distance between two points. *)
Definition exact_dot (a b : Vec float) : Z * Z :=
  dadd (dadd (dmul (dyadic (vx a)) (dyadic (vx b))) (dmul (dyadic (vy a)) (dyadic (vy b))))
       (dmul (dyadic (vz a)) (dyadic (vz b))).

Definition exact_dist2 (a b : Vec float) : Z * Z :=
  let d (c : Vec float -> float) := dsub (dyadic (c a)) (dyadic (c b)) in
  dadd (dadd (dmul (d vx) (d vx)) (dmul (d vy) (d vy))) (dmul (d vz) (d vz)).

Lemma dyadic_values :
  dyadic 5 = (5629499534213120, -50) /\ deqb (dyadic 5) (5, 0) = true /\
  deqb (dmul (dyadic 0.5) (dyadic 0.5)) (dyadic 0.25) = true /\
  deqb (dsub (dyadic 1) (dyadic 0.25)) (dyadic 0.75) = true /\
  deqb (dadd (dyadic 0.5) (dyadic 0.25)) (dyadic 1) = false.
Proof. repeat split. Qed.

(** C7, as the specification states it, fails on the doubles of the program.
    With the samples (0.25, 0) the light sampler returns a point whose
    distance to the centre of the light is not the radius 5: the distance
    computed on doubles is below 5, and the exact square of the distance
    between the point returned and the centre is not 25.  The normal
    returned is not of length 1 (its exact square is not 1, and the square
    computed on doubles is below 1), and it is not what
    [(point - center) / r] gives on doubles, computed as a product by
    [1 / r] or as a quotient. *)
Lemma light_point_off_sphere :
  let L := luminaireSample (sphere_at 7) (engine [0.25; 0]%float 0%float) in
  let point := fst (fst (fst L)) in
  let n := snd (fst (fst L)) in
  let p := sph_p (sphere_at 7) in
  let r := sph_rad (sphere_at 7) in
  r = 5%float /\
  PrimFloat.ltb (d_sqrt (dot (vsub point p) (vsub point p))) r = true /\
  deqb (exact_dist2 point p) (dmul (dyadic r) (dyadic r)) = false /\
  PrimFloat.ltb (dot n n) 1 = true /\
  deqb (exact_dot n n) (1, 0) = false /\
  PrimFloat.eqb (vx n) (vx (vscale (vsub point p) (d_div (lit 1 0) r))) = false /\
  PrimFloat.eqb (vx n) (d_div (vx (vsub point p)) r) = false.
Proof. vm_compute. repeat split. Qed.

(** C10, as the specification states it, fails on the doubles of the
    program.  On the left wall, [kd = (.75, .25, .25)], with the normal z and
    the bounce sample (0.75, 0), [sample] returns a direction [i] with
    [pdf = n.dot(i) / PI] and [n.dot(i) > 0], and [eval * (n.dot(i) / pdf)]
    is not [kd]: each component is the double just below that of [kd], for
    the direction as [sample] returns it and for the direction normalized
    again at line 321 alike.  Computed exactly from the doubles,
    [eval * n.dot(i)] is not [kd * pdf] either. *)
Lemma diffuse_weight_not_kd :
  let kd := vec 0.75 0.25 0.25 in
  let n := vec 0 0 1 in
  let s := sample (DiffuseBRDF kd) n n (engine [0.75; 0]%float 0%float) in
  let i := fst (fst s) in
  let pdf := snd (fst s) in
  let weight (i : Vec float) := vscale (eval (DiffuseBRDF kd) n n i) (d_div (dot n i) pdf) in
  leftWall = DiffuseBRDF kd /\
  pdf = d_div (dot n i) PI /\
  PrimFloat.ltb 0 (dot n i) = true /\
  weight i = vec (PrimFloat.next_down 0.75) (PrimFloat.next_down 0.25) (PrimFloat.next_down 0.25) /\
  weight (normalize i)
    = vec (PrimFloat.next_down 0.75) (PrimFloat.next_down 0.25) (PrimFloat.next_down 0.25) /\
  PrimFloat.eqb (vx (weight i)) (vx kd) = false /\
  deqb (dmul (dyadic (vx (eval (DiffuseBRDF kd) n n i))) (dyadic (dot n i)))
       (dmul (dyadic (vx kd)) (dyadic pdf)) = false.
Proof. vm_compute. repeat split. Qed.

Remark diffuse_weight_rounding :
  let kd := vec (lit64 9 (-1)) (lit64 9 (-1)) (lit64 9 (-1)) in
  let n := vec 0 0 1 in
  let s := sample (DiffuseBRDF kd) n n (engine [0.25; 0]%float 0%float) in
  let i := normalize (fst (fst s)) in
  vx (vscale (eval (DiffuseBRDF kd) n n i) (d_div (dot n i) (snd (fst s))))
  = PrimFloat.next_down (vx kd).
Proof. vm_compute. reflexivity. Qed.

Remark light_point_rounding :
  let x := fst (fst (fst (luminaireSample (sphere_at 7) (engine [0.25; 0]%float 0%float)))) in
  let d := vsub x (sph_p (sphere_at 7)) in
  d_lt (d_sqrt (dot d d)) (sph_rad (sphere_at 7)) = true.
Proof. vm_compute. reflexivity. Qed.

End Runs.

(** ** The program on exact reals *)

Module OnReals.

Import Exact.

#[local] Existing Instance exactR.

Local Open Scope R_scope.

(** Unfolds the operations of [exactR] to those of [R]. *)
Ltac to_R :=
  cbn [d_add d_sub d_mul d_div d_neg d_sqrt d_cos d_sin d_abs d_lt d_le d_nonzero
       lit PI exactR int vx vy vz vadd vsub vscale mult dot V Vec0] in *.

Lemma Rltb_true (a b : R) : Rltb a b = true <-> a < b.
Proof.
  unfold Rltb. destruct (Rlt_dec a b); split; intros; try assumption;
    try reflexivity; try discriminate; contradiction.
Qed.

Lemma Rltb_false (a b : R) : Rltb a b = false <-> b <= a.
Proof.
  unfold Rltb. destruct (Rlt_dec a b); split; intros; try discriminate; try reflexivity; lra.
Qed.

Lemma litR_int (n : Z) : litR n 0 = IZR n.
Proof. unfold litR. cbn [powerRZ]. ring. Qed.

Lemma litR_eps : litR 1 (-4) = / 10000.
Proof. unfold litR, powerRZ. simpl. lra. Qed.

Lemma litR_09 : litR 9 (-1) = 9 / 10.
Proof. unfold litR, powerRZ. simpl. lra. Qed.

(** The quadratic [Sphere::intersect] solves, in the unknown [t]:
    [t^2 - 2 t b + (op.op - R^2)], with [op = p - r.o] and [b = op.d].  For a
    direction of unit length it is the squared distance from the point
    [r.o + t r.d] to the centre, less the squared radius. *)
Definition quadratic (s : Sphere R) (r : Ray R) (t : R) : R :=
  let op := vsub (sph_p s) (ray_o r) in
  t * t - 2 * dot op (ray_d r) * t + (dot op op - sph_rad s * sph_rad s).

Definition discriminant (s : Sphere R) (r : Ray R) : R :=
  let op := vsub (sph_p s) (ray_o r) in
  let b := dot op (ray_d r) in
  b * b - dot op op + sph_rad s * sph_rad s.

Lemma quadratic_ray (s : Sphere R) (r : Ray R) (t : R) :
  dot (ray_d r) (ray_d r) = 1 ->
  let x := vadd (ray_o r) (vscale (ray_d r) t) in
  quadratic s r t = dot (vsub x (sph_p s)) (vsub x (sph_p s)) - sph_rad s * sph_rad s.
Proof.
  destruct s as [rad [px py pz] e f], r as [[ox oy oz] [dx dy dz]].
  unfold quadratic. to_R. cbn [sph_p sph_rad ray_o ray_d]. to_R.
  intros Hd.
  replace (t * t) with (t * t * (dx * dx + dy * dy + dz * dz)) by (rewrite Hd; ring).
  ring.
Qed.

Lemma quadratic_square (s : Sphere R) (r : Ray R) (t : R) :
  quadratic s r t =
  (t - dot (vsub (sph_p s) (ray_o r)) (ray_d r)) * (t - dot (vsub (sph_p s) (ray_o r)) (ray_d r))
  - discriminant s r.
Proof.
  unfold quadratic, discriminant. cbv zeta. to_R. ring.
Qed.

Lemma quadratic_roots (s : Sphere R) (r : Ray R) (t : R) :
  quadratic s r t = 0 ->
  0 <= discriminant s r /\
  (t = dot (vsub (sph_p s) (ray_o r)) (ray_d r) - sqrt (discriminant s r) \/
   t = dot (vsub (sph_p s) (ray_o r)) (ray_d r) + sqrt (discriminant s r)).
Proof.
  rewrite quadratic_square.
  set (b := dot _ _). set (det := discriminant s r). intros Hq.
  assert (Hdet : 0 <= det).
  { pose proof (Rle_0_sqr (t - b)) as H0. unfold Rsqr in H0. lra. }
  split; [exact Hdet |].
  pose proof (sqrt_sqrt det Hdet) as Hs. pose proof (sqrt_pos det) as Hp.
  set (sd := sqrt det) in *.
  assert (Hprod : (t - b - sd) * (t - b + sd) = 0) by nra.
  apply Rmult_integral in Hprod. destruct Hprod; [right | left]; lra.
Qed.

Lemma quadratic_at_roots (s : Sphere R) (r : Ray R) :
  0 <= discriminant s r ->
  quadratic s r (dot (vsub (sph_p s) (ray_o r)) (ray_d r) - sqrt (discriminant s r)) = 0 /\
  quadratic s r (dot (vsub (sph_p s) (ray_o r)) (ray_d r) + sqrt (discriminant s r)) = 0.
Proof.
  intros Hdet. rewrite !quadratic_square.
  pose proof (sqrt_sqrt _ Hdet) as Hs.
  set (b := dot _ _) in *. set (sd := sqrt _) in *. split; nra.
Qed.

Lemma Sphere_intersect_R (s : Sphere R) (r : Ray R) :
  let b := dot (vsub (sph_p s) (ray_o r)) (ray_d r) in
  let det := discriminant s r in
  Sphere_intersect s r =
    if Rlt_dec det 0 then 0
    else if Rlt_dec (/ 10000) (b - sqrt det) then b - sqrt det
    else if Rlt_dec (/ 10000) (b + sqrt det) then b + sqrt det
    else 0.
Proof.
  cbv zeta. rewrite Sphere_intersect_cases. cbv zeta.
  unfold discriminant. cbn [d_lt d_sub d_add d_mul d_sqrt lit int exactR].
  rewrite litR_int, litR_eps. unfold Rltb.
  repeat match goal with |- context [Rlt_dec ?a ?b] => destruct (Rlt_dec a b) end;
    reflexivity.
Qed.

(** C5.  For every arithmetic, [Sphere::intersect] computes
    [det = b*b - op.op + rad*rad]; a negative [det] is a miss (0); otherwise
    it returns the near root [b - sqrt(det)] when that exceeds 1e-4, else the
    far root [b + sqrt(det)] when that exceeds 1e-4, else a miss (0).  On
    exact reals the value returned on a hit is the smallest root of the
    quadratic that is greater than 1e-4, and a miss is returned exactly when
    the quadratic has no root greater than 1e-4. *)
Theorem Sphere_intersect_smallest_root :
  (forall (D : Type) (DD : Double D) (s : Sphere D) (r : Ray D),
     let op := vsub (sph_p s) (ray_o r) in
     let b := dot op (ray_d r) in
     let det := d_add (d_sub (d_mul b b) (dot op op)) (d_mul (sph_rad s) (sph_rad s)) in
     let near := d_sub b (d_sqrt det) in
     let far := d_add b (d_sqrt det) in
     Sphere_intersect s r =
       if d_lt det (int 0) then int 0
       else if d_lt (lit 1 (-4)) near then near
       else if d_lt (lit 1 (-4)) far then far
       else int 0) /\
  (forall (s : Sphere R) (r : Ray R),
     let b := dot (vsub (sph_p s) (ray_o r)) (ray_d r) in
     let det := discriminant s r in
     let t := Sphere_intersect s r in
     (det < 0 -> t = 0) /\
     (0 <= det -> / 10000 < b - sqrt det -> t = b - sqrt det) /\
     (0 <= det -> b - sqrt det <= / 10000 -> / 10000 < b + sqrt det -> t = b + sqrt det) /\
     (0 <= det -> b + sqrt det <= / 10000 -> t = 0) /\
     (t <> 0 ->
        / 10000 < t /\ quadratic s r t = 0 /\
        forall t', quadratic s r t' = 0 -> / 10000 < t' -> t <= t') /\
     (t = 0 -> forall t', quadratic s r t' = 0 -> t' <= / 10000)).
Proof.
  split; [intros D DD s r; apply Sphere_intersect_cases |].
  intros s r b det t.
  assert (Ht : t = if Rlt_dec det 0 then 0
                   else if Rlt_dec (/ 10000) (b - sqrt det) then b - sqrt det
                   else if Rlt_dec (/ 10000) (b + sqrt det) then b + sqrt det
                   else 0) by apply Sphere_intersect_R.
  pose proof (sqrt_pos det) as Hsd.
  assert (Hroots : forall t', quadratic s r t' = 0 ->
                     0 <= det /\ (t' = b - sqrt det \/ t' = b + sqrt det))
    by (intros t'; apply quadratic_roots).
  assert (Hat : 0 <= det -> quadratic s r (b - sqrt det) = 0 /\
                            quadratic s r (b + sqrt det) = 0)
    by apply quadratic_at_roots.
  clearbody t b det.
  destruct (Rlt_dec det 0) as [Hneg | Hpos].
  - subst t. repeat split; try lra. intros.
    match goal with Hq : quadratic _ _ ?t' = 0 |- _ => destruct (Hroots t' Hq) as [Hdet0 _] end.
    lra.
  - destruct (Hat ltac:(lra)) as [Hnear Hfar].
    destruct (Rlt_dec (/ 10000) (b - sqrt det)) as [Hn | Hn];
      [| destruct (Rlt_dec (/ 10000) (b + sqrt det)) as [Hf | Hf]]; subst t;
      repeat split; try lra; try assumption; intros;
      match goal with
      | Hq : quadratic _ _ ?t' = 0 |- _ => destruct (Hroots t' Hq) as [_ [-> | ->]]; lra
      end.
Qed.

(** The unit sphere at the origin, and a ray toward its centre from the
    distance 3: it enters at 2 and leaves at 4. *)
Definition unit_sphere : Sphere R := mkSphere 1 (mkVec 0 0 0) (mkVec 0 0 0) (DiffuseBRDF (mkVec 0 0 0)).
Definition ray_to_centre : Ray R := mkRay (mkVec 0 0 (-3)) (mkVec 0 0 1).
(** The same ray from inside the sphere, and the ray that points away. *)
Definition ray_from_centre : Ray R := mkRay (mkVec 0 0 0) (mkVec 0 0 1).
Definition ray_leaving : Ray R := mkRay (mkVec 0 0 3) (mkVec 0 0 1).
Definition ray_beside : Ray R := mkRay (mkVec 2 0 (-3)) (mkVec 0 0 1).

Lemma Sphere_intersect_smallest_root_witness :
  Sphere_intersect unit_sphere ray_to_centre = 2 /\
  Sphere_intersect unit_sphere ray_from_centre = 1 /\
  Sphere_intersect unit_sphere ray_leaving = 0 /\
  Sphere_intersect unit_sphere ray_beside = 0 /\
  quadratic unit_sphere ray_to_centre 2 = 0 /\
  (forall t', quadratic unit_sphere ray_to_centre t' = 0 -> / 10000 < t' -> 2 <= t').
Proof.
  destruct Sphere_intersect_smallest_root as [_ H].
  assert (Hb : forall z, dot (vsub (sph_p unit_sphere) (mkVec 0 0 z)) (mkVec 0 0 1) = - z)
    by (intros z; cbn [sph_p unit_sphere]; to_R; ring).
  assert (Hd : forall x z, discriminant unit_sphere (mkRay (mkVec x 0 z) (mkVec 0 0 1)) = 1 - x * x)
    by (intros x z; unfold discriminant; cbn [sph_p sph_rad unit_sphere ray_o ray_d]; to_R; ring).
  destruct (H unit_sphere ray_to_centre) as (_ & Hnear & _ & _ & Hhit & _).
  destruct (H unit_sphere ray_from_centre) as (_ & _ & Hfar & _).
  destruct (H unit_sphere ray_leaving) as (_ & _ & _ & Hbehind & _).
  destruct (H unit_sphere ray_beside) as (Hneg & _).
  cbv zeta in *. unfold ray_to_centre, ray_from_centre, ray_leaving, ray_beside in *.
  cbn [ray_o ray_d] in *. rewrite !Hb, !Hd in *.
  replace (1 - 0 * 0) with 1 in * by ring. rewrite sqrt_1 in *.
  assert (E2 : Sphere_intersect unit_sphere (mkRay (mkVec 0 0 (-3)) (mkVec 0 0 1)) = 2)
    by (rewrite Hnear; lra).
  split; [exact E2 |].
  split; [rewrite Hfar; lra |].
  split; [apply Hbehind; lra |].
  split; [apply Hneg; lra |].
  rewrite E2 in Hhit. destruct (Hhit ltac:(lra)) as (_ & Hq & Hmin).
  split; [exact Hq | exact Hmin].
Defined.

(** *** The mirror *)

Lemma mirroredDirection_R (n o : Vec R) :
  mirroredDirection n o = vsub (vscale n (2 * dot n o)) o.
Proof.
  destruct n as [nx ny nz], o as [ox oy oz].
  unfold mirroredDirection, vsub, vscale.
  cbn [vx vy vz d_mul d_sub lit exactR]. rewrite litR_int. f_equal; ring.
Qed.

Lemma mirroredDirection_reflects (n o : Vec R) :
  dot n n = 1 ->
  dot n (mirroredDirection n o) = dot n o /\
  dot (mirroredDirection n o) (mirroredDirection n o) = dot o o.
Proof.
  rewrite mirroredDirection_R.
  destruct n as [nx ny nz], o as [ox oy oz]. to_R. intros Hn.
  set (k := nx * ox + ny * oy + nz * oz).
  split.
  - replace (nx * (nx * (2 * k) - ox) + ny * (ny * (2 * k) - oy) + nz * (nz * (2 * k) - oz))
      with (2 * k * (nx * nx + ny * ny + nz * nz) - k) by (unfold k; ring).
    rewrite Hn. ring.
  - replace ((nx * (2 * k) - ox) * (nx * (2 * k) - ox) + (ny * (2 * k) - oy) * (ny * (2 * k) - oy)
             + (nz * (2 * k) - oz) * (nz * (2 * k) - oz))
      with (4 * k * k * (nx * nx + ny * ny + nz * nz) - 4 * k * k + (ox * ox + oy * oy + oz * oz))
      by (unfold k; ring).
    rewrite Hn. ring.
Qed.

(** C6.  For every arithmetic, [SpecularBRDF::eval] normalizes [i] and the
    mirrored direction, returns the reflectance [ks] scaled by
    [1 / n.dot(i)] when each component of the normalized [i] is within 1e-4 of
    the same component of the normalized mirrored direction, and returns
    [Vec()], zero, otherwise; [SpecularBRDF::sample] draws no sample and
    returns the mirrored direction [n * 2.0 * n.dot(o) - o] with [pdf = 1.0].
    On exact reals the mirrored direction is [2 (n.o) n - o], which for a
    unit normal is the reflection of [o] about [n]: it makes the same angle
    with [n] and has the length of [o]. *)
Theorem specular_brdf :
  (forall (D : Type) (DD : Double D) (ks n o i : Vec D) (g : RNG D),
     eval (SpecularBRDF ks) n o i =
       (if d_le (d_abs (d_sub (vx (normalize i)) (vx (normalize (mirroredDirection n o)))))
                (lit 1 (-4)) &&
           d_le (d_abs (d_sub (vy (normalize i)) (vy (normalize (mirroredDirection n o)))))
                (lit 1 (-4)) &&
           d_le (d_abs (d_sub (vz (normalize i)) (vz (normalize (mirroredDirection n o)))))
                (lit 1 (-4))
        then mkVec (d_mul (vx ks) (d_div (int 1) (dot n i)))
                   (d_mul (vy ks) (d_div (int 1) (dot n i)))
                   (d_mul (vz ks) (d_div (int 1) (dot n i)))
        else mkVec (int 0) (int 0) (int 0)) /\
     sample (SpecularBRDF ks) n o g = ((mirroredDirection n o, lit 1 0), g) /\
     mirroredDirection n o =
       mkVec (d_sub (d_mul (d_mul (vx n) (lit 2 0)) (dot n o)) (vx o))
             (d_sub (d_mul (d_mul (vy n) (lit 2 0)) (dot n o)) (vy o))
             (d_sub (d_mul (d_mul (vz n) (lit 2 0)) (dot n o)) (vz o))) /\
  (forall (n o : Vec R),
     mirroredDirection n o = vsub (vscale n (2 * dot n o)) o /\
     (dot n n = 1 ->
      dot n (mirroredDirection n o) = dot n o /\
      dot (mirroredDirection n o) (mirroredDirection n o) = dot o o)).
Proof.
  split.
  - intros D DD ks n o i g. apply specular_eval_sample.
  - intros n o. split; [apply mirroredDirection_R | apply mirroredDirection_reflects].
Qed.

Lemma specular_brdf_witness :
  let n : Vec R := mkVec 0 0 1 in
  let o : Vec R := mkVec (3 / 5) 0 (4 / 5) in
  mirroredDirection n o = mkVec (- (3 / 5)) 0 (4 / 5) /\
  dot n (mirroredDirection n o) = 4 / 5 /\
  dot (mirroredDirection n o) (mirroredDirection n o) = 1.
Proof.
  intros n o.
  destruct specular_brdf as [_ H]. destruct (H n o) as [Hm Hr].
  assert (Hn : dot n n = 1) by (unfold n; to_R; ring).
  destruct (Hr Hn) as [Hdot Hlen].
  split; [rewrite Hm; unfold n, o, vsub, vscale; to_R; f_equal; field |].
  split; [rewrite Hdot; unfold n, o; to_R; field | rewrite Hlen; unfold o; to_R; field].
Defined.

(** *** The light sampler *)

Lemma unit_sphere_point (z c s : R) :
  -1 <= z <= 1 -> s * s + c * c = 1 ->
  let q := sqrt (1 - z * z) in
  (q * c) * (q * c) + (q * s) * (q * s) + z * z = 1.
Proof.
  intros Hz Hcs q.
  assert (Hq : q * q = 1 - z * z) by (apply sqrt_sqrt; nra).
  replace ((q * c) * (q * c) + (q * s) * (q * s)) with ((q * q) * (s * s + c * c)) by ring.
  rewrite Hq, Hcs. ring.
Qed.

Lemma sin_cos_square (a : R) : sin a * sin a + cos a * cos a = 1.
Proof. exact (sin2_cos2 a). Qed.

(** The light sampler on exact reals. *)
Lemma luminaireSample_R (source : Sphere R) (g : RNG R) :
  let r := sph_rad source in
  let e1 := draws g (pos g) in
  let e2 := draws g (S (pos g)) in
  0 < r ->
  0 <= e1 <= 1 ->
  let point := fst (fst (fst (luminaireSample source g))) in
  let n := snd (fst (fst (luminaireSample source g))) in
  let pdf := snd (fst (luminaireSample source g)) in
  vz n = 2 * e1 - 1 /\
  vx n = sqrt (1 - vz n * vz n) * cos (2 * Rtrigo1.PI * e2) /\
  vy n = sqrt (1 - vz n * vz n) * sin (2 * Rtrigo1.PI * e2) /\
  point = vadd (sph_p source) (vscale n r) /\
  sqrt (dot (vsub point (sph_p source)) (vsub point (sph_p source))) = r /\
  dot n n = 1 /\
  n = vscale (vsub point (sph_p source)) (1 / r) /\
  pdf = 1 / (4 * Rtrigo1.PI * (r * r)) /\
  snd (luminaireSample source g) = mkRNG (draws g) (S (S (pos g))).
Proof.
  intros r e1 e2 Hr He point n pdf.
  destruct source as [rad [px py pz] e f]. destruct g as [dr ps].
  cbn [sph_rad sph_p draws pos] in *.
  unfold luminaireSample, rng in point, n, pdf |- *.
  cbn [sph_rad sph_p draws pos fst snd] in point, n, pdf |- *.
  subst point n pdf. to_R. rewrite !litR_int.
  fold r e1 e2.
  set (z := 2 * e1 - 1).
  set (q := sqrt (1 - z * z)).
  set (c := cos (2 * Rtrigo1.PI * e2)). set (s := sin (2 * Rtrigo1.PI * e2)).
  assert (Hz : -1 <= z <= 1) by (unfold z; lra).
  pose proof (unit_sphere_point z c s Hz (sin_cos_square _)) as Hunit.
  cbv zeta in Hunit. fold q in Hunit.
  assert (Hr0 : r <> 0) by lra.
  repeat split.
  - replace ((px + q * c * r - px) * (px + q * c * r - px) +
             (py + q * s * r - py) * (py + q * s * r - py) +
             (pz + z * r - pz) * (pz + z * r - pz))
      with (r * r * ((q * c) * (q * c) + (q * s) * (q * s) + z * z)) by ring.
    rewrite Hunit, Rmult_1_r. apply sqrt_square. lra.
  - exact Hunit.
  - unfold V, vscale, vsub, vadd.
    cbn [vx vy vz d_mul d_sub d_add d_div exactR].
    f_equal; field; exact Hr0.
Qed.

(** C7, amended.  For every arithmetic, [luminaireSample] draws two samples
    [e1], [e2], computes [z = 2 e1 - 1], [x = sqrt(1 - z z) cos(2 PI e2)],
    [y = sqrt(1 - z z) sin(2 PI e2)] and returns the point [p + (x, y, z) r],
    the normal [(x, y, z)] and the pdf [1 / (4 PI (r r))], each operation
    being that of the arithmetic.  In exact real arithmetic, for a radius
    [r > 0] and a first sample between 0 and 1, the point is at distance
    exactly [r] from the centre [p], and the normal has unit length and is
    [(point - p) / r].  On the doubles of the program these three facts are
    not exact ([Runs.light_point_off_sphere]). *)
Theorem luminaireSample_on_sphere :
  (forall (D : Type) (DD : Double D) (source : Sphere D) (g : RNG D),
     let r := sph_rad source in
     let e1 := draws g (pos g) in
     let e2 := draws g (S (pos g)) in
     let z := d_sub (d_mul (lit 2 0) e1) (lit 1 0) in
     let x := d_mul (d_sqrt (d_sub (lit 1 0) (d_mul z z)))
                    (d_cos (d_mul (d_mul (lit 2 0) PI) e2)) in
     let y := d_mul (d_sqrt (d_sub (lit 1 0) (d_mul z z)))
                    (d_sin (d_mul (d_mul (lit 2 0) PI) e2)) in
     luminaireSample source g =
       ((vadd (sph_p source) (vscale (mkVec x y z) r),
         mkVec x y z,
         d_div (int 1) (d_mul (d_mul (lit 4 0) PI) (d_mul r r))),
        mkRNG (draws g) (S (S (pos g))))) /\
  (forall (source : Sphere R) (g : RNG R),
     let r := sph_rad source in
     let e1 := draws g (pos g) in
     let e2 := draws g (S (pos g)) in
     0 < r ->
     0 <= e1 <= 1 ->
     let point := fst (fst (fst (luminaireSample source g))) in
     let n := snd (fst (fst (luminaireSample source g))) in
     let pdf := snd (fst (luminaireSample source g)) in
     vz n = 2 * e1 - 1 /\
     vx n = sqrt (1 - vz n * vz n) * cos (2 * Rtrigo1.PI * e2) /\
     vy n = sqrt (1 - vz n * vz n) * sin (2 * Rtrigo1.PI * e2) /\
     point = vadd (sph_p source) (vscale n r) /\
     sqrt (dot (vsub point (sph_p source)) (vsub point (sph_p source))) = r /\
     dot n n = 1 /\
     n = vscale (vsub point (sph_p source)) (1 / r) /\
     pdf = 1 / (4 * Rtrigo1.PI * (r * r)) /\
     snd (luminaireSample source g) = mkRNG (draws g) (S (S (pos g)))).
Proof.
  split.
  - intros D DD source g. reflexivity.
  - exact luminaireSample_R.
Qed.

(** The light of the scene on exact reals, and an engine whose samples are all 1/2. *)
Definition half_engine : RNG R := mkRNG (fun _ => / 2) 0.

Lemma light_radius : sph_rad (sphere_at 7) = 5.
Proof. cbn. unfold litR, powerRZ. simpl. lra. Qed.

Lemma luminaireSample_on_sphere_witness :
  let source := sphere_at 7 in
  let point := fst (fst (fst (luminaireSample source half_engine))) in
  let n := snd (fst (fst (luminaireSample source half_engine))) in
  sqrt (dot (vsub point (sph_p source)) (vsub point (sph_p source))) = sph_rad source /\
  dot n n = 1 /\
  snd (fst (luminaireSample source half_engine)) = 1 / (4 * Rtrigo1.PI * (sph_rad source * sph_rad source)).
Proof.
  assert (Hr : 0 < sph_rad (sphere_at 7)) by (rewrite light_radius; lra).
  assert (He : 0 <= draws half_engine (pos half_engine) <= 1) by (cbn; lra).
  pose proof (proj2 luminaireSample_on_sphere (sphere_at 7) half_engine Hr He) as H.
  cbv zeta in H. destruct H as (_ & _ & _ & _ & Hd & Hn & _ & Hp & _).
  cbv zeta. split; [exact Hd |]. split; [exact Hn | exact Hp].
Defined.

(** *** The diffuse bounce *)

Lemma dot_self_nonneg (v : Vec R) : 0 <= dot v v.
Proof.
  destruct v as [x y z]. to_R.
  pose proof (Rle_0_sqr x) as Hx. pose proof (Rle_0_sqr y) as Hy. pose proof (Rle_0_sqr z) as Hz.
  unfold Rsqr in *. lra.
Qed.

Lemma normalize_scale (v : Vec R) : normalize v = vscale v (1 / sqrt (dot v v)).
Proof. unfold normalize. to_R. rewrite litR_int. reflexivity. Qed.

Lemma normalize_unit (v : Vec R) : 0 < dot v v -> dot (normalize v) (normalize v) = 1.
Proof.
  intros Hv. rewrite normalize_scale.
  pose proof (sqrt_sqrt (dot v v) (Rlt_le _ _ Hv)) as Hs.
  pose proof (sqrt_lt_R0 (dot v v) Hv) as Hp.
  set (d := dot v v) in *. set (q := sqrt d) in *.
  destruct v as [x y z]. to_R.
  replace (x * (1 / q) * (x * (1 / q)) + y * (1 / q) * (y * (1 / q)) + z * (1 / q) * (z * (1 / q)))
    with ((x * x + y * y + z * z) / (q * q)) by (field; lra).
  fold d. rewrite Hs. field. lra.
Qed.

Lemma normalize_null (v : Vec R) : dot v v = 0 -> forall n, dot n (normalize v) = 0.
Proof.
  intros Hv n. rewrite normalize_scale, Hv, sqrt_0.
  destruct v as [x y z], n as [nx ny nz]. to_R.
  unfold Rdiv. rewrite Rinv_0. ring.
Qed.

Lemma normalize_idem (v : Vec R) : 0 < dot v v -> normalize (normalize v) = normalize v.
Proof.
  intros Hv. rewrite (normalize_scale (normalize v)), (normalize_unit v Hv), sqrt_1.
  destruct (normalize v) as [x y z]. unfold vscale. to_R. f_equal; field.
Qed.

Lemma roulette_p_R (depth : Z) : roulette_p depth = 1 \/ roulette_p depth = 9 / 10.
Proof.
  unfold roulette_p. destruct (5 <=? depth)%Z; to_R.
  - right. apply litR_09.
  - left. apply litR_int.
Qed.

(** The diffuse bounce on exact reals. *)
Lemma diffuse_weight_R (kd n o : Vec R) (g : RNG R) :
  let i := fst (fst (sample (DiffuseBRDF kd) n o g)) in
  let pdf := snd (fst (sample (DiffuseBRDF kd) n o g)) in
  0 < dot n i ->
  pdf = dot n i / Rtrigo1.PI /\
  normalize i = i /\
  vscale (eval (DiffuseBRDF kd) n o (normalize i)) (dot n (normalize i) / pdf) = kd /\
  forall (depth : Z) (rec : Vec R),
    indirect (DiffuseBRDF kd) n o (normalize i) pdf (roulette_p depth) rec
    = vscale (mult rec kd) (1 / roulette_p depth).
Proof.
  intros i pdf Hni.
  assert (Hpdf : pdf = dot n i / Rtrigo1.PI).
  { unfold pdf, i, sample, uniformRandomPSA, rng. cbn [fst snd].
    destruct (createLocalCoord n) as [[u v] w]. reflexivity. }
  assert (Hidem : normalize i = i).
  { unfold i, sample, uniformRandomPSA, rng in Hni |- *. cbn [fst snd] in Hni |- *.
    destruct (createLocalCoord n) as [[u v] w]. cbn [fst snd] in Hni |- *.
    match goal with |- normalize (normalize ?i0) = _ => set (v0 := i0) in * end.
    pose proof (dot_self_nonneg v0) as H0.
    destruct (Req_dec (dot v0 v0) 0) as [Hz | Hnz].
    - rewrite (normalize_null v0 Hz n) in Hni. lra.
    - apply normalize_idem. lra. }
  pose proof PI_RGT_0 as Hpi.
  split; [exact Hpdf |]. split; [exact Hidem |].
  rewrite Hidem, Hpdf. clearbody i. clear pdf Hpdf Hidem.
  set (a := dot n i) in *.
  split.
  - destruct kd as [kx ky kz]. unfold eval, vscale.
    cbn [vx vy vz d_mul d_div lit PI exactR]. rewrite litR_int.
    f_equal; field; lra.
  - intros depth rec.
    destruct kd as [kx ky kz], rec as [rx ry rz]. unfold indirect, eval, vscale, mult.
    cbn [vx vy vz d_mul d_div lit PI exactR]. rewrite !litR_int. fold a.
    destruct (roulette_p_R depth) as [-> | ->]; f_equal; field; lra.
Qed.

(** C10, amended.  For every arithmetic, [DiffuseBRDF::eval] is
    [kd * (1.0 / PI)] and [DiffuseBRDF::sample] returns a direction [i] with
    [pdf = n.dot(i) / PI], each operation being that of the arithmetic.  In
    exact real arithmetic, when [n.dot(i) > 0] the direction is of unit
    length (normalizing it again at line 321 leaves it as it is), the value
    [eval(n, o, i) * (n.dot(i) / pdf)] is [kd] in every component, and the
    indirect term of the bounce is the recursive result multiplied
    component-wise by [kd] and scaled by [1 / p], whatever [i] is.  On the
    doubles of the program the weight is not exactly [kd]
    ([Runs.diffuse_weight_not_kd]). *)
Theorem diffuse_weight_is_kd :
  (forall (D : Type) (DD : Double D) (kd n o i : Vec D) (g : RNG D),
     eval (DiffuseBRDF kd) n o i = vscale kd (d_div (lit 1 0) PI) /\
     snd (fst (sample (DiffuseBRDF kd) n o g))
     = d_div (dot n (fst (fst (sample (DiffuseBRDF kd) n o g)))) PI) /\
  (forall (kd n o : Vec R) (g : RNG R),
     let i := fst (fst (sample (DiffuseBRDF kd) n o g)) in
     let pdf := snd (fst (sample (DiffuseBRDF kd) n o g)) in
     0 < dot n i ->
     pdf = dot n i / Rtrigo1.PI /\
     normalize i = i /\
     vscale (eval (DiffuseBRDF kd) n o (normalize i)) (dot n (normalize i) / pdf) = kd /\
     forall (depth : Z) (rec : Vec R),
       indirect (DiffuseBRDF kd) n o (normalize i) pdf (roulette_p depth) rec
       = vscale (mult rec kd) (1 / roulette_p depth)).
Proof.
  split.
  - intros D DD kd n o i g. split; [reflexivity |].
    unfold sample, uniformRandomPSA, rng. cbn [fst snd].
    destruct (createLocalCoord n) as [[u v] w]. reflexivity.
  - exact diffuse_weight_R.
Qed.

(** *** The roulette sample

    The roulette sample is uniform on [0, 1): means over it are Riemann
    integrals on that interval. *)

(** A component of the value returned after a bounce is affine in the same
    component of the recursive result. *)
Lemma bounce_component (c : Vec R -> R) (flag : bool) (obj : Sphere R) (f : BRDF R)
    (n o i direct rec : Vec R) (pdf p : R) :
  c = vx \/ c = vy \/ c = vz ->
  c (with_emission flag obj (vadd direct (indirect f n o i pdf p rec)))
  = c (with_emission flag obj direct) + (c (eval f n o i) * (dot n i / (pdf * p))) * c rec.
Proof.
  intros [-> | [-> | ->]]; destruct flag; unfold with_emission, indirect, vadd, vscale, mult;
    cbn [vx vy vz d_add d_mul d_div exactR]; ring.
Qed.

Lemma roulette_p_nonzero (depth : Z) : roulette_p depth <> 0.
Proof. destruct (roulette_p_R depth) as [-> | ->]; lra. Qed.

(** The roulette sample and the uniform density.  [roulette_value p a b u] is
    the value of a call whose roulette sample is [u], when the call is worth
    [a] if it continues (the program's test [rng() < p]) and [b] if it stops. *)
Definition roulette_value (p a b u : R) : R := if d_lt u p then a else b.

Lemma roulette_value_below (p a b u : R) : u < p -> roulette_value p a b u = a.
Proof.
  intros H. unfold roulette_value. cbn [d_lt exactR].
  rewrite (proj2 (Rltb_true u p) H). reflexivity.
Qed.

Lemma roulette_value_above (p a b u : R) : p <= u -> roulette_value p a b u = b.
Proof.
  intros H. unfold roulette_value. cbn [d_lt exactR].
  rewrite (proj2 (Rltb_false u p) H). reflexivity.
Qed.

(** On [0, p] the value is a step function: [a] inside, whatever at the ends. *)
Lemma roulette_step (p a b : R) : 0 <= p -> IsStepFun (roulette_value p a b) 0 p.
Proof.
  intros Hp. exists [0; p]. exists [a].
  unfold adapted_couple. repeat split.
  - intros k Hk. simpl in Hk. assert (k = 0%nat) by lia. subst k. simpl. exact Hp.
  - simpl. rewrite Rmin_left; auto.
  - simpl. rewrite Rmax_right; auto.
  - intros k Hk. simpl in Hk. assert (k = 0%nat) by lia. subst k. simpl.
    intros x [_ Hx]. apply roulette_value_below, Hx.
Qed.

Lemma roulette_integrable_below (p a b : R) :
  0 <= p -> Riemann_integrable (roulette_value p a b) 0 p.
Proof.
  intros Hp eps.
  exists (mkStepFun (roulette_step p a b Hp)). exists (mkStepFun (StepFun_P4 0 p 0)).
  split.
  - intros t _. cbn [fe]. unfold fct_cte. rewrite Rminus_diag, Rabs_R0. lra.
  - rewrite StepFun_P18, Rmult_0_l, Rabs_R0. apply cond_pos.
Qed.

Lemma roulette_integrable_above (p a b : R) :
  p <= 1 -> Riemann_integrable (roulette_value p a b) p 1.
Proof.
  intros Hp.
  apply Riemann_integrable_ext with (f := fct_cte b); [| apply RiemannInt_P14].
  intros x [Hx _]. rewrite Rmin_left in Hx by exact Hp.
  unfold fct_cte. symmetry. apply roulette_value_above, Hx.
Qed.

Lemma roulette_integrable (p a b : R) :
  0 <= p <= 1 -> Riemann_integrable (roulette_value p a b) 0 1.
Proof.
  intros [H0 H1].
  apply (RiemannInt_P24 (roulette_integrable_below p a b H0)
                        (roulette_integrable_above p a b H1)).
Qed.

(** The mean of the value over a roulette sample uniform on [0, 1]: the call
    continues with probability [p] and stops with probability [1 - p]. *)
Lemma roulette_mean (p a b : R) (pr : Riemann_integrable (roulette_value p a b) 0 1) :
  0 <= p <= 1 -> RiemannInt pr = p * a + (1 - p) * b.
Proof.
  intros [H0 H1].
  rewrite <- (RiemannInt_P26 (roulette_integrable_below p a b H0)
                             (roulette_integrable_above p a b H1) pr).
  rewrite (RiemannInt_P18 (roulette_integrable_below p a b H0) (RiemannInt_P14 0 p a) H0)
    by (intros x [_ Hx]; unfold fct_cte; apply roulette_value_below, Hx).
  rewrite (RiemannInt_P18 (roulette_integrable_above p a b H1) (RiemannInt_P14 p 1 b) H1)
    by (intros x [Hx _]; unfold fct_cte; apply roulette_value_above; lra).
  rewrite !RiemannInt_P15. ring.
Qed.

Lemma roulette_p_unit (depth : Z) : 0 <= roulette_p depth <= 1.
Proof. destruct (roulette_p_R depth) as [-> | ->]; lra. Qed.

(** A bounce on a surface whose normal is the z axis, with the samples 1/4 and 0. *)
Definition bounce_engine : RNG R := mkRNG (fun k => match k with O => / 4 | _ => 0 end) 0.
Definition z_axis : Vec R := mkVec 0 0 1.


Lemma normalize_of_unit (v : Vec R) : dot v v = 1 -> normalize v = v.
Proof.
  intros Hv. rewrite normalize_scale, Hv, sqrt_1.
  destruct v as [x y z]. unfold vscale. to_R. f_equal; field.
Qed.

Lemma sqrt_quarter : sqrt (/ 4) = / 2.
Proof.
  replace (/ 4) with (/ 2 * / 2) by lra. apply sqrt_square. lra.
Qed.

Lemma bounce_direction (kd o : Vec R) :
  dot z_axis (fst (fst (sample (DiffuseBRDF kd) z_axis o bounce_engine))) = / 2.
Proof.
  unfold sample, uniformRandomPSA, rng, bounce_engine. cbn [draws pos fst snd].
  unfold createLocalCoord, z_axis. cbn [vx vy vz].
  cbn [d_abs d_lt lit exactR].
  rewrite Rabs_R0.
  replace (Rltb (litR 1 (-1)) 0) with false
    by (symmetry; apply Rltb_false; unfold litR, powerRZ; simpl; lra).
  cbn [fst].
  assert (Hu : normalize (cross (mkVec (int 1) (int 0) (int 0)) (mkVec 0 0 1)) = mkVec 0 (-1) 0).
  { rewrite normalize_of_unit; unfold cross, dot; to_R; rewrite !litR_int;
      [f_equal; ring | ring]. }
  rewrite Hu.
  cbn [d_sqrt d_cos d_sin d_mul d_sub lit PI exactR]. rewrite !litR_int, sqrt_quarter.
  replace (2 * Rtrigo1.PI * 0) with 0 by ring. rewrite cos_0, sin_0.
  set (q := sqrt (1 - / 2 * / 2)).
  assert (Hq : q * q = 3 / 4) by (unfold q; rewrite sqrt_sqrt; lra).
  rewrite normalize_of_unit; unfold cross, vadd, vscale, dot; to_R; [ring | nra].
Qed.

Lemma diffuse_weight_is_kd_witness :
  let kd := mkVec (3 / 4) (1 / 4) (1 / 4) in
  let o := mkVec 0 0 1 in
  let i := fst (fst (sample (DiffuseBRDF kd) z_axis o bounce_engine)) in
  let pdf := snd (fst (sample (DiffuseBRDF kd) z_axis o bounce_engine)) in
  dot z_axis i = / 2 /\
  pdf = / 2 / Rtrigo1.PI /\
  vscale (eval (DiffuseBRDF kd) z_axis o (normalize i)) (dot z_axis (normalize i) / pdf) = kd /\
  forall rec, indirect (DiffuseBRDF kd) z_axis o (normalize i) pdf (roulette_p 7) rec
              = vscale (mult rec kd) (1 / roulette_p 7).
Proof.
  intros kd o i pdf.
  assert (Hi : dot z_axis i = / 2) by apply bounce_direction.
  assert (Hpos : 0 < dot z_axis i) by (rewrite Hi; lra).
  destruct (proj2 diffuse_weight_is_kd kd z_axis o bounce_engine Hpos) as (Hpdf & _ & Hkd & Hind).
  split; [exact Hi |]. split; [rewrite <- Hi; exact Hpdf |].
  split; [exact Hkd | intros rec; apply Hind].
Defined.

End OnReals.

(** * The rest of the program

    What follows covers the code around the estimator: the engine of the
    samples, the closest hit, the vector operations, the sampling of
    directions, the camera rays and the image. *)

(** ** The engine of the samples, for every arithmetic *)

Section Engine.

Context {D : Type} {DD : Double D}.
Local Open Scope dbl_scope.

(** The engine [g] after [k] more samples. *)
Definition advanced (g : RNG D) (k : nat) : RNG D := mkRNG (draws g) (pos g + k).

Lemma advanced_0 (g : RNG D) : advanced g 0 = g.
Proof. destruct g as [dr ps]. unfold advanced. cbn. rewrite Nat.add_0_r. reflexivity. Qed.

Lemma advanced_rng (g : RNG D) (k : nat) : snd (rng (advanced g k)) = advanced g (S k).
Proof. unfold rng, advanced. cbn. rewrite Nat.add_succ_r. reflexivity. Qed.

Lemma advanced_add (g : RNG D) (j k : nat) : advanced (advanced g j) k = advanced g (j + k).
Proof. unfold advanced. cbn. rewrite Nat.add_assoc. reflexivity. Qed.

(** The samples a material's [sample] and the direct term draw. *)
Definition draws_of (f : BRDF D) : nat := if isSpecular f then 0 else 2.

Lemma sample_draws (f : BRDF D) (n o : Vec D) (g : RNG D) :
  snd (sample f n o g) = advanced g (draws_of f).
Proof.
  destruct f as [kd | ks]; cbn [sample draws_of isSpecular snd].
  - unfold uniformRandomPSA, rng. cbn [fst snd draws pos].
    destruct (createLocalCoord n) as [[u v] w]. cbn [snd].
    unfold advanced. f_equal. lia.
  - symmetry. apply advanced_0.
Qed.

Lemma directRadiance_draws (obj : Sphere D) (r : Ray D) (n : Vec D) (g : RNG D) :
  snd (directRadiance obj r n g) = advanced g (draws_of (sph_brdf obj)).
Proof.
  unfold directRadiance, draws_of. destruct (isSpecular (sph_brdf obj)); cbn [negb].
  - symmetry. apply advanced_0.
  - unfold luminaireSample, rng. cbn [fst snd draws pos]. unfold advanced. f_equal. lia.
Qed.

Lemma direct_term_draws (h : Hit D) (g : RNG D) :
  snd (direct_term h g) = advanced g (draws_of (sph_brdf (hit_obj h))).
Proof.
  unfold direct_term.
  pose proof (directRadiance_draws (hit_obj h) (mkRay (hit_x h) (hit_o h)) (hit_n h) g) as H.
  unfold draws_of in *. destruct (isSpecular (sph_brdf (hit_obj h))); cbn [negb] in *.
  - symmetry. apply advanced_0.
  - exact H.
Qed.

(** X1.  The estimator and its engine.  A call that returns leaves the
    engine of its thread with the same samples to deliver, [k] places
    further; a miss draws nothing; a call that hits draws at least the
    roulette sample, and at most five samples for each nested call (two for
    the light, one for the roulette, two for the direction of the bounce). *)
Theorem receivedRadiance_draws (fuel : nat) :
  forall r depth flag g v g',
    receivedRadiance fuel r depth flag g = Some (v, g') ->
    exists k, g' = advanced g k /\ (k <= 5 * fuel)%nat /\
              (fst (fst (intersect r 0)) = false -> k = 0) /\
              (fst (fst (intersect r 0)) = true -> 1 <= k).
Proof.
  induction fuel as [| fuel IH]; intros r depth flag g v g' Hrun; [discriminate |].
  cbn [receivedRadiance] in Hrun.
  destruct (intersect r 0) as [[[|] t] id] eqn:Hi; cbn [fst].
  - destruct (direct_term (hit_of r t id) g) as [direct g1] eqn:Hd.
    destruct (rng g1) as [u g2] eqn:Hr.
    rewrite (body_hit _ r depth flag g _ _ _ _ _ _ Hi Hd Hr) in Hrun. cbv zeta in Hrun.
    pose proof (direct_term_draws (hit_of r t id) g) as Hg1. rewrite Hd in Hg1. cbn [snd] in Hg1.
    assert (Hg2 : g2 = advanced g (S (draws_of (sph_brdf (hit_obj (hit_of r t id)))))).
    { replace g2 with (snd (rng g1)) by (rewrite Hr; reflexivity).
      rewrite Hg1. apply advanced_rng. }
    set (f := sph_brdf (hit_obj (hit_of r t id))) in *.
    assert (Hf : draws_of f <= 2) by (unfold draws_of; destruct (isSpecular f); lia).
    destruct (d_lt u (roulette_p depth)).
    + pose proof (sample_draws f (hit_n (hit_of r t id)) (hit_o (hit_of r t id)) g2) as Hg3.
      destruct (sample f _ _ g2) as [[i pdf] g3]. cbn [snd] in Hg3.
      destruct (receivedRadiance fuel _ _ _ g3) as [[rec g4] |] eqn:Hrec; [| discriminate].
      injection Hrun as _ Hg'. destruct (IH _ _ _ _ _ _ Hrec) as (k & Hk & Hle & _).
      exists (S (draws_of f) + draws_of f + k)%nat. subst g' g4 g3 g2.
      rewrite !advanced_add. split; [f_equal; lia |]. split; [lia |]. split; [discriminate | lia].
    + injection Hrun as _ Hg'. exists (S (draws_of f)). subst g' g2.
      split; [reflexivity |]. split; [lia |]. split; [discriminate | lia].
  - rewrite (body_miss _ r depth flag g t id Hi) in Hrun. injection Hrun as _ Hg'.
    exists 0%nat. subst g'. rewrite advanced_0.
    split; [reflexivity |]. split; [lia |]. split; [reflexivity | discriminate].
Qed.

End Engine.

(** ** The closest sphere *)

Section Closest.

Context {D : Type} {DD : Double D}.
Local Open Scope dbl_scope.

(** [Sphere::intersect] returns the 0 of a miss or a distance above 1e-4. *)
Lemma Sphere_intersect_zero_or_beyond (s : Sphere D) (r : Ray D) :
  Sphere_intersect s r = int 0 \/ (lit 1 (-4) <? Sphere_intersect s r) = true.
Proof.
  rewrite Sphere_intersect_cases. cbv zeta.
  set (b := dot _ _). set (det := b * b - _ + _).
  destruct (det <? int 0); [left; reflexivity |].
  destruct (lit 1 (-4) <? b - d_sqrt det) eqn:Hn; [right; exact Hn |].
  destruct (lit 1 (-4) <? b + d_sqrt det) eqn:Hf; [right; exact Hf | left; reflexivity].
Qed.

(** The loop of [intersect] leaves in [t] and [id] either what it found
    there, or the distance to a sphere of the scene and its index. *)
Lemma intersect_loop_found (r : Ray D) :
  forall i t id t' id',
    intersect_loop r i t id = (t', id') ->
    (t' = t /\ id' = id) \/
    ((id' < i)%nat /\ t' = Sphere_intersect (sphere_at id') r /\ d_nonzero t' = true).
Proof.
  induction i as [| i IH]; intros t id t' id' Hl; cbn [intersect_loop] in Hl.
  - left. injection Hl as <- <-. split; reflexivity.
  - destruct (d_nonzero (Sphere_intersect (sphere_at i) r)) eqn:Hnz; cbn [andb] in Hl.
    + destruct (d_lt (Sphere_intersect (sphere_at i) r) t).
      * destruct (IH _ _ _ _ Hl) as [[-> ->] | (Hlt & Ht & Hn)].
        -- right. split; [lia |]. split; [reflexivity | exact Hnz].
        -- right. split; [lia |]. split; assumption.
      * destruct (IH _ _ _ _ Hl) as [[-> ->] | (Hlt & Ht & Hn)].
        -- left. split; reflexivity.
        -- right. split; [lia |]. split; assumption.
    + destruct (IH _ _ _ _ Hl) as [[-> ->] | (Hlt & Ht & Hn)].
      * left. split; reflexivity.
      * right. split; [lia |]. split; assumption.
Qed.

(** With a comparison that is a strict order. *)
Hypothesis d_lt_irrefl : forall a : D, (a <? a) = false.
Hypothesis d_lt_trans : forall a b c : D, (a <? b) = true -> (b <? c) = true -> (a <? c) = true.

Lemma d_lt_asym (a b : D) : (a <? b) = true -> (b <? a) = false.
Proof.
  intros Hab. destruct (b <? a) eqn:Hba; [| reflexivity].
  rewrite <- (d_lt_irrefl a). symmetry. exact (d_lt_trans _ _ _ Hab Hba).
Qed.

Lemma d_lt_below (a b c : D) : (a <? b) = false -> (c <? b) = true -> (a <? c) = false.
Proof.
  intros Hab Hcb. destruct (a <? c) eqn:Hac; [| reflexivity].
  rewrite <- Hab. symmetry. exact (d_lt_trans _ _ _ Hac Hcb).
Qed.

(** The loop never raises [t], and no sphere it went through is hit before
    the distance it leaves in [t]. *)
Lemma intersect_loop_least (r : Ray D) :
  forall i t id t' id',
    intersect_loop r i t id = (t', id') ->
    ((t' <? t) = true \/ (t' = t /\ id' = id)) /\
    forall j, (j < i)%nat ->
      d_nonzero (Sphere_intersect (sphere_at j) r) = true ->
      (Sphere_intersect (sphere_at j) r <? t') = false.
Proof.
  induction i as [| i IH]; intros t id t' id' Hl; cbn [intersect_loop] in Hl.
  - injection Hl as <- <-. split; [right; split; reflexivity | intros j Hj; lia].
  - set (d := Sphere_intersect (sphere_at i) r) in *.
    destruct (d_nonzero d) eqn:Hnz; cbn [andb] in Hl; [destruct (d <? t) eqn:Hlt |].
    + destruct (IH _ _ _ _ Hl) as [Hle Hmin]. split.
      * left. destruct Hle as [Hle | [-> _]]; [exact (d_lt_trans _ _ _ Hle Hlt) | exact Hlt].
      * intros j Hj Hjn. destruct (Nat.eq_dec j i) as [-> | Hne]; [| apply Hmin; [lia | exact Hjn]].
        fold d. destruct Hle as [Hle | [-> _]]; [apply d_lt_asym, Hle | apply d_lt_irrefl].
    + destruct (IH _ _ _ _ Hl) as [Hle Hmin]. split; [exact Hle |].
      intros j Hj Hjn. destruct (Nat.eq_dec j i) as [-> | Hne]; [| apply Hmin; [lia | exact Hjn]].
      fold d. destruct Hle as [Hle | [-> _]]; [exact (d_lt_below _ _ _ Hlt Hle) | exact Hlt].
    + destruct (IH _ _ _ _ Hl) as [Hle Hmin]. split; [exact Hle |].
      intros j Hj Hjn. destruct (Nat.eq_dec j i) as [-> | Hne]; [| apply Hmin; [lia | exact Hjn]].
      fold d in Hjn. congruence.
Qed.

End Closest.

Module OrderB64.
Import B64 B64Facts.
Local Open Scope float_scope.

(** The order of two finite numbers of the same sign: exponents first, then
    mantissas. *)
Lemma finite_compare_lt (e1 e2 : Z) (m1 m2 : positive) :
  match (e1 ?= e2)%Z with Lt => Lt | Gt => Gt | Eq => Pos.compare_cont Eq m1 m2 end = Lt
  <-> (e1 < e2)%Z \/ (e1 = e2 /\ (m1 < m2)%positive).
Proof.
  destruct (Z.compare_spec e1 e2) as [He | He | He].
  - fold (Pos.compare m1 m2). rewrite Pos.compare_lt_iff. split; [intros H; right; auto | intros [H | [_ H]]; [lia | exact H]].
  - split; [intros _; left; exact He | reflexivity].
  - split; [discriminate | intros [H | [H _]]; lia].
Qed.

Lemma finite_compare_gt (e1 e2 : Z) (m1 m2 : positive) :
  match (e1 ?= e2)%Z with Lt => Gt | Gt => Lt | Eq => CompOpp (Pos.compare_cont Eq m1 m2) end = Lt
  <-> (e2 < e1)%Z \/ (e1 = e2 /\ (m2 < m1)%positive).
Proof.
  destruct (Z.compare_spec e1 e2) as [He | He | He].
  - fold (Pos.compare m1 m2). rewrite <- Pos.compare_antisym, Pos.compare_lt_iff.
    split; [intros H; right; auto | intros [H | [_ H]]; [lia | exact H]].
  - split; [discriminate | intros [H | [H _]]; lia].
  - split; [intros _; left; exact He | reflexivity].
Qed.

Lemma SFltb_compare (x y : spec_float) : SFltb x y = true <-> SFcompare x y = Some Lt.
Proof.
  unfold SFltb. destruct (SFcompare x y) as [[| |] |]; split; intros H;
    try reflexivity; discriminate.
Qed.

Lemma SFltb_trans (x y z : spec_float) :
  SFltb x y = true -> SFltb y z = true -> SFltb x z = true.
Proof.
  rewrite !SFltb_compare.
  destruct x as [[|] | [|] | | [|] m1 e1], y as [[|] | [|] | | [|] m2 e2]; cbn [SFcompare];
    try discriminate; intros Hxy;
    destruct z as [[|] | [|] | | [|] m3 e3]; cbn [SFcompare]; try discriminate; intros Hyz;
    try reflexivity;
    try injection Hxy as Hxy; try injection Hyz as Hyz; f_equal;
    rewrite ?finite_compare_lt, ?finite_compare_gt in *; lia.
Qed.

Lemma ltb_trans (x y z : float) : (x <? y) = true -> (y <? z) = true -> (x <? z) = true.
Proof. rewrite !FloatAxioms.ltb_spec. apply SFltb_trans. Qed.

Lemma ltb_irrefl (x : float) : (x <? x) = false.
Proof.
  rewrite FloatAxioms.ltb_spec. unfold SFltb. rewrite SFcompare_refl.
  destruct (sf_is_nan (Prim2SF x)); reflexivity.
Qed.

Lemma SFcompare_antisym (x y : spec_float) :
  SFcompare y x = option_map CompOpp (SFcompare x y).
Proof.
  destruct x as [[|] | [|] | | [|] m1 e1], y as [[|] | [|] | | [|] m2 e2]; cbn [SFcompare option_map CompOpp];
    try reflexivity;
    rewrite (Z.compare_antisym e2 e1); destruct (e2 ?= e1)%Z; cbn [CompOpp];
    rewrite ?(Pos.compare_cont_antisym m1 m2 Eq); reflexivity.
Qed.

Lemma ltb_not_nan (x y : float) : (x <? y) = true -> is_nan x = false /\ is_nan y = false.
Proof.
  rewrite FloatAxioms.ltb_spec, !is_nan_spec, SFltb_compare.
  destruct (Prim2SF x) as [s | s | | s m e], (Prim2SF y) as [s' | s' | | s' m' e'];
    cbn [SFcompare sf_is_nan]; try discriminate; intros _; split; reflexivity.
Qed.

(** Two numbers that are not NaN are comparable. *)
Lemma leb_of_not_ltb (x y : float) :
  is_nan x = false -> is_nan y = false -> (x <? y) = false -> (y <=? x) = true.
Proof.
  rewrite FloatAxioms.ltb_spec, FloatAxioms.leb_spec, !is_nan_spec. unfold SFltb, SFleb.
  rewrite (SFcompare_antisym (Prim2SF x) (Prim2SF y)).
  destruct (Prim2SF x) as [s | s | | s m e], (Prim2SF y) as [s' | s' | | s' m' e'];
    cbn [sf_is_nan]; try discriminate; intros _ _;
    destruct (SFcompare _ _) as [[| |] |] eqn:E; cbn [option_map CompOpp];
    try reflexivity; try discriminate;
    cbn [SFcompare] in E; discriminate E.
Qed.

Lemma ltb_of_leb (x y : float) : (x <=? y) = true -> (y <? x) = false.
Proof.
  rewrite FloatAxioms.ltb_spec, FloatAxioms.leb_spec. unfold SFltb, SFleb.
  rewrite (SFcompare_antisym (Prim2SF x) (Prim2SF y)).
  destruct (SFcompare (Prim2SF x) (Prim2SF y)) as [[| |] |]; cbn [option_map CompOpp];
    try reflexivity; discriminate.
Qed.

Lemma leb_not_nan (x y : float) : (x <=? y) = true -> is_nan x = false /\ is_nan y = false.
Proof.
  rewrite FloatAxioms.leb_spec, !is_nan_spec. unfold SFleb.
  destruct (Prim2SF x) as [s | s | | s m e], (Prim2SF y) as [s' | s' | | s' m' e'];
    cbn [SFcompare sf_is_nan]; try discriminate; intros _; split; reflexivity.
Qed.

End OrderB64.

(** ** Edge cases on binary64 *)

Module EdgeB64.

Import B64 B64Facts OrderB64.
Local Open Scope float_scope.

Section AnyLibm.

Variables cos sin : float -> float.

#[local] Instance F : Double float := binary64 cos sin.

Lemma Sphere_intersect_zero_or_above (s : Sphere float) (r : Ray float) :
  Sphere_intersect s r = 0 \/ (lit 1 (-4) <? Sphere_intersect s r) = true.
Proof. exact (Sphere_intersect_zero_or_beyond s r). Qed.

(** X2.  [Sphere::intersect] on doubles, whatever the sphere and the ray (a
    NaN or an infinity among their components included): the value returned
    is the [+0] of a miss or a distance above 1e-4; never a NaN, never a
    negative number. *)
Theorem Sphere_intersect_no_nan (s : Sphere float) (r : Ray float) :
  let t := Sphere_intersect s r in
  (t = 0 \/ (lit 1 (-4) <? t) = true) /\ is_nan t = false /\ (t <? 0) = false.
Proof.
  intros t.
  destruct (Sphere_intersect_zero_or_above s r) as [H0 | Hb]; fold t in H0 || fold t in Hb.
  - rewrite H0. split; [left; reflexivity | split; reflexivity].
  - split; [right; exact Hb |].
    split; [exact (proj2 (ltb_not_nan _ _ Hb)) |].
    destruct (t <? 0) eqn:Hneg; [| reflexivity].
    pose proof (ltb_trans _ _ _ Hb Hneg) as Habs. vm_compute in Habs. discriminate.
Qed.

(** X3.  [intersect] on doubles.  No sphere of the scene is hit before the
    distance left in [t].  On a hit, [id] is the index of a sphere of the
    scene and [t] the distance [spheres[id].intersect(r)], above 1e-4 and
    below 1e20.  On a miss [t] is 1e20 and [id] is what the caller put
    there. *)
Theorem intersect_closest (r : Ray float) (id0 : nat) (hit : bool) (t : float) (id : nat) :
  intersect r id0 = (hit, t, id) ->
  (forall j, (j < 8)%nat ->
     Sphere_intersect (sphere_at j) r = 0 \/ (Sphere_intersect (sphere_at j) r <? t) = false) /\
  (hit = true ->
     (id < 8)%nat /\ t = Sphere_intersect (sphere_at id) r /\
     (lit 1 (-4) <? t) = true /\ (t <? lit 1 20) = true) /\
  (hit = false -> t = lit 1 20 /\ id = id0).
Proof.
  unfold intersect.
  destruct (intersect_loop r (List.length spheres) (lit 1 20) id0) as [t' id'] eqn:Hl.
  intros Heq. injection Heq as Hhit <- <-.
  destruct (@intersect_loop_least float F ltb_irrefl ltb_trans r _ _ _ _ _ Hl) as [Hle Hmin].
  pose proof (intersect_loop_found r _ _ _ _ _ Hl) as Hfound.
  change (List.length spheres) with 8%nat in *.
  split; [| split].
  - intros j Hj.
    destruct (Sphere_intersect_zero_or_above (sphere_at j) r) as [H0 | Hb]; [left; exact H0 |].
    right. apply Hmin; [exact Hj |].
    cbn [d_nonzero F binary64].
    destruct (Sphere_intersect (sphere_at j) r =? 0) eqn:Hz; [| reflexivity].
    exfalso.
    assert (Hc : (lit 1 (-4) <? Sphere_intersect (sphere_at j) r) = false).
    { revert Hz. rewrite FloatAxioms.ltb_spec, eqb_zero_spec.
      destruct (Prim2SF (Sphere_intersect (sphere_at j) r)) as [[|] | | |]; try discriminate;
        intros _; vm_compute; reflexivity. }
    congruence.
  - intros ->. destruct Hfound as [[-> _] | (Hlt & Ht & Hnz)].
    + cbn [d_lt F binary64] in Hhit. rewrite ltb_irrefl in Hhit. discriminate.
    + split; [exact Hlt |]. split; [exact Ht |]. split; [| exact Hhit].
      destruct (Sphere_intersect_zero_or_above (sphere_at id') r) as [H0 | Hb].
      * rewrite <- Ht in H0. rewrite H0 in Hnz. discriminate.
      * rewrite Ht. exact Hb.
  - intros ->. destruct Hle as [Hle | [-> ->]]; [| split; reflexivity].
    discriminate (eq_trans (eq_sym Hle) Hhit).
Qed.

Lemma clamp_is_nan (x : float) : is_nan (clamp x) = is_nan x.
Proof.
  unfold clamp. cbn [d_lt F binary64].
  change (int 0) with 0. change (int 1) with 1.
  destruct (x <? 0) eqn:H0.
  - rewrite (proj1 (ltb_not_nan _ _ H0)). reflexivity.
  - destruct (1 <? x) eqn:H1; [| reflexivity].
    rewrite (proj2 (ltb_not_nan _ _ H1)). reflexivity.
Qed.

(** X4.  [clamp] on doubles lets a NaN through; any other number is brought
    between 0 and 1, and a number between 0 and 1 is returned as it is. *)
Theorem clamp_double (x : float) :
  is_nan (clamp x) = is_nan x /\
  (is_nan x = false -> (0 <=? clamp x) = true /\ (clamp x <=? 1) = true) /\
  ((0 <=? x) = true -> (x <=? 1) = true -> clamp x = x).
Proof.
  split; [apply clamp_is_nan |].
  unfold clamp. cbn [d_lt F binary64].
  change (int 0) with 0. change (int 1) with 1.
  split.
  - intros Hn. destruct (x <? 0) eqn:H0; [split; reflexivity |].
    destruct (1 <? x) eqn:H1; [split; reflexivity |].
    split; apply leb_of_not_ltb; try assumption; reflexivity.
  - intros H0 H1. rewrite (ltb_of_leb _ _ H0), (ltb_of_leb _ _ H1). reflexivity.
Qed.

(** X5.  [Vec::normalize] on doubles does not guard the null vector: the
    inverse of its length is an infinity and every component of the result
    is a NaN. *)
Theorem normalize_null_vector (v : Vec float) :
  (vx v =? 0) = true -> (vy v =? 0) = true -> (vz v =? 0) = true ->
  is_nan (vx (normalize v)) = true /\ is_nan (vy (normalize v)) = true /\
  is_nan (vz (normalize v)) = true.
Proof.
  destruct v as [x y z]. unfold normalize, vscale.
  cbn [vx vy vz d_mul d_div d_add d_sqrt lit F binary64].
  change (lit64 1 0) with 1.
  rewrite !eqb_zero_spec, !is_nan_spec, !FloatAxioms.mul_spec, !FloatAxioms.div_spec,
    !FloatAxioms.sqrt_spec, !FloatAxioms.add_spec, !FloatAxioms.mul_spec.
  change (Prim2SF 1) with (S754_finite false 4503599627370496 (-52)).
  destruct (Prim2SF x) as [[|] | | |]; try discriminate; intros _;
    destruct (Prim2SF y) as [[|] | | |]; try discriminate; intros _;
    destruct (Prim2SF z) as [[|] | | |]; try discriminate; intros _;
    repeat split.
Qed.

(** X6.  With a sample count of zero or less (an argument below 4) no
    camera ray is traced and no sample drawn: the pixel stays black. *)
Theorem pixel_without_samples (fuel : nat) (samps x y : Z) (g : RNG float) :
  (samps <= 0)%Z -> pixel fuel samps x y Vec0 g = Some (Vec0, g).
Proof.
  intros Hs. unfold pixel, add_subpixel, subpixel.
  replace (Z.to_nat samps) with 0%nat by lia. cbn [subpixel_loop].
  reflexivity.
Qed.

(** *** A ray with a NaN *)

Lemma nan_mul_l (x y : float) : is_nan x = true -> is_nan (x * y) = true.
Proof.
  rewrite !is_nan_spec, FloatAxioms.mul_spec. unfold SF64mul.
  destruct (Prim2SF x) as [s | s | | s m e]; try discriminate. reflexivity.
Qed.

Lemma nan_mul_r (x y : float) : is_nan y = true -> is_nan (x * y) = true.
Proof.
  rewrite !is_nan_spec, FloatAxioms.mul_spec. unfold SF64mul.
  destruct (Prim2SF y) as [s | s | | s m e]; try discriminate.
  destruct (Prim2SF x) as [s | s | | s m e]; reflexivity.
Qed.

Lemma nan_add_l (x y : float) : is_nan x = true -> is_nan (x + y) = true.
Proof.
  rewrite !is_nan_spec, FloatAxioms.add_spec. unfold SF64add.
  destruct (Prim2SF x) as [s | s | | s m e]; try discriminate. reflexivity.
Qed.

Lemma nan_add_r (x y : float) : is_nan y = true -> is_nan (x + y) = true.
Proof.
  rewrite !is_nan_spec, FloatAxioms.add_spec. unfold SF64add.
  destruct (Prim2SF y) as [s | s | | s m e]; try discriminate.
  destruct (Prim2SF x) as [s | s | | s m e]; reflexivity.
Qed.

Lemma nan_sub_l (x y : float) : is_nan x = true -> is_nan (x - y) = true.
Proof.
  rewrite !is_nan_spec, FloatAxioms.sub_spec. unfold SF64sub.
  destruct (Prim2SF x) as [s | s | | s m e]; try discriminate. reflexivity.
Qed.

Lemma nan_sub_r (x y : float) : is_nan y = true -> is_nan (x - y) = true.
Proof.
  rewrite !is_nan_spec, FloatAxioms.sub_spec. unfold SF64sub.
  destruct (Prim2SF y) as [s | s | | s m e]; try discriminate.
  destruct (Prim2SF x) as [s | s | | s m e]; reflexivity.
Qed.

Lemma nan_sqrt (x : float) : is_nan x = true -> is_nan (PrimFloat.sqrt x) = true.
Proof.
  rewrite !is_nan_spec, FloatAxioms.sqrt_spec. unfold SF64sqrt.
  destruct (Prim2SF x) as [s | s | | s m e]; try discriminate. reflexivity.
Qed.

Lemma nan_ltb (x y : float) : is_nan x = true \/ is_nan y = true -> (x <? y) = false.
Proof.
  intros H. destruct (x <? y) eqn:E; [| reflexivity].
  destruct (ltb_not_nan _ _ E) as [Hx Hy]. destruct H; congruence.
Qed.

(** Some component is a NaN. *)
Definition v_has_nan (v : Vec float) : bool :=
  is_nan (vx v) || is_nan (vy v) || is_nan (vz v).

Lemma dot_nan_r (a b : Vec float) : v_has_nan b = true -> is_nan (dot a b) = true.
Proof.
  unfold v_has_nan, dot. cbn [d_add d_mul F binary64]. intros H.
  apply Bool.orb_true_iff in H. destruct H as [H | H]; [apply Bool.orb_true_iff in H; destruct H as [H | H] |].
  - apply nan_add_l, nan_add_l, nan_mul_r, H.
  - apply nan_add_l, nan_add_r, nan_mul_r, H.
  - apply nan_add_r, nan_mul_r, H.
Qed.

Lemma dot_nan_l (a b : Vec float) : v_has_nan a = true -> is_nan (dot a b) = true.
Proof.
  unfold v_has_nan, dot. cbn [d_add d_mul F binary64]. intros H.
  apply Bool.orb_true_iff in H. destruct H as [H | H]; [apply Bool.orb_true_iff in H; destruct H as [H | H] |].
  - apply nan_add_l, nan_add_l, nan_mul_l, H.
  - apply nan_add_l, nan_add_r, nan_mul_l, H.
  - apply nan_add_r, nan_mul_l, H.
Qed.

Lemma vsub_nan_r (a b : Vec float) : v_has_nan b = true -> v_has_nan (vsub a b) = true.
Proof.
  unfold v_has_nan, vsub. cbn [vx vy vz d_sub F binary64]. intros H.
  apply Bool.orb_true_iff in H. destruct H as [H | H]; [apply Bool.orb_true_iff in H; destruct H as [H | H] |].
  - rewrite (nan_sub_r _ _ H). reflexivity.
  - rewrite (nan_sub_r _ _ H). apply Bool.orb_true_iff. left. apply Bool.orb_true_r.
  - rewrite (nan_sub_r _ _ H). apply Bool.orb_true_r.
Qed.

Lemma Sphere_intersect_nan (s : Sphere float) (r : Ray float) :
  v_has_nan (ray_o r) = true \/ v_has_nan (ray_d r) = true ->
  Sphere_intersect s r = 0.
Proof.
  intros H. rewrite Sphere_intersect_cases. cbv zeta.
  set (op := vsub (sph_p s) (ray_o r)). set (b := dot op (ray_d r)).
  assert (Hb : is_nan b = true).
  { destruct H as [H | H]; [apply dot_nan_l, vsub_nan_r, H | apply dot_nan_r, H]. }
  set (det := (b * b - dot op op + sph_rad s * sph_rad s)%dbl).
  assert (Hdet : is_nan det = true).
  { unfold det. cbn [d_add d_sub d_mul F binary64].
    apply nan_add_l, nan_sub_l, nan_mul_l, Hb. }
  cbn [d_lt d_sub d_add d_sqrt F binary64].
  rewrite (nan_ltb det _ (or_introl Hdet)).
  rewrite (nan_ltb _ (b - PrimFloat.sqrt det) (or_intror (nan_sub_l _ _ Hb))).
  rewrite (nan_ltb _ (b + PrimFloat.sqrt det) (or_intror (nan_add_l _ _ Hb))).
  reflexivity.
Qed.

Lemma nan_ray_intersect (r : Ray float) :
  v_has_nan (ray_o r) = true \/ v_has_nan (ray_d r) = true ->
  forall id0, intersect r id0 = (false, lit 1 20, id0).
Proof.
  intros H id0. unfold intersect.
  assert (Hl : forall i t id, intersect_loop r i t id = (t, id)).
  { induction i as [| i IH]; intros t id; cbn [intersect_loop]; [reflexivity |].
    rewrite (Sphere_intersect_nan _ r H). cbn [d_nonzero d_lt F binary64 andb]. apply IH. }
  rewrite Hl. reflexivity.
Qed.

(** X7.  A ray with a NaN among the components of its origin or of its
    direction hits no sphere: [intersect] returns false and leaves 1e20 in
    [t], and the estimator returns black without drawing a sample. *)
Theorem nan_ray_misses (self : Estimator float) (r : Ray float) :
  v_has_nan (ray_o r) = true \/ v_has_nan (ray_d r) = true ->
  (forall s, Sphere_intersect s r = 0) /\
  (forall id0, intersect r id0 = (false, lit 1 20, id0)) /\
  (forall depth flag g, receivedRadiance_body self r depth flag g = Some (Vec0, g)).
Proof.
  intros H.
  split; [intros s; apply Sphere_intersect_nan, H |].
  split; [apply nan_ray_intersect, H |].
  intros depth flag g.
  exact (body_miss self r depth flag g _ _ (nan_ray_intersect r H 0%nat)).
Qed.

(** *** A point and itself *)

Definition sf_zero_or_nan_b (x : float) : bool := (x =? 0) || is_nan x.

Lemma sub_self (x : float) : sf_zero_or_nan_b (x - x) = true.
Proof.
  unfold sf_zero_or_nan_b. rewrite eqb_zero_spec, is_nan_spec, FloatAxioms.sub_spec.
  unfold SF64sub.
  destruct (Prim2SF x) as [[|] | [|] | | s m e]; try reflexivity.
  unfold SFsub. rewrite Z.sub_diag. reflexivity.
Qed.

(** [Vec::normalize] of a vector whose components are zeros or NaNs. *)
Lemma normalize_degenerate (v : Vec float) :
  sf_zero_or_nan_b (vx v) = true -> sf_zero_or_nan_b (vy v) = true ->
  sf_zero_or_nan_b (vz v) = true ->
  is_nan (vx (normalize v)) = true /\ is_nan (vy (normalize v)) = true /\
  is_nan (vz (normalize v)) = true.
Proof.
  destruct v as [x y z]. unfold normalize, vscale, sf_zero_or_nan_b.
  cbn [vx vy vz d_mul d_div d_add d_sqrt lit F binary64].
  change (lit64 1 0) with 1.
  rewrite !eqb_zero_spec, !is_nan_spec, !FloatAxioms.mul_spec, !FloatAxioms.div_spec,
    !FloatAxioms.sqrt_spec, !FloatAxioms.add_spec, !FloatAxioms.mul_spec.
  change (Prim2SF 1) with (S754_finite false 4503599627370496 (-52)).
  destruct (Prim2SF x) as [[|] | | |]; try discriminate; intros _;
    destruct (Prim2SF y) as [[|] | | |]; try discriminate; intros _;
    destruct (Prim2SF z) as [[|] | | |]; try discriminate; intros _;
    repeat split.
Qed.

(** X8.  [isVisibile(x, x)] on doubles: the direction from a point to itself
    is the null vector normalized, a NaN in every component; the ray hits
    nothing, the point computed at the distance 1e20 is a NaN, which no
    tolerance test accepts, and the value returned is 0.0: a point does not
    see itself. *)
Theorem isVisibile_same_point (x : Vec float) : isVisibile x x = 0.
Proof.
  unfold isVisibile.
  set (d := normalize (vsub x x)).
  assert (Hd : is_nan (vx d) = true /\ is_nan (vy d) = true /\ is_nan (vz d) = true).
  { apply normalize_degenerate; unfold vsub; cbn [vx vy vz d_sub F binary64]; apply sub_self. }
  destruct Hd as (Hx & Hy & Hz).
  assert (Hn : v_has_nan (ray_d (mkRay x d)) = true).
  { unfold v_has_nan. cbn [ray_d]. rewrite Hx. reflexivity. }
  rewrite (nan_ray_intersect (mkRay x d) (or_intror Hn) 0%nat). cbn [ray_o ray_d].
  unfold within_tol, vadd, vscale. cbn [vx vy vz d_le d_abs d_sub d_add d_mul F binary64].
  assert (Hle : (abs (vx x + vx d * lit 1 20 - vx x) <=? lit 1 (-4)) = false).
  { destruct (abs _ <=? _) eqn:E; [| reflexivity].
    destruct (leb_not_nan _ _ E) as [Ha _].
    assert (Hnan : is_nan (abs (vx x + vx d * lit 1 20 - vx x)) = true).
    { rewrite is_nan_spec, FloatAxioms.abs_spec.
      pose proof (nan_sub_l _ (vx x) (nan_add_r (vx x) _ (nan_mul_l _ (lit 1 20) Hx))) as H.
      rewrite is_nan_spec in H. destruct (Prim2SF _); try discriminate. reflexivity. }
    congruence. }
  rewrite Hle. reflexivity.
Qed.

(** *** A NaN in the image *)

(** Where [v] has a NaN, [w] has one. *)
Definition nan_kept (v w : Vec float) : Prop :=
  (is_nan (vx v) = true -> is_nan (vx w) = true) /\
  (is_nan (vy v) = true -> is_nan (vy w) = true) /\
  (is_nan (vz v) = true -> is_nan (vz w) = true).

Lemma nan_kept_trans (u v w : Vec float) : nan_kept u v -> nan_kept v w -> nan_kept u w.
Proof. unfold nan_kept. intros (H1 & H2 & H3) (K1 & K2 & K3). auto. Qed.

Lemma clamp_nan (x : float) : is_nan x = true -> is_nan (clamp x) = true.
Proof. intros H. rewrite clamp_is_nan. exact H. Qed.

Lemma subpixel_loop_nan (fuel : nat) (inv : float) (x y sx sy : Z) :
  forall n r g r' g',
    subpixel_loop fuel inv n x y sx sy r g = Some (r', g') -> nan_kept r r'.
Proof.
  induction n as [| n IH]; intros r g r' g' H; cbn [subpixel_loop] in H.
  - injection H as <- _. unfold nan_kept. auto.
  - destruct (primarySample fuel x y sx sy g) as [[rad g1] |]; [| discriminate].
    apply (nan_kept_trans r (vadd r (vscale rad inv)) r'); [| exact (IH _ _ _ _ H)].
    unfold nan_kept, vadd. cbn [vx vy vz d_add F binary64].
    repeat split; intros Hn; apply nan_add_l, Hn.
Qed.

Lemma add_subpixel_nan (fuel : nat) (samps x y sx sy : Z) (c c' : Vec float) (g g' : RNG float) :
  add_subpixel fuel samps x y sx sy c g = Some (c', g') ->
  nan_kept c c' /\
  exists r, subpixel fuel samps x y sx sy g = Some (r, g') /\ nan_kept r c'.
Proof.
  unfold add_subpixel.
  destruct (subpixel fuel samps x y sx sy g) as [[r g1] |]; [| discriminate].
  intros H. injection H as <- <-. split.
  - unfold nan_kept, vadd. cbn [vx vy vz d_add F binary64].
    repeat split; intros Hn; apply nan_add_l, Hn.
  - exists r. split; [reflexivity |].
    unfold nan_kept, vadd, vscale, clamped. cbn [vx vy vz d_add d_mul F binary64].
    repeat split; intros Hn; apply nan_add_r, nan_mul_l, clamp_nan, Hn.
Qed.

(** X9.  A NaN stays in the image.  In the loop over the samples of a
    sub-pixel a component of the sum that is a NaN remains one; [clamp] lets
    it through, so that the value of a sub-pixel with a NaN in a component
    puts a NaN in that component of the pixel, where it remains whatever
    the other sub-pixels add. *)
Theorem pixel_keeps_nan (fuel : nat) (samps x y : Z) :
  (forall inv n sx sy r g r' g',
     subpixel_loop fuel inv n x y sx sy r g = Some (r', g') -> nan_kept r r') /\
  (forall sx sy c g c' g',
     add_subpixel fuel samps x y sx sy c g = Some (c', g') ->
     nan_kept c c' /\
     exists r, subpixel fuel samps x y sx sy g = Some (r, g') /\ nan_kept r c') /\
  (forall c g c' g', pixel fuel samps x y c g = Some (c', g') -> nan_kept c c').
Proof.
  split; [intros inv n sx sy; apply subpixel_loop_nan |].
  split; [intros sx sy c g c' g'; apply add_subpixel_nan |].
  intros c g c' g'. unfold pixel.
  destruct (add_subpixel fuel samps x y 0 0 c g) as [[c1 g1] |] eqn:H1; [| discriminate].
  destruct (add_subpixel fuel samps x y 1 0 c1 g1) as [[c2 g2] |] eqn:H2; [| discriminate].
  destruct (add_subpixel fuel samps x y 0 1 c2 g2) as [[c3 g3] |] eqn:H3; [| discriminate].
  intros H4.
  apply add_subpixel_nan in H1, H2, H3, H4.
  destruct H1 as [H1 _], H2 as [H2 _], H3 as [H3 _], H4 as [H4 _].
  exact (nan_kept_trans _ _ _ H1 (nan_kept_trans _ _ _ H2 (nan_kept_trans _ _ _ H3 H4))).
Qed.

End AnyLibm.

End EdgeB64.

(** ** More runs of the compiled program *)

Module EdgeRuns.

Import B64 B64Facts OrderB64 EdgeB64 Runs.
Local Open Scope float_scope.

#[local] Existing Instance libm64.

Lemma receivedRadiance_draws_witness :
  exists v g',
    receivedRadiance 1 ray_inside 5%Z true one_call = Some (v, g') /\
    exists k, g' = advanced one_call k /\ (k <= 5 * 1)%nat /\
              (fst (fst (intersect ray_inside 0)) = false -> k = 0%nat) /\
              (fst (fst (intersect ray_inside 0)) = true -> (1 <= k)%nat).
Proof.
  pose proof (@receivedRadiance_draws float libm64 1 ray_inside 5%Z true one_call) as H.
  destruct (receivedRadiance 1 ray_inside 5%Z true one_call) as [[v g'] |] eqn:E.
  - exists v, g'. split; [reflexivity | exact (H v g' eq_refl)].
  - vm_compute in E. discriminate.
Defined.

Lemma intersect_closest_witness :
  (forall j, (j < 8)%nat ->
     Sphere_intersect (sphere_at j) ray_down = 0 \/
     (Sphere_intersect (sphere_at j) ray_down <? 17) = false) /\
  (true = true ->
     (5 < 8)%nat /\ 17 = Sphere_intersect (sphere_at 5) ray_down /\
     (lit 1 (-4) <? 17) = true /\ (17 <? lit 1 20) = true) /\
  (true = false -> 17 = lit 1 20 /\ 5%nat = 0%nat).
Proof.
  exact (intersect_closest cos64 sin64 ray_down 0 true 17 5 ray_down_hit).
Defined.

Lemma clamp_double_witness :
  is_nan (clamp nan) = true /\ clamp 0.5 = 0.5 /\ (clamp 7 <=? 1) = true.
Proof.
  destruct (clamp_double cos64 sin64 nan) as (Hn & _ & _).
  destruct (clamp_double cos64 sin64 0.5) as (_ & _ & Hid).
  destruct (clamp_double cos64 sin64 7) as (_ & Hr & _).
  split; [exact (eq_trans Hn eq_refl) |].
  split; [exact (Hid eq_refl eq_refl) | exact (proj2 (Hr eq_refl))].
Defined.

Lemma normalize_null_vector_witness :
  is_nan (vx (normalize (vec 0 0 0))) = true /\ is_nan (vy (normalize (vec 0 0 0))) = true /\
  is_nan (vz (normalize (vec 0 0 0))) = true.
Proof.
  exact (normalize_null_vector cos64 sin64 (vec 0 0 0) eq_refl eq_refl eq_refl).
Defined.

Lemma pixel_without_samples_witness :
  samps ["simplept"%string; "3"%string] = Some 0%Z /\
  pixel 0 0 10%Z 20%Z Vec0 one_call = Some (Vec0, one_call).
Proof.
  split; [reflexivity |].
  apply (pixel_without_samples cos64 sin64). vm_compute. discriminate.
Defined.

(** The ray that leaves a point toward itself: its direction is the null
    vector normalized. *)
Definition ray_nowhere : Ray float := mkRay (vec 27 33 47) (normalize (vsub (vec 27 33 47) (vec 27 33 47))).

Lemma nan_ray_misses_witness :
  v_has_nan (ray_d ray_nowhere) = true /\
  intersect ray_nowhere 0 = (false, lit 1 20, 0%nat) /\
  receivedRadiance 1 ray_nowhere 1%Z true one_call = Some (Vec0, one_call).
Proof.
  assert (Hn : v_has_nan (ray_d ray_nowhere) = true) by (vm_compute; reflexivity).
  destruct (nan_ray_misses cos64 sin64 (receivedRadiance 0) ray_nowhere (or_intror Hn))
    as (_ & Hi & Hb).
  split; [exact Hn |]. split; [apply Hi | apply Hb].
Defined.

(** A pixel with a NaN in every component, and a round without samples. *)
Lemma pixel_keeps_nan_witness :
  exists c' g',
    pixel 0 0 10%Z 20%Z (vec nan nan nan) one_call = Some (c', g') /\
    is_nan (vx c') = true /\ is_nan (vy c') = true /\ is_nan (vz c') = true.
Proof.
  destruct (pixel_keeps_nan cos64 sin64 0 0 10%Z 20%Z) as (_ & _ & H).
  destruct (pixel 0 0 10%Z 20%Z (vec nan nan nan) one_call) as [[c' g'] |] eqn:E.
  - exists c', g'. split; [reflexivity |].
    destruct (H _ _ _ _ E) as (Hx & Hy & Hz).
    split; [apply Hx; reflexivity |]. split; [apply Hy; reflexivity | apply Hz; reflexivity].
  - vm_compute in E. discriminate.
Defined.

End EdgeRuns.

(** ** Geometry, sampling and the image on exact reals *)

Module Geometry.

Import Exact OnReals.

#[local] Existing Instance exactR.

Local Open Scope R_scope.

(** *** [struct Vec] *)

Lemma dot_sym (a b : Vec R) : dot a b = dot b a.
Proof. destruct a, b. to_R. ring. Qed.

Lemma dot_vscale_l (a b : Vec R) (k : R) : dot (vscale a k) b = k * dot a b.
Proof. destruct a, b. to_R. ring. Qed.

Lemma dot_vscale_r (a b : Vec R) (k : R) : dot a (vscale b k) = k * dot a b.
Proof. destruct a, b. to_R. ring. Qed.

Lemma dot_vadd_l (a b c : Vec R) : dot (vadd a b) c = dot a c + dot b c.
Proof. destruct a, b, c. to_R. ring. Qed.

Lemma dot_vadd_r (a b c : Vec R) : dot a (vadd b c) = dot a b + dot a c.
Proof. destruct a, b, c. to_R. ring. Qed.

Lemma cross_dot_l (a b : Vec R) : dot (cross a b) a = 0.
Proof. destruct a, b. unfold cross. to_R. ring. Qed.

Lemma cross_dot_r (a b : Vec R) : dot (cross a b) b = 0.
Proof. destruct a, b. unfold cross. to_R. ring. Qed.

Lemma cross_square (a b : Vec R) :
  dot (cross a b) (cross a b) = dot a a * dot b b - dot a b * dot a b.
Proof. destruct a, b. unfold cross. to_R. ring. Qed.

Lemma cross_cross (u n : Vec R) :
  cross u (cross n u) = vsub (vscale n (dot u u)) (vscale u (dot u n)).
Proof. destruct u, n. unfold cross, vsub, vscale. to_R. f_equal; ring. Qed.

Lemma dot_self_zero (v : Vec R) : dot v v = 0 -> v = mkVec 0 0 0.
Proof.
  destruct v as [x y z]. to_R. intros H.
  pose proof (Rle_0_sqr x) as Hx. pose proof (Rle_0_sqr y) as Hy. pose proof (Rle_0_sqr z) as Hz.
  unfold Rsqr in *.
  assert (x * x = 0) by lra. assert (y * y = 0) by lra. assert (z * z = 0) by lra.
  f_equal; apply Rsqr_0_uniq; assumption.
Qed.

(** X10.  [Vec::cross]: the product is orthogonal to both vectors, changes sign
    when they are exchanged, and its squared length is
    [|a|^2 |b|^2 - (a.b)^2]. *)
Theorem cross_orthogonal (a b : Vec R) :
  dot (cross a b) a = 0 /\ dot (cross a b) b = 0 /\
  cross b a = vscale (cross a b) (-1) /\
  dot (cross a b) (cross a b) = dot a a * dot b b - dot a b * dot a b.
Proof.
  split; [apply cross_dot_l |]. split; [apply cross_dot_r |].
  split; [| apply cross_square].
  destruct a, b. unfold cross, vscale. to_R. f_equal; ring.
Qed.

(** X11.  [Vec::normalize] of a vector that is not null: the result has length 1,
    is the vector divided by its length, and normalizing it again changes
    nothing. *)
Theorem normalize_unit_length (v : Vec R) :
  0 < dot v v ->
  dot (normalize v) (normalize v) = 1 /\
  normalize v = vscale v (/ sqrt (dot v v)) /\
  0 < / sqrt (dot v v) /\
  normalize (normalize v) = normalize v.
Proof.
  intros Hv. split; [apply normalize_unit, Hv |].
  split; [rewrite normalize_scale; f_equal; lra |].
  split; [apply Rinv_0_lt_compat, sqrt_lt_R0, Hv | apply normalize_idem, Hv].
Qed.

Lemma normalize_unit_length_witness :
  let v : Vec R := mkVec 3 0 4 in
  dot (normalize v) (normalize v) = 1 /\ normalize (normalize v) = normalize v.
Proof.
  intros v.
  assert (Hv : 0 < dot v v) by (unfold v; to_R; lra).
  destruct (normalize_unit_length v Hv) as (H1 & _ & _ & H2).
  split; [exact H1 | exact H2].
Defined.

(** *** [createLocalCoord] *)

Lemma axis_cross_not_null (w : Vec R) :
  dot w w = 1 ->
  let a := if d_lt (lit 1 (-1)) (d_abs (vx w))
           then mkVec (int 0) (int 1) (int 0) else mkVec (int 1) (int 0) (int 0) in
  0 < dot (cross a w) (cross a w).
Proof.
  intros Hw a. rewrite cross_square, Hw. subst a.
  assert (Hl : litR 1 (-1) = / 10) by (unfold litR, powerRZ; simpl; lra).
  destruct w as [x y z]. to_R. rewrite !litR_int, Hl in *.
  pose proof (Rle_0_sqr y) as Hy. pose proof (Rle_0_sqr z) as Hz. unfold Rsqr in *.
  destruct (Rltb (/ 10) (Rabs x)) eqn:Hx; to_R.
  - apply Rltb_true in Hx.
    assert (0 < x * x).
    { destruct (Rcase_abs x) as [Hn | Hp].
      - rewrite (Rabs_left x Hn) in Hx. nra.
      - rewrite (Rabs_right x Hp) in Hx. nra. }
    nra.
  - apply Rltb_false in Hx.
    assert (x * x <= / 100).
    { destruct (Rcase_abs x) as [Hn | Hp].
      - rewrite (Rabs_left x Hn) in Hx. nra.
      - rewrite (Rabs_right x Hp) in Hx. nra. }
    nra.
Qed.

Lemma local_frame (n : Vec R) :
  dot n n = 1 ->
  let '(u, v, w) := createLocalCoord n in
  w = n /\
  dot u u = 1 /\ dot v v = 1 /\
  dot u v = 0 /\ dot u w = 0 /\ dot v w = 0 /\
  cross u v = w.
Proof.
  intros Hn. unfold createLocalCoord.
  set (a := if d_lt (lit 1 (-1)) (d_abs (vx n)) then _ else _).
  pose proof (axis_cross_not_null n Hn) as Hc. cbv zeta in Hc. fold a in Hc.
  set (c := cross a n) in *.
  assert (Hu : dot (normalize c) (normalize c) = 1) by (apply normalize_unit, Hc).
  assert (Hun : dot (normalize c) n = 0).
  { rewrite normalize_scale, dot_vscale_l. unfold c. rewrite cross_dot_r. ring. }
  set (u := normalize c) in *.
  split; [reflexivity |]. split; [exact Hu |].
  split; [rewrite cross_square, Hn, Hu, (dot_sym n u), Hun; ring |].
  split; [rewrite dot_sym; apply cross_dot_r |].
  split; [exact Hun |].
  split; [apply cross_dot_l |].
  rewrite cross_cross, Hu, Hun. destruct n as [nx ny nz], u as [ux uy uz].
  unfold vsub, vscale. to_R. f_equal; ring.
Qed.

(** X12.  For a normal [n] of length 1, [createLocalCoord] returns an
    orthonormal frame [(u, v, w)] with [w = n]: three vectors of length 1,
    orthogonal to one another, and [u x v = w]. *)
Theorem createLocalCoord_orthonormal (n : Vec R) :
  dot n n = 1 ->
  let '(u, v, w) := createLocalCoord n in
  w = n /\
  dot u u = 1 /\ dot v v = 1 /\
  dot u v = 0 /\ dot u w = 0 /\ dot v w = 0 /\
  cross u v = w.
Proof. exact (local_frame n). Qed.

Lemma createLocalCoord_orthonormal_witness :
  let '(u, v, w) := createLocalCoord z_axis in
  w = z_axis /\
  dot u u = 1 /\ dot v v = 1 /\
  dot u v = 0 /\ dot u w = 0 /\ dot v w = 0 /\
  cross u v = w.
Proof.
  assert (Hn : dot z_axis z_axis = 1) by (unfold z_axis; to_R; ring).
  exact (createLocalCoord_orthonormal z_axis Hn).
Defined.

(** *** [uniformRandomPSA] *)

Lemma frame_combination (u v w : Vec R) (x y z : R) :
  dot u u = 1 -> dot v v = 1 -> dot w w = 1 ->
  dot u v = 0 -> dot u w = 0 -> dot v w = 0 ->
  let i := vadd (vadd (vscale u x) (vscale v y)) (vscale w z) in
  dot i i = x * x + y * y + z * z /\ dot w i = z.
Proof.
  intros Hu Hv Hw Huv Huw Hvw i. subst i.
  repeat rewrite ?dot_vadd_l, ?dot_vadd_r, ?dot_vscale_l, ?dot_vscale_r.
  rewrite (dot_sym v u), (dot_sym w u), (dot_sym w v), Hu, Hv, Hw, Huv, Huw, Hvw.
  split; ring.
Qed.

(** X13.  For a normal [n] of length 1 and a first sample [xi1] between 0 and 1,
    [uniformRandomPSA] draws two samples and returns a direction of length 1
    in the hemisphere of [n], with [n.i = sqrt(xi1)], and the density
    [sqrt(xi1) / PI] of the cosine-weighted distribution. *)
Theorem uniformRandomPSA_hemisphere (n o : Vec R) (g : RNG R) :
  dot n n = 1 ->
  0 <= draws g (pos g) <= 1 ->
  let i := fst (fst (uniformRandomPSA n o g)) in
  let pdf := snd (fst (uniformRandomPSA n o g)) in
  dot i i = 1 /\
  dot n i = sqrt (draws g (pos g)) /\
  0 <= dot n i <= 1 /\
  pdf = sqrt (draws g (pos g)) / Rtrigo1.PI /\
  snd (uniformRandomPSA n o g) = mkRNG (draws g) (S (S (pos g))).
Proof.
  intros Hn Hxi.
  pose proof (local_frame n Hn) as Hframe.
  unfold uniformRandomPSA, rng. cbn [fst snd draws pos].
  destruct (createLocalCoord n) as [[u v] w].
  destruct Hframe as (Hw & Hu & Hv & Huv & Huw & Hvw & _).
  cbn [fst snd]. cbn [d_sqrt d_mul d_sub d_cos d_sin d_div lit PI exactR]. rewrite !litR_int.
  set (xi := draws g (pos g)) in *.
  set (z := sqrt xi).
  set (q := sqrt (1 - z * z)).
  set (c := cos _). set (s := sin _).
  assert (Hz : z * z = xi) by (apply sqrt_sqrt; lra).
  assert (Hq : q * q = 1 - z * z) by (apply sqrt_sqrt; lra).
  assert (Hcs : s * s + c * c = 1) by apply sin_cos_square.
  assert (Hww : dot w w = 1) by (rewrite Hw; exact Hn).
  destruct (frame_combination u v w (q * c) (q * s) z Hu Hv Hww Huv Huw Hvw) as [Hii Hwi].
  cbv zeta in Hii, Hwi.
  set (i0 := vadd (vadd (vscale u (q * c)) (vscale v (q * s))) (vscale w z)) in *.
  assert (Hunit : dot i0 i0 = 1).
  { rewrite Hii. replace (q * c * (q * c) + q * s * (q * s)) with ((q * q) * (s * s + c * c)) by ring.
    rewrite Hq, Hcs. ring. }
  rewrite (normalize_of_unit i0 Hunit). rewrite <- Hw, Hwi.
  assert (H01 : 0 <= z <= 1).
  { split; [apply sqrt_pos |]. rewrite <- sqrt_1. apply sqrt_le_1_alt. lra. }
  repeat split; try reflexivity; try lra; exact Hunit.
Qed.

Lemma uniformRandomPSA_hemisphere_witness :
  let i := fst (fst (uniformRandomPSA z_axis z_axis bounce_engine)) in
  dot i i = 1 /\ dot z_axis i = sqrt (/ 4) /\
  snd (fst (uniformRandomPSA z_axis z_axis bounce_engine)) = sqrt (/ 4) / Rtrigo1.PI.
Proof.
  assert (Hn : dot z_axis z_axis = 1) by (unfold z_axis; to_R; ring).
  assert (Hxi : 0 <= draws bounce_engine (pos bounce_engine) <= 1) by (cbn; lra).
  destruct (uniformRandomPSA_hemisphere z_axis z_axis bounce_engine Hn Hxi)
    as (H1 & H2 & _ & H3 & _).
  split; [exact H1 |]. split; [exact H2 | exact H3].
Defined.

(** *** The mirror *)

(** X14.  Reflecting twice about a normal of length 1 gives the direction back.
    For directions [n], [o] of length 1 that are not orthogonal, the direction
    [SpecularBRDF::sample] returns passes the tolerance test of
    [SpecularBRDF::eval]: the value is [ks / (n.o)], the weight
    [eval * (n.dot(i) / pdf)] of the bounce is [ks], and the indirect term is
    the recursive result multiplied component-wise by [ks] and scaled by
    [1 / p]. *)
Theorem mirror_bounce (ks n o : Vec R) (g : RNG R) :
  dot n n = 1 -> dot o o = 1 -> dot n o <> 0 ->
  let i := fst (fst (sample (SpecularBRDF ks) n o g)) in
  let pdf := snd (fst (sample (SpecularBRDF ks) n o g)) in
  mirroredDirection n i = o /\
  normalize i = i /\
  eval (SpecularBRDF ks) n o (normalize i) = vscale ks (1 / dot n o) /\
  vscale (eval (SpecularBRDF ks) n o (normalize i)) (dot n (normalize i) / pdf) = ks /\
  (forall (depth : Z) (rec : Vec R),
     indirect (SpecularBRDF ks) n o (normalize i) pdf (roulette_p depth) rec
     = vscale (mult rec ks) (1 / roulette_p depth)) /\
  snd (sample (SpecularBRDF ks) n o g) = g.
Proof.
  intros Hn Ho Hno. cbn [sample fst snd].
  destruct (mirroredDirection_reflects n o Hn) as [Hdot Hlen].
  set (i := mirroredDirection n o) in *.
  assert (Hi1 : dot i i = 1) by (rewrite Hlen; exact Ho).
  assert (Hidem : normalize i = i) by (apply normalize_of_unit, Hi1).
  assert (Hback : mirroredDirection n i = o).
  { rewrite mirroredDirection_R, Hdot. unfold i. rewrite mirroredDirection_R.
    destruct n as [nx ny nz], o as [ox oy oz]. unfold vsub, vscale. to_R. f_equal; ring. }
  assert (Heval : eval (SpecularBRDF ks) n o i = vscale ks (1 / dot n o)).
  { cbn [eval]. fold i. 
    assert (Htol : within_tol (normalize i) (normalize i) = true).
    { unfold within_tol. to_R. rewrite !Rminus_diag, Rabs_R0, litR_eps.
      assert (Hle : Rleb 0 (/ 10000) = true) by (unfold Rleb; destruct (Rle_dec 0 (/ 10000)); [reflexivity | lra]).
      rewrite Hle. reflexivity. }
    rewrite Htol, Hdot. to_R. rewrite litR_int. reflexivity. }
  rewrite Hidem.
  split; [exact Hback |]. split; [reflexivity |]. split; [exact Heval |].
  split.
  - rewrite Heval, Hdot. destruct ks as [kx ky kz]. unfold vscale. to_R. rewrite litR_int.
    f_equal; field; exact Hno.
  - split; [| reflexivity]. intros depth rec. unfold indirect. rewrite Heval, Hdot.
    destruct ks as [kx ky kz], rec as [rx ry rz]. unfold vscale, mult. to_R. rewrite litR_int.
    destruct (roulette_p_R depth) as [-> | ->]; f_equal; field; exact Hno.
Qed.

Lemma mirror_bounce_witness :
  let n : Vec R := mkVec 0 0 1 in
  let o : Vec R := mkVec (3 / 5) 0 (4 / 5) in
  let ks : Vec R := mkVec (1 / 2) (1 / 2) (1 / 2) in
  mirroredDirection n (mirroredDirection n o) = o /\
  vscale (eval (SpecularBRDF ks) n o (normalize (mirroredDirection n o)))
         (dot n (normalize (mirroredDirection n o)) / 1) = ks.
Proof.
  intros n o ks.
  assert (Hn : dot n n = 1) by (unfold n; to_R; ring).
  assert (Ho : dot o o = 1) by (unfold o; to_R; field).
  assert (Hno : dot n o <> 0) by (unfold n, o; to_R; lra).
  destruct (mirror_bounce ks n o half_engine Hn Ho Hno) as (H1 & _ & _ & H2 & _).
  cbn [sample fst snd] in H1, H2. to_R. rewrite litR_int in H2.
  split; [exact H1 | exact H2].
Defined.

(** *** The point hit *)

Lemma hit_point_on_sphere (s : Sphere R) (r : Ray R) :
  dot (ray_d r) (ray_d r) = 1 ->
  Sphere_intersect s r <> 0 ->
  let t := Sphere_intersect s r in
  let x := vadd (ray_o r) (vscale (ray_d r) t) in
  / 10000 < t /\
  dot (vsub x (sph_p s)) (vsub x (sph_p s)) = sph_rad s * sph_rad s.
Proof.
  intros Hd Hhit t x.
  assert (Hq : / 10000 < t /\ quadratic s r t = 0).
  { unfold t in *. rewrite Sphere_intersect_R in *. cbv zeta in *.
    set (b := dot (vsub (sph_p s) (ray_o r)) (ray_d r)) in *. set (det := discriminant s r) in *.
    destruct (Rlt_dec det 0) as [Hneg | Hpos]; [contradiction Hhit; reflexivity |].
    destruct (quadratic_at_roots s r ltac:(fold det; lra)) as [Hnear Hfar].
    fold b det in Hnear, Hfar.
    destruct (Rlt_dec (/ 10000) (b - sqrt det)) as [Hn | Hn]; [split; assumption |].
    destruct (Rlt_dec (/ 10000) (b + sqrt det)) as [Hf | Hf]; [split; assumption |].
    contradiction Hhit; reflexivity. }
  destruct Hq as [Heps Hq]. split; [exact Heps |].
  rewrite (quadratic_ray s r t Hd) in Hq. fold x in Hq. lra.
Qed.

(** X15.  For a ray whose direction has length 1, a hit of
    [Sphere::intersect] is at a distance above 1e-4 and the point
    [r.o + r.d * t] is on the sphere: its squared distance to the centre is
    [rad * rad]. *)
Theorem Sphere_intersect_on_sphere (s : Sphere R) (r : Ray R) :
  dot (ray_d r) (ray_d r) = 1 ->
  Sphere_intersect s r <> 0 ->
  let t := Sphere_intersect s r in
  let x := vadd (ray_o r) (vscale (ray_d r) t) in
  / 10000 < t /\
  dot (vsub x (sph_p s)) (vsub x (sph_p s)) = sph_rad s * sph_rad s.
Proof. exact (hit_point_on_sphere s r). Qed.

Lemma Sphere_intersect_on_sphere_witness :
  let x := vadd (ray_o ray_to_centre)
                (vscale (ray_d ray_to_centre) (Sphere_intersect unit_sphere ray_to_centre)) in
  / 10000 < Sphere_intersect unit_sphere ray_to_centre /\
  dot (vsub x (sph_p unit_sphere)) (vsub x (sph_p unit_sphere)) = 1 * 1.
Proof.
  assert (Hd : dot (ray_d ray_to_centre) (ray_d ray_to_centre) = 1)
    by (unfold ray_to_centre; cbn [ray_d]; to_R; ring).
  assert (Ht : Sphere_intersect unit_sphere ray_to_centre = 2).
  { rewrite Sphere_intersect_R. cbv zeta.
    assert (Hb : dot (vsub (sph_p unit_sphere) (ray_o ray_to_centre)) (ray_d ray_to_centre) = 3)
      by (unfold unit_sphere, ray_to_centre; cbn [sph_p ray_o ray_d]; to_R; ring).
    assert (Hdet : discriminant unit_sphere ray_to_centre = 1)
      by (unfold discriminant, unit_sphere, ray_to_centre; cbn [sph_p sph_rad ray_o ray_d]; to_R; ring).
    rewrite Hb, Hdet, sqrt_1.
    destruct (Rlt_dec 1 0); [lra |]. destruct (Rlt_dec (/ 10000) (3 - 1)); lra. }
  assert (Hhit : Sphere_intersect unit_sphere ray_to_centre <> 0) by (rewrite Ht; lra).
  exact (Sphere_intersect_on_sphere unit_sphere ray_to_centre Hd Hhit).
Defined.

Lemma scene_radius (id : nat) : (id < 8)%nat -> 0 < sph_rad (sphere_at id).
Proof.
  intros Hid.
  assert (H5 : litR 1 5 = 100000) by (unfold litR, powerRZ; simpl; lra).
  assert (H165 : litR 165 (-1) = 33 / 2) by (unfold litR, powerRZ; simpl; lra).
  assert (H50 : litR 50 (-1) = 5) by (unfold litR, powerRZ; simpl; lra).
  do 8 (destruct id as [| id]; [cbn; rewrite ?H5, ?H165, ?H50; lra |]). lia.
Qed.

(** X16.  Lines 285-291 of [receivedRadiance], after a hit of sphere [id] by a ray
    whose direction has length 1: the point [x] is on the sphere, the
    outgoing direction [o] is [-r.d], the normal [n] has length 1, is the
    radius through [x] or its opposite, and is on the side of [o]
    ([n.o >= 0]). *)
Theorem hit_of_frame (r : Ray R) (id : nat) :
  (id < 8)%nat ->
  dot (ray_d r) (ray_d r) = 1 ->
  Sphere_intersect (sphere_at id) r <> 0 ->
  let h := hit_of r (Sphere_intersect (sphere_at id) r) id in
  let s := sphere_at id in
  dot (vsub (hit_x h) (sph_p s)) (vsub (hit_x h) (sph_p s)) = sph_rad s * sph_rad s /\
  hit_o h = vscale (ray_d r) (-1) /\
  dot (hit_n h) (hit_n h) = 1 /\
  0 <= dot (hit_n h) (hit_o h) /\
  (hit_n h = vscale (vsub (hit_x h) (sph_p s)) (1 / sph_rad s) \/
   hit_n h = vscale (vsub (hit_x h) (sph_p s)) (- (1 / sph_rad s))).
Proof.
  intros Hid Hd Hhit h s.
  destruct (hit_point_on_sphere s r Hd Hhit) as [_ Hon]. cbv zeta in Hon.
  pose proof (scene_radius id Hid) as Hrad. fold s in Hrad.
  unfold h, hit_of. cbn [hit_x hit_o hit_n hit_obj]. fold s.
  set (x := vadd (ray_o r) (vscale (ray_d r) (Sphere_intersect s r))) in *.
  assert (Ho : normalize (vsub Vec0 (ray_d r)) = vscale (ray_d r) (-1)).
  { rewrite normalize_of_unit.
    - destruct (ray_d r) as [dx dy dz]. unfold vsub, vscale, Vec0. to_R. rewrite litR_int.
      f_equal; ring.
    - rewrite <- Hd. destruct (ray_d r) as [dx dy dz]. to_R. rewrite litR_int. ring. }
  rewrite Ho.
  set (c := vsub x (sph_p s)) in *.
  assert (Hc : 0 < dot c c) by (rewrite Hon; nra).
  assert (Hn : normalize c = vscale c (1 / sph_rad s)).
  { rewrite normalize_scale, Hon, sqrt_square by lra. reflexivity. }
  pose proof (normalize_unit c Hc) as Hunit.
  set (o := vscale (ray_d r) (-1)) in *.
  split; [exact Hon |]. split; [reflexivity |].
  cbn [d_lt d_neg lit int exactR]. rewrite !litR_int.
  destruct (Rltb (dot (normalize c) o) 0) eqn:Hside.
  - apply Rltb_true in Hside.
    split; [rewrite dot_vscale_l, dot_vscale_r, Hunit; ring |].
    split; [rewrite dot_vscale_l; lra |].
    right. rewrite Hn. destruct c as [cx cy cz]. unfold vscale. to_R. f_equal; ring.
  - apply Rltb_false in Hside.
    split; [exact Hunit |]. split; [exact Hside |]. left. exact Hn.
Qed.

Definition ray_on_ball : Ray R := mkRay (mkVec 27 50 47) (mkVec 0 (-1) 0).

Lemma ray_on_ball_hit : Sphere_intersect (sphere_at 5) ray_on_ball = 17.
Proof.
  assert (H165 : litR 165 (-1) = 33 / 2) by (unfold litR, powerRZ; simpl; lra).
  rewrite Sphere_intersect_R. cbv zeta.
  assert (Hb : dot (vsub (sph_p (sphere_at 5)) (ray_o ray_on_ball)) (ray_d ray_on_ball) = 67 / 2)
    by (cbn; rewrite !litR_int, H165; lra).
  assert (Hdet : discriminant (sphere_at 5) ray_on_ball = (33 / 2) * (33 / 2))
    by (unfold discriminant; cbn; rewrite !litR_int, H165; lra).
  rewrite Hb, Hdet, sqrt_square by lra.
  destruct (Rlt_dec (33 / 2 * (33 / 2)) 0); [lra |].
  destruct (Rlt_dec (/ 10000) (67 / 2 - 33 / 2)); lra.
Qed.

Lemma hit_of_frame_witness :
  let h := hit_of ray_on_ball (Sphere_intersect (sphere_at 5) ray_on_ball) 5 in
  dot (hit_n h) (hit_n h) = 1 /\ 0 <= dot (hit_n h) (hit_o h) /\
  hit_o h = vscale (ray_d ray_on_ball) (-1).
Proof.
  assert (Hd : dot (ray_d ray_on_ball) (ray_d ray_on_ball) = 1) by (cbn; lra).
  assert (Hhit : Sphere_intersect (sphere_at 5) ray_on_ball <> 0) by (rewrite ray_on_ball_hit; lra).
  destruct (hit_of_frame ray_on_ball 5 ltac:(lia) Hd Hhit) as (_ & Ho & Hn & Hside & _).
  split; [exact Hn |]. split; [exact Hside | exact Ho].
Defined.

(** *** The camera *)

(** X17.  The tent filter of lines 358-359 maps [r1] between 0 and 2 (twice a
    sample) to an offset between -1 and 1, below 1 when [r1 < 2]; it does
    not decrease when [r1] grows. *)
Theorem tent_range (r1 r1' : R) :
  0 <= r1 <= r1' -> r1' <= 2 ->
  -1 <= tent r1 <= 1 /\ (r1 < 2 -> tent r1 < 1) /\ tent r1 <= tent r1'.
Proof.
  intros [H0 Hle] H2.
  assert (Hcase : forall a, 0 <= a <= 2 ->
            (a < 1 /\ tent a = sqrt a - 1 /\ 0 <= sqrt a < 1) \/
            (1 <= a /\ tent a = 1 - sqrt (2 - a) /\ 0 <= sqrt (2 - a) <= 1 /\
             (a < 2 -> 0 < sqrt (2 - a)))).
  { intros a [Ha0 Ha2]. unfold tent. cbn [d_lt d_sub d_sqrt int lit exactR]. rewrite !litR_int.
    destruct (Rltb a 1) eqn:Hlt.
    - apply Rltb_true in Hlt. left. split; [exact Hlt |]. split; [reflexivity |].
      split; [apply sqrt_pos |]. rewrite <- sqrt_1. apply sqrt_lt_1_alt. lra.
    - apply Rltb_false in Hlt. right. split; [exact Hlt |]. split; [reflexivity |].
      split; [split; [apply sqrt_pos |] |].
      + rewrite <- sqrt_1. apply sqrt_le_1_alt. lra.
      + intros Hs. apply sqrt_lt_R0. lra. }
  destruct (Hcase r1 ltac:(lra)) as [(Ha & -> & Hs) | (Ha & -> & Hs & Hp)];
    (split; [lra |]); (split; [intros Hlt; try specialize (Hp Hlt); lra |]);
    destruct (Hcase r1' ltac:(lra)) as [(Hb & -> & Hs') | (Hb & -> & Hs' & Hp')]; try lra.
  - pose proof (sqrt_le_1_alt r1 r1' Hle). lra.
  - assert (2 - r1' <= 2 - r1) as Hm by lra. pose proof (sqrt_le_1_alt _ _ Hm). lra.
Qed.

Lemma tent_range_witness :
  -1 <= tent (/ 2) <= 1 /\ tent (/ 2) < 1 /\ tent (/ 2) <= tent (3 / 2).
Proof.
  destruct (tent_range (/ 2) (3 / 2) ltac:(lra) ltac:(lra)) as (H1 & H2 & H3).
  split; [exact H1 |]. split; [apply H2; lra | exact H3].
Defined.

Lemma cam_direction : dot (ray_d cam) (ray_d cam) = 1 /\ vx (ray_d cam) = 0.
Proof.
  unfold cam. cbn [ray_d]. split.
  - apply normalize_unit. unfold V. to_R. rewrite !litR_int.
    pose proof (Rle_0_sqr (- litR 42612 (-6))) as H. unfold Rsqr in H. lra.
  - rewrite normalize_scale. unfold V, vscale. cbn [vx]. to_R. rewrite litR_int. ring.
Qed.

Lemma cx_value : cx = mkVec (vx cx) 0 0 /\ 0 < vx cx.
Proof.
  unfold cx, V. cbn [vx]. to_R. rewrite !litR_int. split; [reflexivity |].
  unfold w, h. assert (H : litR 5135 (-4) = 5135 / 10000) by (unfold litR, powerRZ; simpl; lra).
  rewrite H. lra.
Qed.

Lemma cy_orthogonal :
  dot cy cx = 0 /\ dot cy (ray_d cam) = 0.
Proof.
  unfold cy. rewrite !dot_vscale_l, !normalize_scale, !dot_vscale_l.
  rewrite cross_dot_l, cross_dot_r. split; ring.
Qed.

(** X18.  Lines 358-362: every camera ray starts at the camera position; its
    direction, before it is normalized, has the component 1 along the axis
    of the camera, so that the direction of the ray has length 1 and points
    forward; two samples are drawn for it. *)
Theorem primaryRay_direction (x y sx sy : Z) (g : RNG R) :
  let r := fst (primaryRay x y sx sy g) in
  ray_o r = ray_o cam /\
  dot (ray_d r) (ray_d r) = 1 /\
  0 < dot (ray_d r) (ray_d cam) /\
  snd (primaryRay x y sx sy g) = mkRNG (draws g) (S (S (pos g))).
Proof.
  unfold primaryRay, rng. cbn [fst snd draws pos ray_o ray_d].
  set (A := d_sub _ _). set (B := d_sub _ _).
  destruct cam_direction as [Hcam Hcamx].
  destruct cx_value as [Hcx Hcxp]. destruct cy_orthogonal as [Hcycx Hcyd].
  set (d := vadd (vadd (vscale cx A) (vscale cy B)) (ray_d cam)).
  assert (Hcxd : dot cx (ray_d cam) = 0).
  { rewrite Hcx. destruct (ray_d cam) as [dx dy dz]. cbn [vx] in Hcamx. subst dx. to_R. ring. }
  assert (Hfwd : dot d (ray_d cam) = 1).
  { unfold d. rewrite !dot_vadd_l, !dot_vscale_l, Hcxd, Hcyd, Hcam. ring. }
  assert (Hd : 0 < dot d d).
  { pose proof (dot_self_nonneg d) as H0.
    destruct (Req_dec (dot d d) 0) as [Hz | Hnz]; [| lra].
    apply dot_self_zero in Hz. rewrite Hz in Hfwd.
    destruct (ray_d cam) as [dx dy dz]. to_R. lra. }
  split; [reflexivity |]. split; [apply normalize_unit, Hd |].
  split; [| reflexivity].
  rewrite normalize_scale, dot_vscale_l, Hfwd.
  pose proof (sqrt_lt_R0 _ Hd) as Hs.
  assert (0 < 1 / sqrt (dot d d)) by (apply Rdiv_lt_0_compat; lra). lra.
Qed.

(** *** The image *)

Lemma clamp_R (x : R) : 0 <= clamp x <= 1 /\ (0 <= x <= 1 -> clamp x = x) /\
  (x <= 0 -> clamp x = 0) /\ (1 <= x -> clamp x = 1).
Proof.
  unfold clamp. cbn [d_lt int lit exactR]. rewrite !litR_int.
  destruct (Rltb x 0) eqn:H0; [apply Rltb_true in H0 | apply Rltb_false in H0];
    [| destruct (Rltb 1 x) eqn:H1; [apply Rltb_true in H1 | apply Rltb_false in H1]];
    repeat split; intros; lra.
Qed.

(** The conversion of a [double] to [int] truncates toward zero. *)
Definition truncR (x : R) : Z := if Rle_dec 0 x then Int_part x else (- Int_part (- x))%Z.

(** [std::pow] for a base that is not negative and an exponent above zero. *)
Definition powR (x y : R) : R := if Req_dec_T x 0 then 0 else Rpower x y.

Lemma powR_unit (x y : R) : 0 <= x <= 1 -> 0 < y -> 0 <= powR x y <= 1.
Proof.
  intros [H0 H1] Hy. unfold powR. destruct (Req_dec_T x 0) as [_ | Hx]; [lra |].
  unfold Rpower. split; [left; apply exp_pos |].
  rewrite <- exp_0.
  destruct (Req_dec x 1) as [-> | Hne]; [rewrite ln_1, Rmult_0_r; lra |].
  left. apply exp_increasing.
  assert (Hln : ln x < 0) by (rewrite <- ln_1; apply ln_increasing; lra).
  nra.
Qed.

Lemma powR_ends (y : R) : powR 0 y = 0 /\ powR 1 y = 1.
Proof.
  unfold powR. split.
  - destruct (Req_dec_T 0 0); [reflexivity | lra].
  - destruct (Req_dec_T 1 0); [lra |]. unfold Rpower. rewrite ln_1, Rmult_0_r. apply exp_0.
Qed.

Lemma truncR_range (v : R) (lo hi : Z) :
  0 <= v -> IZR lo <= v < IZR hi + 1 -> (lo <= truncR v <= hi)%Z.
Proof.
  intros H0 [Hlo Hhi]. unfold truncR. destruct (Rle_dec 0 v) as [_ | Hn]; [| contradiction].
  destruct (base_Int_part v) as [Hle Hgt].
  split.
  - assert (IZR lo < IZR (Int_part v) + 1) by lra.
    rewrite <- plus_IZR in H. apply lt_IZR in H. lia.
  - assert (IZR (Int_part v) < IZR hi + 1) by lra.
    rewrite <- plus_IZR in H. apply lt_IZR in H. lia.
Qed.

Section Gamma.

(** Any [pow] that maps a base between 0 and 1, with an exponent above
    zero, to a number between 0 and 1, as [std::pow] does. *)
Variable pow : R -> R -> R.
Hypothesis pow_unit : forall x y, 0 <= x <= 1 -> 0 < y -> 0 <= pow x y <= 1.
Hypothesis pow_0 : forall y, 0 < y -> pow 0 y = 0.
Hypothesis pow_1 : forall y, pow 1 y = 1.

(** X19.  [toInt] returns a level between 0 and 255, whatever [x] is: 0 for
    [x <= 0] and 255 for [x >= 1]. *)
Theorem toInt_level (x : R) :
  (0 <= toInt pow truncR x <= 255)%Z /\
  (x <= 0 -> toInt pow truncR x = 0%Z) /\
  (1 <= x -> toInt pow truncR x = 255%Z).
Proof.
  unfold toInt. cbn [d_mul d_add d_div int lit exactR]. rewrite !litR_int.
  assert (H22 : litR 22 (-1) = 22 / 10) by (unfold litR, powerRZ; simpl; lra).
  assert (H5 : litR 5 (-1) = / 2) by (unfold litR, powerRZ; simpl; lra).
  rewrite H22, H5.
  assert (Hy : 0 < 1 / (22 / 10)) by lra.
  destruct (clamp_R x) as (Hc & _ & Hc0 & Hc1).
  pose proof (pow_unit (clamp x) _ Hc Hy) as Hp.
  split; [apply truncR_range; lra |].
  split; intros Hx.
  - rewrite (Hc0 Hx), (pow_0 _ Hy).
    assert (H : (0 <= truncR (0 * 255 + / 2) <= 0)%Z) by (apply truncR_range; lra). lia.
  - rewrite (Hc1 Hx), pow_1.
    assert (H : (255 <= truncR (1 * 255 + / 2) <= 255)%Z) by (apply truncR_range; lra). lia.
Qed.

End Gamma.

Lemma toInt_level_witness :
  (0 <= toInt powR truncR (/ 2) <= 255)%Z /\ toInt powR truncR (-1) = 0%Z /\
  toInt powR truncR 2 = 255%Z.
Proof.
  pose proof (toInt_level powR powR_unit (fun y _ => proj1 (powR_ends y))
                (fun y => proj2 (powR_ends y))) as H.
  split; [exact (proj1 (H (/ 2))) |].
  split; [apply (proj1 (proj2 (H (-1)))); lra | apply (proj2 (proj2 (H 2))); lra].
Defined.

Lemma add_subpixel_step (fuel : nat) (samps x y sx sy : Z) (c c' : Vec R) (g g' : RNG R) :
  add_subpixel fuel samps x y sx sy c g = Some (c', g') ->
  vx c <= vx c' <= vx c + / 4 /\ vy c <= vy c' <= vy c + / 4 /\ vz c <= vz c' <= vz c + / 4.
Proof.
  unfold add_subpixel. destruct (subpixel fuel samps x y sx sy g) as [[r g1] |]; [| discriminate].
  intros H. injection H as <- _.
  assert (H25 : litR 25 (-2) = / 4) by (unfold litR, powerRZ; simpl; lra).
  unfold clamped, vadd, vscale. cbn [vx vy vz d_add d_mul lit exactR]. rewrite H25.
  pose proof (proj1 (clamp_R (vx r))). pose proof (proj1 (clamp_R (vy r))).
  pose proof (proj1 (clamp_R (vz r))). lra.
Qed.

(** X20.  Lines 354-366: whatever the estimator returns, a pixel that starts
    black ends with every component between 0 and 1. *)
Theorem pixel_in_unit_cube (fuel : nat) (samps x y : Z) (c : Vec R) (g g' : RNG R) :
  pixel fuel samps x y Vec0 g = Some (c, g') ->
  0 <= vx c <= 1 /\ 0 <= vy c <= 1 /\ 0 <= vz c <= 1.
Proof.
  unfold pixel.
  destruct (add_subpixel fuel samps x y 0 0 Vec0 g) as [[c1 g1] |] eqn:H1; [| discriminate].
  destruct (add_subpixel fuel samps x y 1 0 c1 g1) as [[c2 g2] |] eqn:H2; [| discriminate].
  destruct (add_subpixel fuel samps x y 0 1 c2 g2) as [[c3 g3] |] eqn:H3; [| discriminate].
  intros H4.
  apply add_subpixel_step in H1, H2, H3, H4.
  unfold Vec0 in H1. cbn [vx vy vz int lit exactR] in H1. rewrite litR_int in H1.
  lra.
Qed.

Lemma pixel_in_unit_cube_witness :
  exists c g',
    pixel 0 0 0 0 Vec0 half_engine = Some (c, g') /\
    0 <= vx c <= 1 /\ 0 <= vy c <= 1 /\ 0 <= vz c <= 1.
Proof.
  destruct (pixel 0 0 0 0 Vec0 half_engine) as [[c g'] |] eqn:E.
  - exists c, g'. split; [reflexivity | exact (pixel_in_unit_cube 0 0 0 0 c half_engine g' E)].
  - unfold pixel, add_subpixel, subpixel in E. cbn [Z.to_nat subpixel_loop] in E. discriminate E.
Defined.

(** *** The direct term *)

Lemma isVisibile_values (x y : Vec R) : isVisibile x y = 1 \/ isVisibile x y = 0.
Proof.
  unfold isVisibile. destruct (intersect _ 0) as [[hit t] id].
  destruct (within_tol _ y); cbn [lit exactR]; rewrite litR_int; [left | right]; reflexivity.
Qed.

Lemma light_values :
  sph_rad (sphere_at 7) = 5 /\ sph_e (sphere_at 7) = mkVec 50 50 50.
Proof.
  split; [apply light_radius |].
  cbn. rewrite !litR_int. reflexivity.
Qed.

(** X21.  [directRadiance] for a diffuse surface of reflectance [kd], with
    [y1] and [sourceNormal] the point and the normal sampled on the light
    and [o1] the direction to [y1]: [PI] cancels between the value of the
    BRDF and the density of the light sample, and the value returned is
    [kd] scaled by [V (n.o1) (sourceNormal.(-o1)) 5000 / r2], where the
    visibility [V] is 1 or 0; two samples are drawn.  For a specular surface
    the value is black and no sample is drawn. *)
Theorem directRadiance_value (obj : Sphere R) (r : Ray R) (n : Vec R) (g : RNG R) :
  let y1 := fst (fst (fst (luminaireSample (sphere_at 7) g))) in
  let sourceNormal := snd (fst (fst (luminaireSample (sphere_at 7) g))) in
  let o1 := normalize (vsub y1 (ray_o r)) in
  let r2 := dot (vsub (ray_o r) y1) (vsub (ray_o r) y1) in
  let V := isVisibile (ray_o r) y1 in
  (forall kd, sph_brdf obj = DiffuseBRDF kd -> r2 <> 0 ->
     (V = 1 \/ V = 0) /\
     directRadiance obj r n g =
       (vscale kd (V * (dot n o1 * dot sourceNormal (vscale o1 (-1))) * (5000 / r2)),
        mkRNG (draws g) (S (S (pos g))))) /\
  (forall ks, sph_brdf obj = SpecularBRDF ks -> directRadiance obj r n g = (Vec0, g)).
Proof.
  cbv zeta.
  assert (Hpdf : snd (fst (luminaireSample (sphere_at 7) g)) = 1 / (4 * Rtrigo1.PI * (5 * 5))).
  { unfold luminaireSample, rng. cbn [fst snd]. rewrite light_radius.
    cbn [d_div d_mul int lit PI exactR]. rewrite !litR_int. reflexivity. }
  assert (Hg : snd (luminaireSample (sphere_at 7) g) = mkRNG (draws g) (S (S (pos g))))
    by reflexivity.
  split.
  - intros kd Hf Hr2. split; [apply isVisibile_values |].
    unfold directRadiance. rewrite Hf. cbn [isSpecular negb eval].
    destruct light_values as [_ He]. rewrite He.
    destruct (luminaireSample (sphere_at 7) g) as [[[y1 nl] pdf1] g1].
    cbn [fst snd] in *. subst pdf1 g1. f_equal.
    set (V := isVisibile _ _). set (o1 := normalize _).
    set (c := d_mul (dot n o1) _). set (r2 := dot _ _) in *.
    pose proof PI_RGT_0 as Hpi.
    assert (Hc : c = dot n o1 * dot nl (vscale o1 (-1))).
    { unfold c. cbn [d_mul int lit exactR]. rewrite litR_int. reflexivity. }
    rewrite <- Hc. clearbody c V r2.
    destruct kd as [kx ky kz]. unfold vscale, mult.
    cbn [vx vy vz d_mul d_div lit int PI exactR]. rewrite !litR_int.
    f_equal; field; split; lra.
  - intros ks Hf. unfold directRadiance. rewrite Hf. reflexivity.
Qed.

Lemma directRadiance_value_witness :
  let y1 := fst (fst (fst (luminaireSample (sphere_at 7) half_engine))) in
  let r2 := dot (vsub (ray_o ray_on_ball) y1) (vsub (ray_o ray_on_ball) y1) in
  r2 <> 0 /\
  snd (directRadiance (sphere_at 5) ray_on_ball z_axis half_engine) = mkRNG (draws half_engine) 2 /\
  exists k, fst (directRadiance (sphere_at 5) ray_on_ball z_axis half_engine)
            = vscale (mkVec (9 / 10) (9 / 10) (9 / 10)) k.
Proof.
  intros y1 r2.
  assert (Hz : vz y1 = 816 / 10).
  { unfold y1, luminaireSample, rng, half_engine. cbn [fst snd draws pos].
    rewrite light_radius. cbn. rewrite !litR_int.
    assert (H : litR 816 (-1) = 816 / 10) by (unfold litR, powerRZ; simpl; lra).
    rewrite H. lra. }
  assert (Hr2 : r2 <> 0).
  { unfold r2. destruct y1 as [a b c]. cbn [vz] in Hz. subst c.
    unfold ray_on_ball. cbn [ray_o]. to_R.
    pose proof (Rle_0_sqr (27 - a)) as Ha. pose proof (Rle_0_sqr (50 - b)) as Hb.
    unfold Rsqr in *. lra. }
  assert (Hkd : sph_brdf (sphere_at 5) = DiffuseBRDF (mkVec (9 / 10) (9 / 10) (9 / 10))).
  { change (sph_brdf (sphere_at 5))
      with (DiffuseBRDF (mkVec (litR 9 (-1)) (litR 9 (-1)) (litR 9 (-1)))).
    rewrite litR_09. reflexivity. }
  destruct (directRadiance_value (sphere_at 5) ray_on_ball z_axis half_engine) as [Hd _].
  destruct (Hd _ Hkd Hr2) as [_ Heq].
  split; [exact Hr2 |]. rewrite Heq. split; [reflexivity |].
  eexists. reflexivity.
Defined.

End Geometry.

(** ** Russian roulette and the mean of the estimator *)

Section Truncated.

Context {D : Type} {DD : Double D}.
Local Open Scope dbl_scope.

(** A path that always continues never ends in a closed scene, and the
    program itself may nest any number of calls: the estimators compared
    below are cut after [fuel] nested calls, the radiance of the remainder of
    the path counted as black.  [receivedRadiance_cut fuel] is the body of
    the program nested [fuel] times around [black]. *)
Definition black : Estimator D := fun _ _ _ g => Some (Vec0, g).

Fixpoint receivedRadiance_cut (fuel : nat) : Estimator D :=
  match fuel with
  | O => black
  | S fuel' => receivedRadiance_body (receivedRadiance_cut fuel')
  end.

(** The estimator that always continues.  The body uses [depth] at lines
    309-311, to choose [p], and passes [depth + 1] on; called at depth 0 at
    every level it is the body with [p = 1.0] everywhere: a sample below 1
    passes the test [rng() < p], and the weight is [n.dot(i) / (pdf * 1.0)]. *)
Definition at_depth_0 (self : Estimator D) : Estimator D := fun r _ flag g => self r 0%Z flag g.

Fixpoint always_continue (fuel : nat) : Estimator D :=
  match fuel with
  | O => black
  | S fuel' => at_depth_0 (receivedRadiance_body (always_continue fuel'))
  end.

(** The vector a call returns. *)
Definition radiance (x : option (Vec D * RNG D)) : Vec D :=
  match x with Some (v, _) => v | None => Vec0 end.

(** The engine [g] with the sample at position [k] replaced by [u]. *)
Definition set_draw (g : RNG D) (k : nat) (u : D) : RNG D :=
  mkRNG (fun j => if Nat.eqb j k then u else draws g j) (pos g).

(** What a call that hits sphere [id] at distance [t] leaves to the nested
    call when it continues, lines 303-321: the position in the engine of its
    roulette sample, the ray of the bounce, and the engine after the samples
    of the direct term, the roulette sample and the samples of the bounce. *)
Definition bounce (r : Ray D) (t : D) (id : nat) (g : RNG D) : nat * Ray D * RNG D :=
  let h := hit_of r t id in
  let '(_, g) := direct_term h g in
  let k := pos g in
  let '(_, g) := rng g in
  let '((i, _), g) := sample (sph_brdf (hit_obj h)) (hit_n h) (hit_o h) g in
  (k, mkRay (hit_x h) (normalize i), g).

(** The positions in the engine of the roulette samples of a path of at most
    [fuel] calls that continues at every roulette test. *)
Fixpoint roulette_draws (fuel : nat) (r : Ray D) (g : RNG D) : list nat :=
  match fuel with
  | O => []
  | S fuel' =>
      let '(hit, t, id) := intersect r 0 in
      if negb hit then []
      else
        let '(k, r', g') := bounce r t id g in
        k :: roulette_draws fuel' r' g'
  end.

(** *** What a call reads of its engine *)

(** [g'] is at the position of [g] and delivers the same next [n] samples. *)
Definition same_next (n : nat) (g g' : RNG D) : Prop :=
  pos g' = pos g /\ forall j, (pos g <= j < pos g + n)%nat -> draws g' j = draws g j.

Lemma luminaireSample_next (s : Sphere D) (g g' : RNG D) :
  same_next 2 g g' -> fst (luminaireSample s g') = fst (luminaireSample s g).
Proof.
  intros [Hp Hd]. unfold luminaireSample, rng. cbn [fst snd draws pos].
  rewrite Hp, !Hd by lia. reflexivity.
Qed.

Lemma direct_term_next (h : Hit D) (g g' : RNG D) :
  same_next (draws_of (sph_brdf (hit_obj h))) g g' ->
  fst (direct_term h g') = fst (direct_term h g).
Proof.
  unfold direct_term, directRadiance, draws_of.
  destruct (isSpecular (sph_brdf (hit_obj h))); cbn [negb]; [reflexivity |].
  intros H. pose proof (luminaireSample_next (sphere_at 7) g g' H) as Hl.
  destruct (luminaireSample (sphere_at 7) g') as [[[y1 sn] pdf1] g1'].
  destruct (luminaireSample (sphere_at 7) g) as [[[y1' sn'] pdf1'] g1].
  cbn [fst] in Hl. injection Hl as -> -> ->. reflexivity.
Qed.

Lemma sample_next (f : BRDF D) (n o : Vec D) (g g' : RNG D) :
  same_next (draws_of f) g g' -> fst (sample f n o g') = fst (sample f n o g).
Proof.
  destruct f as [kd | ks]; cbn [sample draws_of isSpecular]; [| reflexivity].
  intros [Hp Hd]. unfold uniformRandomPSA, rng. cbn [fst snd draws pos].
  rewrite Hp, !Hd by lia. destruct (createLocalCoord n) as [[u v] w]. reflexivity.
Qed.

(** The samples a call that hits draws before the nested call: those of the
    direct term, the roulette sample, those of the bounce. *)
Definition draws_before (f : BRDF D) : nat := (draws_of f + 1 + draws_of f)%nat.

Lemma bounce_eq (r : Ray D) (t : D) (id : nat) (g : RNG D) :
  let h := hit_of r t id in
  let f := sph_brdf (hit_obj h) in
  bounce r t id g
  = ((pos g + draws_of f)%nat,
     mkRay (hit_x h)
           (normalize (fst (fst (sample f (hit_n h) (hit_o h) (advanced g (draws_of f + 1)))))),
     advanced g (draws_before f)).
Proof.
  cbv zeta. unfold bounce.
  pose proof (direct_term_draws (hit_of r t id) g) as Hg1.
  destruct (direct_term (hit_of r t id) g) as [direct g1]. cbn [snd] in Hg1. subst g1.
  set (f := sph_brdf (hit_obj (hit_of r t id))).
  pose proof (advanced_rng g (draws_of f)) as Hg2.
  destruct (rng (advanced g (draws_of f))) as [u g2]. cbn [snd] in Hg2. subst g2.
  pose proof (sample_draws f (hit_n (hit_of r t id)) (hit_o (hit_of r t id))
                (advanced g (S (draws_of f)))) as Hg3.
  replace (draws_of f + 1)%nat with (S (draws_of f)) by lia.
  destruct (sample f _ _ (advanced g (S (draws_of f)))) as [[i pdf] g3]. cbn [snd fst] in *.
  subst g3. rewrite advanced_add. unfold draws_before.
  replace (draws_of f + 1 + draws_of f)%nat with (S (draws_of f) + draws_of f)%nat by lia.
  reflexivity.
Qed.

(** The body after a hit, on an engine [g'] that delivers the samples of
    [g] but for the roulette sample of the call and for those of the nested
    calls. *)
Lemma body_on (self : Estimator D) r depth flag g g' t id :
  intersect r 0 = (true, t, id) ->
  let h := hit_of r t id in
  let obj := hit_obj h in
  let f := sph_brdf obj in
  pos g' = pos g ->
  (forall j, (pos g <= j < pos g + draws_before f)%nat -> j <> (pos g + draws_of f)%nat ->
             draws g' j = draws g j) ->
  let direct := fst (direct_term h g) in
  let s := sample f (hit_n h) (hit_o h) (advanced g (draws_of f + 1)) in
  let i := normalize (fst (fst s)) in
  let pdf := snd (fst s) in
  let p := roulette_p depth in
  receivedRadiance_body self r depth flag g' =
    if draws g' (pos g + draws_of f) <? p then
      match self (mkRay (hit_x h) i) (depth + 1)%Z (isSpecular f) (advanced g' (draws_before f)) with
      | None => None
      | Some (rec, g4) =>
          Some (with_emission flag obj (vadd direct (indirect f (hit_n h) (hit_o h) i pdf p rec)), g4)
      end
    else Some (with_emission flag obj direct, advanced g' (draws_of f + 1)).
Proof.
  intros Hi h obj f Hp Hd direct s i pdf p.
  assert (H1 : same_next (draws_of f) g g').
  { split; [exact Hp |]. intros j Hj. apply Hd; unfold draws_before; lia. }
  assert (H2 : same_next (draws_of f) (advanced g (draws_of f + 1)) (advanced g' (draws_of f + 1))).
  { split; cbn [advanced pos draws]; [rewrite Hp; reflexivity |].
    intros j Hj. apply Hd; unfold draws_before; lia. }
  pose proof (direct_term_next h g g' H1) as Hdir.
  pose proof (direct_term_draws h g') as Hg1.
  destruct (direct_term h g') as [direct' g1] eqn:Hdt. cbn [fst snd] in Hdir, Hg1.
  fold obj f in Hg1.
  pose proof (advanced_rng g' (draws_of f)) as Hg2.
  destruct (rng g1) as [u g2] eqn:Hr.
  assert (Hu : u = draws g' (pos g + draws_of f)).
  { subst g1. unfold rng in Hr. cbn [advanced draws pos] in Hr. injection Hr as <- _.
    rewrite Hp. reflexivity. }
  assert (Hg2' : g2 = advanced g' (draws_of f + 1)).
  { subst g1. rewrite Hr in Hg2. cbn [snd] in Hg2. rewrite Hg2. f_equal. lia. }
  rewrite (body_hit self r depth flag g' t id direct' g1 u g2 Hi Hdt Hr). cbv zeta.
  fold h obj f p. rewrite <- Hu. destruct (u <? p); [| rewrite Hdir, Hg2'; reflexivity].
  pose proof (sample_next f (hit_n h) (hit_o h) _ _ H2) as Hs.
  pose proof (sample_draws f (hit_n h) (hit_o h) g2) as Hg3.
  rewrite Hg2' in *.
  destruct (sample f (hit_n h) (hit_o h) (advanced g' (draws_of f + 1))) as [[i' pdf'] g3].
  cbn [fst snd] in Hs, Hg3. subst g3. rewrite advanced_add.
  fold s in Hs. replace i' with (fst (fst s)) by (rewrite <- Hs; reflexivity).
  replace pdf' with (snd (fst s)) by (rewrite <- Hs; reflexivity).
  fold i pdf. unfold draws_before. rewrite Hdir. reflexivity.
Qed.

(** *** The calls return *)

Definition returns (self : Estimator D) : Prop :=
  forall r depth flag g, exists v g', self r depth flag g = Some (v, g').

Lemma body_returns (self : Estimator D) : returns self -> returns (receivedRadiance_body self).
Proof.
  intros Hself r depth flag g. unfold receivedRadiance_body.
  destruct (intersect r 0) as [[hit t] id]. destruct (negb hit); [eauto |].
  destruct (direct_term _ g) as [direct g1]. destruct (rng g1) as [u g2].
  destruct (u <? roulette_p depth); [| eauto].
  destruct (sample _ _ _ g2) as [[i pdf] g3].
  destruct (Hself (mkRay (hit_x (hit_of r t id)) (normalize i)) (depth + 1)%Z
                  (isSpecular (sph_brdf (hit_obj (hit_of r t id)))) g3) as (rec & g4 & ->).
  eauto.
Qed.

Lemma receivedRadiance_cut_returns (fuel : nat) : returns (receivedRadiance_cut fuel).
Proof.
  induction fuel as [| fuel IH]; cbn [receivedRadiance_cut].
  - intros r depth flag g. unfold black. eauto.
  - apply body_returns, IH.
Qed.

Lemma always_continue_returns (fuel : nat) : returns (always_continue fuel).
Proof.
  induction fuel as [| fuel IH]; cbn [always_continue].
  - intros r depth flag g. unfold black. eauto.
  - intros r depth flag g. unfold at_depth_0. apply body_returns, IH.
Qed.

(** Where the program returns within [fuel] nested calls, the estimator cut
    there returns the same. *)
Lemma receivedRadiance_cut_agrees (fuel : nat) :
  forall r depth flag g x,
    receivedRadiance fuel r depth flag g = Some x ->
    receivedRadiance_cut fuel r depth flag g = Some x.
Proof.
  induction fuel as [| fuel IH]; intros r depth flag g x Hx; [discriminate |].
  cbn [receivedRadiance receivedRadiance_cut] in *.
  exact (body_monotone _ _ IH r depth flag g x Hx).
Qed.


(** *** Calls read their engine forwards *)

(** [g'] is at the position of [g] and delivers the same samples from there on. *)
Definition same_from (g g' : RNG D) : Prop :=
  pos g' = pos g /\ forall j, (pos g <= j)%nat -> draws g' j = draws g j.

Lemma same_from_next (n : nat) (g g' : RNG D) : same_from g g' -> same_next n g g'.
Proof. intros [Hp Hd]. split; [exact Hp |]. intros j Hj. apply Hd. lia. Qed.

Lemma same_from_advanced (k : nat) (g g' : RNG D) :
  same_from g g' -> same_from (advanced g k) (advanced g' k).
Proof.
  intros [Hp Hd]. split; cbn [advanced pos draws]; [rewrite Hp; reflexivity |].
  intros j Hj. apply Hd. lia.
Qed.

Lemma bounce_from (r : Ray D) (t : D) (id : nat) (g g' : RNG D) :
  same_from g g' ->
  fst (bounce r t id g') = fst (bounce r t id g) /\
  same_from (snd (bounce r t id g)) (snd (bounce r t id g')).
Proof.
  intros H. rewrite !bounce_eq. cbn [fst snd]. split.
  - rewrite (proj1 H). f_equal. f_equal. f_equal. f_equal.
    apply sample_next, same_from_next, same_from_advanced, H.
  - apply same_from_advanced, H.
Qed.

Lemma roulette_draws_from (fuel : nat) :
  forall r g g', same_from g g' -> roulette_draws fuel r g' = roulette_draws fuel r g.
Proof.
  induction fuel as [| fuel IH]; intros r g g' H; cbn [roulette_draws]; [reflexivity |].
  destruct (intersect r 0) as [[hit t] id]. destruct (negb hit); [reflexivity |].
  destruct (bounce_from r t id g g' H) as [Hb Hg].
  destruct (bounce r t id g') as [[k' r''] g3']. destruct (bounce r t id g) as [[k r'] g3].
  cbn [fst snd] in Hb, Hg. injection Hb as -> ->. f_equal. apply IH, Hg.
Qed.

Lemma roulette_draws_ge (fuel : nat) :
  forall r g k, In k (roulette_draws fuel r g) -> (pos g <= k)%nat.
Proof.
  induction fuel as [| fuel IH]; intros r g k; cbn [roulette_draws]; [intros [] |].
  destruct (intersect r 0) as [[hit t] id]. destruct (negb hit); [intros [] |].
  rewrite bounce_eq. intros [<- | Hin]; [lia |].
  apply IH in Hin. cbn [advanced pos] in Hin. lia.
Qed.

Lemma always_continue_from (fuel : nat) :
  forall r depth flag g g',
    same_from g g' ->
    radiance (always_continue fuel r depth flag g')
    = radiance (always_continue fuel r depth flag g).
Proof.
  induction fuel as [| fuel IH]; intros r depth flag g g' H; cbn [always_continue]; [reflexivity |].
  unfold at_depth_0.
  destruct (intersect r 0) as [[[|] t] id] eqn:Hi.
  - rewrite (body_on _ r 0%Z flag g g' t id Hi (proj1 H)
               (fun j Hj _ => proj2 H j (proj1 Hj))).
    rewrite (body_on _ r 0%Z flag g g t id Hi eq_refl (fun j _ _ => eq_refl)).
    cbv zeta. rewrite (proj2 H) by lia.
    destruct (_ <? _); [| reflexivity].
    set (f := sph_brdf (hit_obj (hit_of r t id))).
    set (r' := mkRay _ _).
    pose proof (IH r' (0 + 1)%Z (isSpecular f) _ _
                   (same_from_advanced (draws_before f) g g' H)) as Hrec.
    destruct (always_continue_returns fuel r' (0 + 1)%Z (isSpecular f)
                (advanced g' (draws_before f))) as (rec' & g4' & E'). rewrite E' in *.
    destruct (always_continue_returns fuel r' (0 + 1)%Z (isSpecular f)
                (advanced g (draws_before f))) as (rec & g4 & E). rewrite E in *.
    cbn [radiance] in *. rewrite Hrec. reflexivity.
  - rewrite !(body_miss _ r 0%Z flag _ t id Hi). reflexivity.
Qed.


(** The body uses [depth] for [p] and for the depth of the nested call only. *)
Lemma body_depth (self self' : Estimator D) (d d' : Z) :
  roulette_p d = roulette_p d' ->
  (forall y f g, self y (d + 1)%Z f g = self' y (d' + 1)%Z f g) ->
  forall r flag g, receivedRadiance_body self r d flag g = receivedRadiance_body self' r d' flag g.
Proof.
  intros Hp Hself r flag g. unfold receivedRadiance_body.
  destruct (intersect r 0) as [[hit t] id]. destruct (negb hit); [reflexivity |].
  destruct (direct_term _ g) as [direct g1]. destruct (rng g1) as [u g2].
  rewrite Hp. destruct (u <? roulette_p d'); [| reflexivity].
  destruct (sample _ _ _ g2) as [[i pdf] g3]. rewrite Hself. reflexivity.
Qed.

Lemma always_continue_depth (fuel : nat) (r : Ray D) (d d' : Z) (flag : bool) (g : RNG D) :
  always_continue fuel r d flag g = always_continue fuel r d' flag g.
Proof. destruct fuel; reflexivity. Qed.

(** While the depth stays below 5 the program is the estimator that always
    continues. *)
Lemma receivedRadiance_cut_below (fuel : nat) :
  forall r depth flag g,
    (depth + Z.of_nat fuel <= 5)%Z ->
    receivedRadiance_cut fuel r depth flag g = always_continue fuel r 0%Z flag g.
Proof.
  induction fuel as [| fuel IH]; intros r depth flag g Hd; [reflexivity |].
  cbn [receivedRadiance_cut always_continue]. unfold at_depth_0.
  apply body_depth.
  - rewrite !roulette_p_below by lia. reflexivity.
  - intros y f g'. rewrite IH by lia. apply always_continue_depth.
Qed.

End Truncated.

(** *** On binary64 *)

Module RouletteRuns.

Import B64 Runs.

Local Open Scope float_scope.

#[local] Existing Instance libm64.

(** A ray from the middle of the room to the left wall (sphere 0), and the
    samples of a path of two calls on matte surfaces: light sample (0.5, 0),
    roulette 0, bounce (0.25, 0), twice. *)
Definition ray_wall : Ray float := toward (vec 50 40 100) (vec 1 40 100).

Definition wall_engine : RNG float :=
  engine [0.5; 0; 0; 0.25; 0; 0.5; 0; 0; 0.25; 0]%float 0%float.

(** The ray of the bounce on that path; it falls on the back wall (sphere 2). *)
Definition ray_wall_bounce : Ray float :=
  snd (fst (bounce ray_wall (snd (fst (intersect ray_wall 0))) 0 wall_engine)).

Lemma ray_wall_hit : intersect ray_wall 0 = (true, snd (fst (intersect ray_wall 0)), 0%nat).
Proof. vm_compute. reflexivity. Qed.

Lemma ray_wall_bounce_hit :
  intersect ray_wall_bounce 0 = (true, snd (fst (intersect ray_wall_bounce 0)), 2%nat).
Proof. vm_compute. reflexivity. Qed.

(** The value of the second call does not depend on its roulette sample:
    what remains of the path is black. *)
Lemma second_call (g' : RNG float) :
  pos g' = 5%nat ->
  draws g' 5 = 0.5 -> draws g' 6 = 0 -> draws g' 8 = 0.25 -> draws g' 9 = 0 ->
  radiance (receivedRadiance_body black ray_wall_bounce 6%Z false g')
  = radiance (receivedRadiance_body black ray_wall_bounce 6%Z false (advanced wall_engine 5)).
Proof.
  intros Hp H5 H6 H8 H9.
  assert (Hd : forall j, (5 <= j < 5 + 5)%nat -> j <> 7%nat ->
                         draws g' j = draws (advanced wall_engine 5) j).
  { intros j Hj Hne.
    assert (Hc : j = 5%nat \/ j = 6%nat \/ j = 8%nat \/ j = 9%nat) by lia.
    destruct Hc as [-> | [-> | [-> | ->]]];
      [rewrite H5 | rewrite H6 | rewrite H8 | rewrite H9]; reflexivity. }
  rewrite (@body_on float libm64 black ray_wall_bounce 6%Z false (advanced wall_engine 5) g'
             (snd (fst (intersect ray_wall_bounce 0))) 2 ray_wall_bounce_hit Hp Hd).
  cbv zeta.
  destruct (d_lt _ _); unfold black; cbn [radiance]; vm_compute; reflexivity.
Qed.

(** The value of the first call depends on its roulette sample by the test
    [rng() < p] only. *)
Lemma first_call (g' : RNG float) :
  pos g' = 0%nat ->
  (forall j, (j < 10)%nat -> j <> 2%nat -> j <> 7%nat -> draws g' j = draws wall_engine j) ->
  radiance (receivedRadiance_cut 2 ray_wall 5%Z false g')
  = if PrimFloat.ltb (draws g' 2) (roulette_p 5%Z)
    then radiance (receivedRadiance_cut 2 ray_wall 5%Z false wall_engine)
    else radiance (receivedRadiance_cut 2 ray_wall 5%Z false
                     (set_draw wall_engine 2 (lit64 95 (-2)))).
Proof.
  intros Hp Hd.
  change (receivedRadiance_cut 2) with (receivedRadiance_body (receivedRadiance_body black)).
  assert (Hd1 : forall j, (pos wall_engine <= j < pos wall_engine + 5)%nat ->
                          j <> (pos wall_engine + 2)%nat -> draws g' j = draws wall_engine j).
  { intros j Hj Hne. cbn [wall_engine engine pos] in *. apply Hd; lia. }
  rewrite (@body_on float libm64 _ ray_wall 5%Z false wall_engine g'
             (snd (fst (intersect ray_wall 0))) 0 ray_wall_hit Hp Hd1).
  cbv zeta.
  set (h := hit_of ray_wall _ 0).
  set (f := sph_brdf (hit_obj h)).
  assert (E1 : mkRay (hit_x h)
                 (normalize (fst (fst (sample f (hit_n h) (hit_o h)
                                         (advanced wall_engine (draws_of f + 1))))))
               = ray_wall_bounce) by (vm_compute; reflexivity).
  assert (E2 : isSpecular f = false) by (vm_compute; reflexivity).
  assert (E3 : draws_before f = 5%nat) by (vm_compute; reflexivity).
  assert (E4 : draws_of f = 2%nat) by (vm_compute; reflexivity).
  rewrite E1, E2, E3, E4.
  change (pos wall_engine + 2)%nat with 2%nat.
  change (d_lt (draws g' 2) (roulette_p 5%Z)) with (PrimFloat.ltb (draws g' 2) (roulette_p 5%Z)).
  destruct (PrimFloat.ltb (draws g' 2) (roulette_p 5%Z)).
  - pose proof (second_call (advanced g' 5)) as H2.
    cbn [advanced pos draws] in H2. rewrite Hp in H2.
    specialize (H2 eq_refl (Hd 5%nat ltac:(lia) ltac:(lia) ltac:(lia))
                   (Hd 6%nat ltac:(lia) ltac:(lia) ltac:(lia))
                   (Hd 8%nat ltac:(lia) ltac:(lia) ltac:(lia))
                   (Hd 9%nat ltac:(lia) ltac:(lia) ltac:(lia))).
    destruct (@body_returns float libm64 black ltac:(intros ? ? ? ?; unfold black; eauto)
                ray_wall_bounce (5 + 1)%Z false (advanced g' 5)) as (rec & g4 & E).
    rewrite E. change (5 + 1)%Z with 6%Z in E. rewrite E in H2. cbn [radiance] in *.
    rewrite H2. vm_compute. reflexivity.
  - cbn [radiance]. vm_compute. reflexivity.
Qed.

(** C9, as the specification states it, fails on the doubles of the program.
    On the path of [ray_wall] at depth 5, cut after two calls, the roulette
    samples are the third and the eighth of the engine.  Whatever they are,
    the value of the call is [A] when the first of them passes the test
    [rng() < 0.9] and [B] when it does not; the estimator that always
    continues returns [C].  The probability that a sample uniform on [0, 1)
    is below the double 0.9 is the number [P] that double stands for; the
    mean [P A + (1 - P) B], computed exactly from the doubles, is not [C]:
    the division by [p], rounded, does not compensate exactly.  No other
    value of the probability of continuing would do: the one that makes the
    means equal in x is not the one that makes them equal in y. *)
Lemma roulette_mean_rounding :
  let A := radiance (receivedRadiance_cut 2 ray_wall 5%Z false wall_engine) in
  let B := radiance (receivedRadiance_cut 2 ray_wall 5%Z false
                       (set_draw wall_engine 2 (lit64 95 (-2)))) in
  let C := radiance (always_continue 2 ray_wall 0%Z false wall_engine) in
  let P := dyadic (roulette_p 5%Z) in
  let exact (c : Vec float -> float) (v : Vec float) := dyadic (c v) in
  roulette_draws 2 ray_wall wall_engine = [2%nat; 7%nat] /\
  (forall u u' : float,
     radiance (receivedRadiance_cut 2 ray_wall 5%Z false
                 (set_draw (set_draw wall_engine 2 u) 7 u'))
     = if PrimFloat.ltb u (roulette_p 5%Z) then A else B) /\
  PrimFloat.ltb 0 (vx C) = true /\ PrimFloat.ltb (vx C) (vx A) = true /\
  deqb (dadd (dmul P (exact vx A)) (dmul (dsub (1%Z, 0%Z) P) (exact vx B))) (exact vx C) = false /\
  deqb (dmul (dsub (exact vx C) (exact vx B)) (dsub (exact vy A) (exact vy B)))
       (dmul (dsub (exact vy C) (exact vy B)) (dsub (exact vx A) (exact vx B))) = false.
Proof.
  intros A B C P exact.
  split; [vm_compute; reflexivity |].
  split.
  { intros u u'. apply (first_call (set_draw (set_draw wall_engine 2 u) 7 u')); [reflexivity |].
    intros j _ H2 H7. cbn [set_draw draws].
    destruct (Nat.eqb_spec j 7) as [E | _]; [contradiction |].
    destruct (Nat.eqb_spec j 2) as [E | _]; [contradiction | reflexivity]. }
  vm_compute. repeat split.
Qed.

End RouletteRuns.

(** *** On exact reals *)

Module Roulette.

Import Exact OnReals Geometry.

#[local] Existing Instance exactR.

Local Open Scope R_scope.

(** The mean of [f] over a sample uniform on [0, 1): its Riemann integral. *)
Definition is_mean (f : R -> R) (m : R) : Prop :=
  exists pr : Riemann_integrable f 0 1, RiemannInt pr = m.

(** The mean of [F] over the samples at the positions [ks], each uniform on
    [0, 1) and independent of the others, the other samples being those of
    [g]: the integral over the first of them of the mean over the rest. *)
Fixpoint mean_over (ks : list nat) (F : RNG R -> R) (g : RNG R) (m : R) : Prop :=
  match ks with
  | [] => F g = m
  | k :: ks' =>
      exists M : R -> R,
        (forall u, 0 <= u < 1 -> mean_over ks' F (set_draw g k u) (M u)) /\ is_mean M m
  end.

(** [g'] is [g] but for the samples at the positions [ks]. *)
Definition agree_off (ks : list nat) (g g' : RNG R) : Prop :=
  pos g' = pos g /\ forall j, ~ In j ks -> draws g' j = draws g j.

Lemma is_mean_const (b : R) : is_mean (fun _ => b) b.
Proof.
  exists (RiemannInt_P14 0 1 b).
  pose proof (RiemannInt_P15 (RiemannInt_P14 0 1 b)) as H.
  rewrite Rminus_0_r, Rmult_1_r in H. exact H.
Qed.

Lemma is_mean_affine (M : R -> R) (m a b : R) :
  is_mean M m -> is_mean (fun u => a + b * M u) (a + b * m).
Proof.
  intros [pr Hm].
  exists (RiemannInt_P10 b (RiemannInt_P14 0 1 a) pr).
  pose proof (RiemannInt_P13 (RiemannInt_P14 0 1 a) pr
                (RiemannInt_P10 b (RiemannInt_P14 0 1 a) pr)) as H.
  rewrite RiemannInt_P15, Hm in H. etransitivity; [exact H | ring].
Qed.

Lemma is_mean_roulette (p a b : R) :
  0 <= p <= 1 -> is_mean (roulette_value p a b) (p * a + (1 - p) * b).
Proof.
  intros Hp. exists (roulette_integrable p a b Hp). apply roulette_mean, Hp.
Qed.

Lemma agree_off_refl (ks : list nat) (g : RNG R) : agree_off ks g g.
Proof. split; [reflexivity | intros; reflexivity]. Qed.

Lemma agree_off_set (k : nat) (ks : list nat) (g g' : RNG R) (u : R) :
  agree_off ks (set_draw g k u) g' -> agree_off (k :: ks) g g'.
Proof.
  intros [Hp Hd]. split; [exact Hp |].
  intros j Hj. rewrite Hd by (intros Hin; apply Hj; right; exact Hin).
  cbn [set_draw draws]. destruct (Nat.eqb_spec j k) as [-> | _]; [| reflexivity].
  exfalso. apply Hj. left. reflexivity.
Qed.

Lemma mean_over_ext (ks : list nat) (F F' : RNG R -> R) :
  forall g m,
    (forall g', agree_off ks g g' -> F g' = F' g') ->
    mean_over ks F g m -> mean_over ks F' g m.
Proof.
  induction ks as [| k ks IH]; intros g m HF; cbn [mean_over].
  - intros <-. symmetry. apply HF, agree_off_refl.
  - intros (M & HM & Hm). exists M. split; [| exact Hm].
    intros u Hu. apply IH; [| apply HM, Hu].
    intros g' Hg'. apply HF. exact (agree_off_set _ _ _ _ _ Hg').
Qed.

Lemma mean_over_const (ks : list nat) (F : RNG R -> R) (b : R) :
  forall g, (forall g', agree_off ks g g' -> F g' = b) -> mean_over ks F g b.
Proof.
  induction ks as [| k ks IH]; intros g HF; cbn [mean_over].
  - apply HF, agree_off_refl.
  - exists (fun _ => b). split; [| apply is_mean_const].
    intros u _. apply IH. intros g' Hg'. apply HF. exact (agree_off_set _ _ _ _ _ Hg').
Qed.

Lemma mean_over_affine (ks : list nat) (F : RNG R -> R) (a b : R) :
  forall g m, mean_over ks F g m -> mean_over ks (fun g' => a + b * F g') g (a + b * m).
Proof.
  induction ks as [| k ks IH]; intros g m; cbn [mean_over].
  - intros <-. reflexivity.
  - intros (M & HM & Hm). exists (fun u => a + b * M u). split; [| apply is_mean_affine, Hm].
    intros u Hu. apply IH, HM, Hu.
Qed.

Lemma is_mean_unique (M M' : R -> R) (m m' : R) :
  (forall u, 0 <= u < 1 -> M u = M' u) -> is_mean M m -> is_mean M' m' -> m = m'.
Proof.
  intros HM [pr Hm] [pr' Hm']. rewrite <- Hm, <- Hm'.
  apply RiemannInt_P18; [lra |]. intros x Hx. apply HM. lra.
Qed.

(** The mean is determined. *)
Lemma mean_over_unique (ks : list nat) (F : RNG R -> R) :
  forall g m m', mean_over ks F g m -> mean_over ks F g m' -> m = m'.
Proof.
  induction ks as [| k ks IH]; intros g m m'; cbn [mean_over].
  - intros <- <-. reflexivity.
  - intros (M & HM & Hm) (M' & HM' & Hm').
    apply (is_mean_unique M M' m m'); [| assumption | assumption].
    intros u Hu. exact (IH _ _ _ (HM u Hu) (HM' u Hu)).
Qed.

Lemma mean_over_shift (ks : list nat) (F : RNG R -> R) (q : nat) :
  forall g m,
    mean_over ks F (mkRNG (draws g) q) m ->
    mean_over ks (fun g' => F (mkRNG (draws g') q)) g m.
Proof.
  induction ks as [| k ks IH]; intros g m; cbn [mean_over].
  - trivial.
  - intros (M & HM & Hm). exists M. split; [| exact Hm].
    intros u Hu. apply IH. exact (HM u Hu).
Qed.


(** *** The divisions of a path *)

(** The divisor of [normalize]. *)
Definition norm_of (a : Vec R) : R := sqrt (vx a * vx a + vy a * vy a + vz a * vz a).

(** The divisors of [uniformRandomPSA], with its two samples taken from [g]:
    those of the [normalize] of [createLocalCoord] and of its own. *)
Definition sample_defined (f : BRDF R) (n : Vec R) (g : RNG R) : Prop :=
  match f with
  | DiffuseBRDF _ =>
      let xi1 := draws g (pos g) in
      let xi2 := draws g (S (pos g)) in
      let z := sqrt xi1 in
      let r := sqrt (1 - z * z) in
      let phi := 2 * Rtrigo1.PI * xi2 in
      let '(u, v, w) := createLocalCoord n in
      norm_of (cross (if d_lt (lit 1 (-1)) (Rabs (vx n)) then mkVec (int 0) (int 1) (int 0)
                      else mkVec (int 1) (int 0) (int 0)) n) <> 0 /\
      norm_of (vadd (vadd (vscale u (r * cos phi)) (vscale v (r * sin phi))) (vscale w z)) <> 0
  | SpecularBRDF _ => True
  end.

(** The divisors of [eval]: none but [PI] for a diffuse surface; for a
    mirror those of its two [normalize], and [n.dot(i)]. *)
Definition eval_defined (f : BRDF R) (n o i : Vec R) : Prop :=
  match f with
  | DiffuseBRDF _ => True
  | SpecularBRDF _ =>
      norm_of (mirroredDirection n o) <> 0 /\ norm_of i <> 0 /\
      (within_tol (normalize i) (normalize (mirroredDirection n o)) = true -> dot n i <> 0)
  end.

(** The divisors of a call that hits sphere [id] at distance [t] and
    continues, in the order of the source: lines 288 and 290; for a surface
    that is not specular, the direction to the light point of the direct
    term, which is that of the shadow ray too, and [r2 * pdf1]; the divisors of
    [sample], of line 321, of [eval] at the direction sampled; and [pdf], the
    other factor of the divisor [pdf * p] being 1.0 or 0.9.  The divisors left
    are constants: [PI], and [4 PI r r] for the radius 5 of the light. *)
Definition level_defined (r : Ray R) (t : R) (id : nat) (g : RNG R) : Prop :=
  let h := hit_of r t id in
  let f := sph_brdf (hit_obj h) in
  let x := hit_x h in
  norm_of (vsub Vec0 (ray_d r)) <> 0 /\
  norm_of (vsub x (sph_p (hit_obj h))) <> 0 /\
  (isSpecular f = false ->
     let y1 := fst (fst (fst (luminaireSample (sphere_at 7) g))) in
     let pdf1 := snd (fst (luminaireSample (sphere_at 7) g)) in
     norm_of (vsub y1 x) <> 0 /\ dot (vsub x y1) (vsub x y1) * pdf1 <> 0) /\
  let g2 := advanced g (draws_of f + 1) in
  let s := sample f (hit_n h) (hit_o h) g2 in
  sample_defined f (hit_n h) g2 /\
  norm_of (fst (fst s)) <> 0 /\
  eval_defined f (hit_n h) (hit_o h) (normalize (fst (fst s))) /\
  snd (fst s) <> 0.

(** The divisors of a path of at most [fuel] calls that continues at every
    roulette test. *)
Fixpoint divisions_defined (fuel : nat) (r : Ray R) (g : RNG R) : Prop :=
  match fuel with
  | O => True
  | S fuel' =>
      let '(hit, t, id) := intersect r 0 in
      if negb hit then True
      else
        let '(_, r', g') := bounce r t id g in
        level_defined r t id g /\ divisions_defined fuel' r' g'
  end.

Lemma level_defined_from (r : Ray R) (t : R) (id : nat) (g g' : RNG R) :
  same_from g g' -> level_defined r t id g -> level_defined r t id g'.
Proof.
  intros H. unfold level_defined. cbv zeta.
  set (h := hit_of r t id). set (f := sph_brdf (hit_obj h)).
  rewrite (luminaireSample_next (sphere_at 7) g g' (same_from_next 2 g g' H)).
  rewrite (sample_next f (hit_n h) (hit_o h) _ _
             (same_from_next _ _ _ (same_from_advanced (draws_of f + 1) g g' H))).
  intros (H1 & H2 & H3 & H4 & H5). repeat split; try assumption.
  - apply H3. assumption.
  - apply H3. assumption.
  - revert H4. unfold sample_defined. destruct f as [kd | ks]; [| trivial].
    cbn [advanced pos draws]. rewrite (proj1 H), !(proj2 H) by lia. trivial.
  - apply H5.
  - apply H5.
  - apply H5.
Qed.

Lemma divisions_defined_from (fuel : nat) :
  forall r g g', same_from g g' -> divisions_defined fuel r g -> divisions_defined fuel r g'.
Proof.
  induction fuel as [| fuel IH]; intros r g g' H; cbn [divisions_defined]; [trivial |].
  destruct (intersect r 0) as [[hit t] id]. destruct (negb hit); [trivial |].
  destruct (bounce_from r t id g g' H) as [Hb Hg].
  destruct (bounce r t id g') as [[k' r''] g3']. destruct (bounce r t id g) as [[k r'] g3].
  cbn [fst snd] in Hb, Hg. injection Hb as -> ->.
  intros [Hl Hr]. split; [exact (level_defined_from r t id g g' H Hl) | exact (IH _ _ _ Hg Hr)].
Qed.

Lemma roulette_p_0 : roulette_p 0%Z = 1.
Proof. rewrite roulette_p_below by lia. cbn [lit exactR]. rewrite litR_int. reflexivity. Qed.

(** The mean over the roulette samples of a path, the other samples being
    those of [g]. *)
Lemma roulette_mean_over (c : Vec R -> R) (fuel : nat) :
  c = vx \/ c = vy \/ c = vz ->
  forall r depth flag g,
    (forall j, 0 <= draws g j < 1) ->
    divisions_defined fuel r g ->
    mean_over (roulette_draws fuel r g)
              (fun g' => c (radiance (receivedRadiance_cut fuel r depth flag g'))) g
              (c (radiance (always_continue fuel r 0%Z flag g))).
Proof.
  intros Hc. induction fuel as [| fuel IH]; intros r depth flag g Hg Hdef; [reflexivity |].
  cbn [roulette_draws divisions_defined receivedRadiance_cut always_continue] in *.
  unfold at_depth_0.
  destruct (intersect r 0) as [[[|] t] id] eqn:Hi; cbn [negb] in *.
  2:{ cbn [mean_over]. rewrite !(body_miss _ r _ flag g t id Hi). reflexivity. }
  rewrite bounce_eq in *. cbv zeta in *. destruct Hdef as [Hlevel Hrest].
  set (h := hit_of r t id) in *. set (f := sph_brdf (hit_obj h)) in *.
  set (k := (pos g + draws_of f)%nat).
  set (s := sample f (hit_n h) (hit_o h) (advanced g (draws_of f + 1))) in *.
  set (i := normalize (fst (fst s))) in *. set (pdf := snd (fst s)).
  set (r' := mkRay (hit_x h) i) in *.
  set (g3 := advanced g (draws_before f)) in *.
  set (direct := fst (direct_term h g)).
  set (recA := radiance (always_continue fuel r' 0%Z (isSpecular f) g3)).
  set (p := roulette_p depth).
  assert (Hpdf : pdf <> 0) by (apply Hlevel).
  assert (Hp : 0 <= p <= 1) by apply roulette_p_unit.
  assert (Hp0 : p <> 0) by apply roulette_p_nonzero.
  set (base := c (with_emission flag (hit_obj h) direct)).
  set (e := c (eval f (hit_n h) (hit_o h) i)).
  (* the estimator that always continues *)
  assert (HC : c (radiance (receivedRadiance_body (always_continue fuel) r 0%Z flag g))
               = base + e * (dot (hit_n h) i / (pdf * 1)) * c recA).
  { rewrite (body_on _ r 0%Z flag g g t id Hi eq_refl (fun j _ _ => eq_refl)). cbv zeta.
    fold h f k s i pdf r' g3 direct. rewrite roulette_p_0.
    replace (d_lt (draws g k) 1) with true
      by (symmetry; apply Rltb_true, Hg).
    rewrite (always_continue_depth fuel r' (0 + 1)%Z 0%Z).
    destruct (always_continue_returns fuel r' 0%Z (isSpecular f) g3) as (rec & g4 & E).
    unfold recA. rewrite E. cbn [radiance].
    apply (bounce_component c flag (hit_obj h) f _ _ _ _ _ _ _ Hc). }
  rewrite HC. cbn [mean_over].
  exists (roulette_value p (base + e * (dot (hit_n h) i / (pdf * p)) * c recA) base).
  split.
  2:{ replace (base + e * (dot (hit_n h) i / (pdf * 1)) * c recA)
        with (p * (base + e * (dot (hit_n h) i / (pdf * p)) * c recA) + (1 - p) * base)
        by (field; split; assumption).
      apply is_mean_roulette, Hp. }
  intros u Hu.
  set (gu := set_draw g k u).
  assert (Htail : forall j, In j (roulette_draws fuel r' g3) -> (pos g + draws_before f <= j)%nat).
  { intros j Hj. apply roulette_draws_ge in Hj. exact Hj. }
  assert (Hread : forall g'', agree_off (roulette_draws fuel r' g3) gu g'' ->
            pos g'' = pos g /\
            (forall j, (pos g <= j < pos g + draws_before f)%nat -> j <> k -> draws g'' j = draws g j) /\
            draws g'' k = u).
  { intros g'' [Hpos Hd]. split; [exact Hpos |]. split.
    - intros j Hj Hjk. rewrite Hd by (intros Hin; apply Htail in Hin; lia).
      unfold gu. cbn [set_draw draws]. destruct (Nat.eqb_spec j k); [contradiction | reflexivity].
    - rewrite Hd by (intros Hin; apply Htail in Hin; unfold draws_before, k in *; lia).
      unfold gu. cbn [set_draw draws]. rewrite Nat.eqb_refl. reflexivity. }
  unfold roulette_value. destruct (d_lt u p) eqn:Hup.
  - (* the path continues *)
    assert (Hsame : same_from g3 (mkRNG (draws gu) (pos g3))).
    { split; [reflexivity |]. intros j Hj. unfold gu. cbn [set_draw draws].
      destruct (Nat.eqb_spec j k) as [-> | _]; [| reflexivity].
      unfold g3, draws_before, k in Hj. cbn [advanced pos] in Hj. lia. }
    pose proof (IH r' (depth + 1)%Z (isSpecular f) (mkRNG (draws gu) (pos g3))) as IH'.
    rewrite (roulette_draws_from fuel r' g3 _ Hsame) in IH'.
    rewrite (always_continue_from fuel r' 0%Z (isSpecular f) g3 _ Hsame) in IH'.
    fold recA in IH'.
    assert (Hrange : forall j, 0 <= draws (mkRNG (draws gu) (pos g3)) j < 1).
    { intros j. unfold gu. cbn [set_draw draws]. destruct (Nat.eqb j k); [exact Hu | apply Hg]. }
    specialize (IH' Hrange (divisions_defined_from fuel r' g3 _ Hsame Hrest)).
    apply mean_over_shift in IH'.
    apply (mean_over_affine _ _ base (e * (dot (hit_n h) i / (pdf * p)))) in IH'.
    revert IH'. apply mean_over_ext. intros g'' Hg''.
    destruct (Hread g'' Hg'') as (Hpos & Hd & Hk).
    rewrite (body_on _ r depth flag g g'' t id Hi Hpos Hd). cbv zeta.
    fold h f k s i pdf r' direct p. rewrite Hk, Hup.
    replace (advanced g'' (draws_before f)) with (mkRNG (draws g'') (pos g3))
      by (unfold advanced, g3; cbn [advanced pos]; rewrite Hpos; reflexivity).
    destruct (receivedRadiance_cut_returns fuel r' (depth + 1)%Z (isSpecular f)
                (mkRNG (draws g'') (pos g3))) as (rec & g4 & E).
    rewrite E. cbn [radiance]. symmetry.
    apply (bounce_component c flag (hit_obj h) f _ _ _ _ _ _ _ Hc).
  - (* the path ends *)
    apply mean_over_const. intros g'' Hg''.
    destruct (Hread g'' Hg'') as (Hpos & Hd & Hk).
    rewrite (body_on _ r depth flag g g'' t id Hi Hpos Hd). cbv zeta.
    fold h f k s i pdf r' direct p. rewrite Hk, Hup. reflexivity.
Qed.



(** *** Hits in the scene *)

Lemma norm_of_dot (v : Vec R) : norm_of v = sqrt (dot v v).
Proof. reflexivity. Qed.

Lemma norm_of_not_null (v : Vec R) : 0 < dot v v -> norm_of v <> 0.
Proof.
  intros Hv. rewrite norm_of_dot. pose proof (sqrt_lt_R0 _ Hv). lra.
Qed.

(** The direction [uniformRandomPSA] returns is the combination of the
    local frame it computes, which has length 1 already. *)
Lemma uniformRandomPSA_frame (n o : Vec R) (g : RNG R) :
  dot n n = 1 ->
  0 <= draws g (pos g) <= 1 ->
  let z := sqrt (draws g (pos g)) in
  let q := sqrt (1 - z * z) in
  let phi := 2 * Rtrigo1.PI * draws g (S (pos g)) in
  let '(u, v, w) := createLocalCoord n in
  let i0 := vadd (vadd (vscale u (q * cos phi)) (vscale v (q * sin phi))) (vscale w z) in
  dot i0 i0 = 1 /\ fst (uniformRandomPSA n o g) = (i0, z / Rtrigo1.PI).
Proof.
  intros Hn Hxi. cbv zeta.
  pose proof (local_frame n Hn) as Hframe.
  unfold uniformRandomPSA, rng. cbn [fst snd draws pos].
  destruct (createLocalCoord n) as [[u v] w].
  destruct Hframe as (Hw & Hu & Hv & Huv & Huw & Hvw & _).
  cbn [fst snd]. cbn [d_sqrt d_mul d_sub d_cos d_sin d_div lit PI exactR]. rewrite !litR_int.
  set (xi := draws g (pos g)) in *.
  set (z := sqrt xi).
  set (q := sqrt (1 - z * z)).
  set (c := cos _). set (s := sin _).
  assert (Hz : z * z = xi) by (apply sqrt_sqrt; lra).
  assert (Hq : q * q = 1 - z * z) by (apply sqrt_sqrt; lra).
  assert (Hcs : s * s + c * c = 1) by apply sin_cos_square.
  assert (Hww : dot w w = 1) by (rewrite Hw; exact Hn).
  destruct (frame_combination u v w (q * c) (q * s) z Hu Hv Hww Huv Huw Hvw) as [Hii Hwi].
  cbv zeta in Hii, Hwi.
  set (i0 := vadd (vadd (vscale u (q * c)) (vscale v (q * s))) (vscale w z)) in *.
  assert (Hunit : dot i0 i0 = 1).
  { rewrite Hii. replace (q * c * (q * c) + q * s * (q * s)) with ((q * q) * (s * s + c * c)) by ring.
    rewrite Hq, Hcs. ring. }
  split; [exact Hunit |].
  rewrite (normalize_of_unit i0 Hunit). rewrite <- Hw, Hwi. reflexivity.
Qed.

(** After a hit of sphere [id] by a ray whose direction has length 1, the
    normal has length 1. *)
Lemma hit_of_unit (r : Ray R) (id : nat) :
  (id < 8)%nat ->
  dot (ray_d r) (ray_d r) = 1 ->
  Sphere_intersect (sphere_at id) r <> 0 ->
  let h := hit_of r (Sphere_intersect (sphere_at id) r) id in
  0 < dot (vsub (hit_x h) (sph_p (sphere_at id))) (vsub (hit_x h) (sph_p (sphere_at id))) /\
  dot (hit_n h) (hit_n h) = 1.
Proof.
  intros Hid Hd Hhit h. set (s := sphere_at id) in *.
  destruct (hit_point_on_sphere s r Hd Hhit) as [_ Hon]. cbv zeta in Hon.
  pose proof (scene_radius id Hid) as Hrad. fold s in Hrad.
  unfold h, hit_of. cbn [hit_x hit_o hit_n hit_obj]. fold s.
  set (x := vadd (ray_o r) (vscale (ray_d r) (Sphere_intersect s r))) in *.
  set (c := vsub x (sph_p s)) in *.
  assert (Hc : 0 < dot c c) by (rewrite Hon; nra).
  split; [exact Hc |].
  pose proof (normalize_unit c Hc) as Hunit.
  destruct (d_lt _ _); [| exact Hunit].
  rewrite dot_vscale_l, dot_vscale_r, Hunit. cbn [d_neg lit exactR]. rewrite litR_int. ring.
Qed.

(** The divisors of a call that hits a diffuse sphere of the scene. *)
Lemma level_defined_diffuse (r : Ray R) (id : nat) (g : RNG R) :
  (id < 8)%nat ->
  dot (ray_d r) (ray_d r) = 1 ->
  Sphere_intersect (sphere_at id) r <> 0 ->
  isSpecular (sph_brdf (sphere_at id)) = false ->
  let h := hit_of r (Sphere_intersect (sphere_at id) r) id in
  let y1 := fst (fst (fst (luminaireSample (sphere_at 7) g))) in
  0 < dot (vsub y1 (hit_x h)) (vsub y1 (hit_x h)) ->
  0 < draws g (pos g + 3) <= 1 ->
  level_defined r (Sphere_intersect (sphere_at id) r) id g.
Proof.
  intros Hid Hd Hhit Hf h y1 Hy Hxi.
  destruct (hit_of_unit r id Hid Hd Hhit) as [Hc Hn]. fold h in Hc, Hn.
  unfold level_defined. cbv zeta. fold h.
  change (hit_obj h) with (sphere_at id).
  destruct (sph_brdf (sphere_at id)) as [kd | ks] eqn:Hb; [| discriminate].
  cbn [draws_of isSpecular sample sample_defined eval_defined].
  pose proof (uniformRandomPSA_frame (hit_n h) (hit_o h) (advanced g (2 + 1)) Hn) as HP.
  cbn [advanced pos draws] in HP. change (2 + 1)%nat with 3%nat in *.
  specialize (HP (conj (Rlt_le _ _ (proj1 Hxi)) (proj2 Hxi))). cbv zeta in HP.
  pose proof (axis_cross_not_null (hit_n h) Hn) as Hax. cbv zeta in Hax.
  cbn [advanced pos draws].
  destruct (createLocalCoord (hit_n h)) as [[u v] w].
  destruct HP as [Hunit HP]. rewrite HP. cbn [fst snd].
  split.
  { apply norm_of_not_null.
    replace (dot (vsub Vec0 (ray_d r)) (vsub Vec0 (ray_d r))) with (dot (ray_d r) (ray_d r))
      by (destruct (ray_d r) as [dx dy dz]; to_R; rewrite litR_int; ring).
    rewrite Hd. lra. }
  split; [apply norm_of_not_null, Hc |].
  split.
  { intros _. fold y1. split; [apply norm_of_not_null, Hy |].
    assert (Hpdf : snd (fst (luminaireSample (sphere_at 7) g)) = 1 / (4 * Rtrigo1.PI * (5 * 5))).
    { unfold luminaireSample, rng. cbn [fst snd]. rewrite light_radius.
      cbn [d_div d_mul int lit PI exactR]. rewrite !litR_int. reflexivity. }
    rewrite Hpdf. pose proof PI_RGT_0 as Hpi.
    assert (Hr2 : dot (vsub (hit_x h) y1) (vsub (hit_x h) y1)
                  = dot (vsub y1 (hit_x h)) (vsub y1 (hit_x h))).
    { destruct (hit_x h), y1. to_R. ring. }
    rewrite Hr2. apply Rmult_integral_contrapositive. split; [lra |].
    unfold Rdiv. apply Rmult_integral_contrapositive. split; [lra |].
    apply Rinv_neq_0_compat. nra. }
  split.
  { split; [apply norm_of_not_null, Hax | apply norm_of_not_null; rewrite Hunit; lra]. }
  split; [apply norm_of_not_null; rewrite Hunit; lra |].
  split; [exact I |].
  pose proof PI_RGT_0 as Hpi.
  assert (Hz : 0 < sqrt (draws g (pos g + 3))) by (apply sqrt_lt_R0; lra).
  unfold Rdiv. apply Rmult_integral_contrapositive. split; [lra |].
  apply Rinv_neq_0_compat. lra.
Qed.


Lemma Rltb_irrefl (a : R) : Rltb a a = false.
Proof. apply Rltb_false. lra. Qed.

Lemma Rltb_trans (a b c : R) : Rltb a b = true -> Rltb b c = true -> Rltb a c = true.
Proof. rewrite !Rltb_true. lra. Qed.

Lemma Rnonzero_true (a : R) : Rnonzero a = true <-> a <> 0.
Proof.
  unfold Rnonzero. destruct (Req_dec_T a 0); split; intros; try assumption;
    try reflexivity; try discriminate; contradiction.
Qed.

Lemma litR_inf : litR 1 20 = 100000000000000000000.
Proof. unfold litR, powerRZ. simpl. lra. Qed.

(** The sphere hit is the only one at the least distance. *)
Lemma intersect_nearest (r : Ray R) (id : nat) (T : R) :
  (id < 8)%nat ->
  Sphere_intersect (sphere_at id) r = T -> T <> 0 -> T < 100000000000000000000 ->
  (forall j, (j < 8)%nat -> j <> id ->
             Sphere_intersect (sphere_at j) r = 0 \/ T < Sphere_intersect (sphere_at j) r) ->
  intersect r 0 = (true, T, id).
Proof.
  intros Hid HT Hnz Hinf Hothers. unfold intersect.
  destruct (intersect_loop r (List.length spheres) (lit 1 20) 0) as [t' id'] eqn:Hl.
  destruct (@intersect_loop_least R exactR Rltb_irrefl Rltb_trans r _ _ _ _ _ Hl) as [_ Hleast].
  specialize (Hleast id Hid). rewrite HT in Hleast.
  specialize (Hleast (proj2 (Rnonzero_true T) Hnz)). apply Rltb_false in Hleast.
  cbn [lit exactR] in *. rewrite litR_inf in *.
  destruct (intersect_loop_found r _ _ _ _ _ Hl) as [[Ht _] | (Hid' & Ht & Hnz')].
  - subst t'. lra.
  - apply Rnonzero_true in Hnz'.
    destruct (Nat.eq_dec id' id) as [-> | Hne].
    + rewrite HT in Ht. subst t'. cbn [d_lt exactR].
      replace (Rltb T 100000000000000000000) with true by (symmetry; apply Rltb_true, Hinf).
      reflexivity.
    + destruct (Hothers id' Hid' Hne) as [H0 | Hfar]; [rewrite <- Ht in H0; contradiction |].
      rewrite <- Ht in Hfar. lra.
Qed.

Lemma Sphere_intersect_none (s : Sphere R) (r : Ray R) :
  discriminant s r < 0 -> Sphere_intersect s r = 0.
Proof.
  intros Hd. rewrite Sphere_intersect_R. cbv zeta.
  destruct (Rlt_dec (discriminant s r) 0); [reflexivity | contradiction].
Qed.

(** A sphere whose near root is not above 1e-4 and whose far root is beyond [T]. *)
Lemma Sphere_intersect_far (s : Sphere R) (r : Ray R) (L T : R) :
  let b := dot (vsub (sph_p s) (ray_o r)) (ray_d r) in
  0 <= L -> L * L <= discriminant s r -> b - L <= / 10000 -> T < b + L ->
  Sphere_intersect s r = 0 \/ T < Sphere_intersect s r.
Proof.
  intros b HL Hdet Hnear Hfar. rewrite Sphere_intersect_R. cbv zeta. fold b.
  assert (Hs : L <= sqrt (discriminant s r)).
  { rewrite <- (sqrt_square L HL). apply sqrt_le_1_alt, Hdet. }
  destruct (Rlt_dec (discriminant s r) 0); [left; reflexivity |].
  destruct (Rlt_dec (/ 10000) (b - sqrt (discriminant s r))); [lra |].
  destruct (Rlt_dec (/ 10000) (b + sqrt (discriminant s r))); [right; lra | left; reflexivity].
Qed.

(** The numbers of the scene. *)
Lemma scene_numbers :
  litR 1 5 = 100000 /\ litR 408 (-1) = 204 / 5 /\ litR 816 (-1) = 408 / 5 /\
  litR 165 (-1) = 33 / 2 /\ litR 50 (-1) = 5 /\ litR 700 (-1) = 70.
Proof. unfold litR, powerRZ. simpl. repeat split; lra. Qed.

Ltac scene_R :=
  destruct scene_numbers as (H1e5 & H408 & H816 & H165 & H50 & H700);
  cbn; rewrite ?litR_int, ?H1e5, ?H408, ?H816, ?H165, ?H50, ?H700.

(** A sphere behind the ray: both roots are at most 1e-4. *)
Lemma Sphere_intersect_behind (s : Sphere R) (r : Ray R) (U : R) :
  let b := dot (vsub (sph_p s) (ray_o r)) (ray_d r) in
  0 <= U -> discriminant s r <= U * U -> b + U <= / 10000 ->
  Sphere_intersect s r = 0.
Proof.
  intros b HU Hup Hfar. rewrite Sphere_intersect_R. cbv zeta. fold b.
  assert (Hs' : sqrt (discriminant s r) <= U).
  { rewrite <- (sqrt_square U HU). apply sqrt_le_1_alt, Hup. }
  pose proof (sqrt_pos (discriminant s r)) as Hp.
  destruct (Rlt_dec (discriminant s r) 0); [reflexivity |].
  destruct (Rlt_dec (/ 10000) (b - sqrt (discriminant s r))); [lra |].
  destruct (Rlt_dec (/ 10000) (b + sqrt (discriminant s r))); [lra | reflexivity].
Qed.

(** A sphere hit at its near root. *)
Lemma Sphere_intersect_near (s : Sphere R) (r : Ray R) (L U : R) :
  let b := dot (vsub (sph_p s) (ray_o r)) (ray_d r) in
  0 <= L -> L * L <= discriminant s r -> 0 <= U -> discriminant s r <= U * U ->
  / 10000 < b - U ->
  b - U <= Sphere_intersect s r <= b - L.
Proof.
  intros b HL Hlow HU Hup Hnear. rewrite Sphere_intersect_R. cbv zeta. fold b.
  assert (Hs : L <= sqrt (discriminant s r)).
  { rewrite <- (sqrt_square L HL). apply sqrt_le_1_alt, Hlow. }
  assert (Hs' : sqrt (discriminant s r) <= U).
  { rewrite <- (sqrt_square U HU). apply sqrt_le_1_alt, Hup. }
  destruct (Rlt_dec (discriminant s r) 0); [nra |].
  destruct (Rlt_dec (/ 10000) (b - sqrt (discriminant s r))); lra.
Qed.

(** The sphere hit, when every other is missed or beyond a bound [B] on its
    distance. *)
Lemma intersect_nearest_within (r : Ray R) (id : nat) (B : R) :
  (id < 8)%nat ->
  Sphere_intersect (sphere_at id) r <> 0 ->
  Sphere_intersect (sphere_at id) r <= B -> B < 100000000000000000000 ->
  (forall j, (j < 8)%nat -> j <> id ->
             Sphere_intersect (sphere_at j) r = 0 \/ B < Sphere_intersect (sphere_at j) r) ->
  intersect r 0 = (true, Sphere_intersect (sphere_at id) r, id).
Proof.
  intros Hid Hnz HB Hinf Hothers.
  apply intersect_nearest; [exact Hid | reflexivity | exact Hnz | lra |].
  intros j Hj Hne. destruct (Hothers j Hj Hne) as [H0 | Hfar]; [left; exact H0 | right; lra].
Qed.

(** *** A path in the scene: the mirror ball, then the light *)

(** A ray that falls on the top of the mirror ball (sphere 6) from the right
    and from above, and the ray the mirror sends back: it goes up to the
    left and meets the light (sphere 7). *)
Definition ray_in : Ray R := mkRay (mkVec 87 (111 / 2) 78) (mkVec (- 28 / 53) (- 45 / 53) 0).
Definition ray_out : Ray R := mkRay (mkVec 73 33 78) (mkVec (- 28 / 53) (45 / 53) 0).

(** Samples for the path: roulette 0 on the mirror; on the light, light
    sample (0, 0), roulette 0, bounce (1/4, 0). *)
Definition path_engine : RNG R := mkRNG (fun j => match j with 4%nat => / 4 | _ => 0 end) 0.

Lemma ray_in_hit : Sphere_intersect (sphere_at 6) ray_in = 53 / 2.
Proof.
  rewrite Sphere_intersect_R. cbv zeta.
  assert (Hb : dot (vsub (sph_p (sphere_at 6)) (ray_o ray_in)) (ray_d ray_in) = 2147 / 53)
    by (scene_R; lra).
  assert (Hdet : discriminant (sphere_at 6) ray_in = (1485 / 106) * (1485 / 106))
    by (unfold discriminant; scene_R; lra).
  rewrite Hb, Hdet, sqrt_square by lra.
  destruct (Rlt_dec (1485 / 106 * (1485 / 106)) 0); [lra |].
  destruct (Rlt_dec (/ 10000) (2147 / 53 - 1485 / 106)); lra.
Qed.

Lemma ray_in_intersect : intersect ray_in 0 = (true, 53 / 2, 6%nat).
Proof.
  apply intersect_nearest; [lia | apply ray_in_hit | lra | lra |].
  intros j Hj Hne.
  destruct j as [| [| [| [| [| [| [| [| j]]]]]]]]; try lia.
  - apply (Sphere_intersect_far _ _ 52799 (53 / 2)); unfold discriminant; scene_R; lra.
  - apply (Sphere_intersect_far _ _ 52837 (53 / 2)); unfold discriminant; scene_R; lra.
  - apply (Sphere_intersect_far _ _ 33 (53 / 2)); unfold discriminant; scene_R; lra.
  - apply (Sphere_intersect_far _ _ 84866 (53 / 2)); unfold discriminant; scene_R; lra.
  - apply (Sphere_intersect_far _ _ 84904 (53 / 2)); unfold discriminant; scene_R; lra.
  - left. apply Sphere_intersect_none. unfold discriminant. scene_R. lra.
  - left. apply Sphere_intersect_none. unfold discriminant. scene_R. lra.
Qed.

Lemma ray_out_intersect :
  exists t, intersect ray_out 0 = (true, t, 7%nat) /\
            t = Sphere_intersect (sphere_at 7) ray_out /\ t <> 0.
Proof.
  assert (Hb : dot (vsub (sph_p (sphere_at 7)) (ray_o ray_out)) (ray_d ray_out) = 2309 / 53)
    by (scene_R; lra).
  pose proof (Sphere_intersect_near (sphere_at 7) ray_out 3 4) as H7.
  cbv zeta in H7. rewrite Hb in H7.
  assert (H : 2309 / 53 - 4 <= Sphere_intersect (sphere_at 7) ray_out <= 2309 / 53 - 3).
  { apply H7; try lra; unfold discriminant; scene_R; lra. }
  exists (Sphere_intersect (sphere_at 7) ray_out).
  split; [| split; [reflexivity | lra]].
  apply (intersect_nearest_within ray_out 7 44); [lia | lra | lra | lra |].
  intros j Hj Hne.
  destruct j as [| [| [| [| [| [| [| [| j]]]]]]]]; try lia.
  - apply (Sphere_intersect_far _ _ 52830 44); unfold discriminant; scene_R; lra.
  - apply (Sphere_intersect_far _ _ 52824 44); unfold discriminant; scene_R; lra.
  - apply (Sphere_intersect_far _ _ 26 44); unfold discriminant; scene_R; lra.
  - apply (Sphere_intersect_far _ _ 84890 44); unfold discriminant; scene_R; lra.
  - apply (Sphere_intersect_far _ _ 84897 44); unfold discriminant; scene_R; lra.
  - left. apply Sphere_intersect_none. unfold discriminant. scene_R. lra.
  - left. apply (Sphere_intersect_behind _ _ (1485 / 106)); unfold discriminant; scene_R; lra.
Qed.


Lemma ray_in_frame :
  hit_of ray_in (53 / 2) 6
  = mkHit (sphere_at 6) (mkVec 73 33 78) (mkVec (28 / 53) (45 / 53) 0) (mkVec 0 1 0).
Proof.
  assert (Hx : vadd (ray_o ray_in) (vscale (ray_d ray_in) (53 / 2)) = mkVec 73 33 78)
    by (unfold ray_in, vadd, vscale; cbn [ray_o ray_d]; to_R; f_equal; lra).
  assert (Ho : normalize (vsub Vec0 (ray_d ray_in)) = mkVec (28 / 53) (45 / 53) 0).
  { rewrite normalize_of_unit; unfold ray_in, vsub, Vec0, dot; cbn [ray_d]; to_R;
      rewrite ?litR_int; [f_equal; lra | lra]. }
  assert (Hn : normalize (vsub (mkVec 73 33 78) (sph_p (sphere_at 6))) = mkVec 0 1 0).
  { assert (Hc : vsub (mkVec 73 33 78) (sph_p (sphere_at 6)) = mkVec 0 (33 / 2) 0)
      by (unfold vsub; scene_R; f_equal; lra).
    rewrite Hc, normalize_scale.
    replace (dot (mkVec 0 (33 / 2) 0) (mkVec 0 (33 / 2) 0)) with ((33 / 2) * (33 / 2))
      by (to_R; ring).
    rewrite sqrt_square by lra. unfold vscale. to_R. f_equal; lra. }
  unfold hit_of. rewrite Hx, Ho, Hn.
  replace (d_lt (dot (mkVec 0 1 0) (mkVec (28 / 53) (45 / 53) 0)) (int 0)) with false;
    [reflexivity |].
  symmetry. cbn [d_lt int lit exactR]. apply Rltb_false. to_R. rewrite litR_int. lra.
Qed.

Lemma mirror_direction :
  mirroredDirection (mkVec 0 1 0) (mkVec (28 / 53) (45 / 53) 0) = mkVec (- 28 / 53) (45 / 53) 0.
Proof. rewrite mirroredDirection_R. unfold vsub, vscale. to_R. f_equal; lra. Qed.

Lemma ray_out_unit :
  dot (mkVec (- 28 / 53) (45 / 53) 0) (mkVec (- 28 / 53) (45 / 53) 0) = 1.
Proof. cbn. lra. Qed.

Lemma ray_in_bounce (g : RNG R) : bounce ray_in (53 / 2) 6 g = (pos g, ray_out, advanced g 1).
Proof.
  rewrite bounce_eq. cbv zeta. rewrite ray_in_frame. cbn [hit_obj hit_x hit_n hit_o].
  change (sph_brdf (sphere_at 6)) with (@shinySurf R exactR).
  unfold shinySurf. cbn [draws_of draws_before isSpecular sample fst snd Nat.add].
  rewrite mirror_direction, (normalize_of_unit _ ray_out_unit), Nat.add_0_r. reflexivity.
Qed.

(** The divisors of the call on the mirror. *)
Lemma level_defined_mirror (g : RNG R) : level_defined ray_in (53 / 2) 6 g.
Proof.
  unfold level_defined. cbv zeta. rewrite ray_in_frame. cbn [hit_obj hit_x hit_n hit_o].
  change (sph_brdf (sphere_at 6)) with (@shinySurf R exactR).
  unfold shinySurf. cbn [draws_of isSpecular sample sample_defined eval_defined fst snd].
  rewrite mirror_direction, (normalize_of_unit _ ray_out_unit).
  assert (Hout : norm_of (mkVec (- 28 / 53) (45 / 53) 0) <> 0)
    by (apply norm_of_not_null; to_R; lra).
  split; [apply norm_of_not_null; unfold ray_in; cbn [ray_d]; to_R; rewrite litR_int; lra |].
  split; [apply norm_of_not_null; scene_R; lra |].
  split; [discriminate |].
  split; [exact I |]. split; [exact Hout |].
  split; [split; [exact Hout | split; [exact Hout | intros _; to_R; lra]] |].
  cbn [lit exactR]. rewrite litR_int. lra.
Qed.

(** The point sampled on the light with a first sample 0 is its lowest in z. *)
Lemma light_point_z (g : RNG R) :
  draws g (pos g) = 0 -> vz (fst (fst (fst (luminaireSample (sphere_at 7) g)))) = 383 / 5.
Proof.
  intros H0. unfold luminaireSample, rng. cbn [fst snd draws pos]. rewrite H0.
  scene_R. lra.
Qed.

Lemma divisions_defined_path : divisions_defined 2 ray_in path_engine.
Proof.
  cbn [divisions_defined]. rewrite ray_in_intersect. cbn [negb].
  rewrite ray_in_bounce. split; [apply level_defined_mirror |].
  destruct ray_out_intersect as (t & Hi & Ht & Hnz).
  rewrite Hi. cbn [negb].
  destruct (bounce ray_out t 7 (advanced path_engine 1)) as [[k r'] g']. split; [| exact I].
  rewrite Ht. apply level_defined_diffuse.
  - lia.
  - exact ray_out_unit.
  - rewrite <- Ht. exact Hnz.
  - reflexivity.
  - pose proof (light_point_z (advanced path_engine 1) eq_refl) as Hz.
    destruct (fst (fst (fst (luminaireSample (sphere_at 7) (advanced path_engine 1))))) as [a b c].
    cbn [vz] in Hz. subst c. unfold hit_of. cbn [hit_x]. unfold ray_out. cbn [ray_o ray_d].
    to_R. set (T := Sphere_intersect _ _).
    pose proof (Rle_0_sqr (a - (73 + - 28 / 53 * T))) as Ha.
    pose proof (Rle_0_sqr (b - (33 + 45 / 53 * T))) as Hb.
    unfold Rsqr in *. lra.
  - cbn. lra.
Qed.

Lemma roulette_draws_path : roulette_draws 2 ray_in path_engine = [0%nat; 3%nat].
Proof.
  cbn [roulette_draws]. rewrite ray_in_intersect. cbn [negb].
  rewrite ray_in_bounce.
  destruct ray_out_intersect as (t & Hi & _).
  rewrite Hi. cbn [negb]. rewrite bounce_eq. reflexivity.
Qed.


(** The value of a call on the light, with the remainder of the path black:
    the emission, the surface of the light being black. *)
Lemma light_value (d : Z) (g : RNG R) :
  radiance (receivedRadiance_body black ray_out d true g) = mkVec 50 50 50.
Proof.
  destruct ray_out_intersect as (t & Hi & _).
  rewrite (body_on black ray_out d true g g t 7 Hi eq_refl (fun _ _ _ => eq_refl)). cbv zeta.
  set (h := hit_of ray_out t 7).
  change (hit_obj h) with (sphere_at 7).
  assert (Hd : fst (direct_term h g) = mkVec 0 0 0).
  { unfold direct_term, directRadiance. change (hit_obj h) with (sphere_at 7).
    change (sph_brdf (sphere_at 7)) with (@blackSurf R exactR). unfold blackSurf.
    cbn [isSpecular negb eval].
    destruct (luminaireSample (sphere_at 7) g) as [[[y1 sn] pdf1] g1]. cbn [fst].
    unfold vscale, mult, V. to_R. rewrite !litR_int. f_equal; ring. }
  rewrite Hd.
  assert (He : sph_e (sphere_at 7) = mkVec 50 50 50) by (scene_R; reflexivity).
  destruct (d_lt _ _); unfold black; cbn [radiance]; unfold with_emission; rewrite He.
  - unfold indirect, vadd, vscale, mult, Vec0. to_R. rewrite !litR_int. f_equal; ring.
  - unfold vadd. to_R. f_equal; ring.
Qed.

Lemma eval_mirror :
  eval shinySurf (mkVec 0 1 0) (mkVec (28 / 53) (45 / 53) 0) (mkVec (- 28 / 53) (45 / 53) 0)
  = vscale (mkVec (999 / 1000) (999 / 1000) (999 / 1000)) (53 / 45).
Proof.
  unfold shinySurf. cbn [eval]. rewrite mirror_direction, (normalize_of_unit _ ray_out_unit).
  assert (Htol : within_tol (mkVec (- 28 / 53) (45 / 53) 0) (mkVec (- 28 / 53) (45 / 53) 0) = true).
  { unfold within_tol. to_R. rewrite !Rminus_diag, Rabs_R0, litR_eps.
    assert (Hle : Rleb 0 (/ 10000) = true)
      by (unfold Rleb; destruct (Rle_dec 0 (/ 10000)); [reflexivity | lra]).
    rewrite Hle. reflexivity. }
  rewrite Htol.
  assert (H999 : litR 999 (-3) = 999 / 1000) by (unfold litR, powerRZ; simpl; lra).
  unfold vscale, V. to_R. rewrite litR_int, H999. f_equal; field.
Qed.

Lemma roulette_p_5 : roulette_p 5%Z = 9 / 10.
Proof. rewrite roulette_p_from5 by lia. cbn [lit exactR]. apply litR_09. Qed.

(** The value of a call on the mirror, the nested call being on the light:
    at depth [d], with [p] the continuation probability there, 50 ks / p
    when the roulette sample is below [p], and black otherwise. *)
Lemma mirror_value (self : Estimator R) (d : Z) (g : RNG R) :
  (forall d' g', radiance (self ray_out d' true g') = mkVec 50 50 50) ->
  returns self ->
  vx (radiance (receivedRadiance_body self ray_in d true g))
  = if d_lt (draws g (pos g)) (roulette_p d) then 999 / 20 / roulette_p d else 0.
Proof.
  intros Hself Hret.
  rewrite (body_on self ray_in d true g g (53 / 2) 6 ray_in_intersect eq_refl
             (fun _ _ _ => eq_refl)). cbv zeta.
  rewrite ray_in_frame. cbn [hit_obj hit_x hit_n hit_o].
  change (sph_brdf (sphere_at 6)) with (@shinySurf R exactR).
  assert (Hdraws : draws_of (@shinySurf R exactR) = 0%nat) by reflexivity.
  assert (Hspec : isSpecular (@shinySurf R exactR) = true) by reflexivity.
  assert (Hs : forall g0, sample shinySurf (mkVec 0 1 0) (mkVec (28 / 53) (45 / 53) 0) g0
                          = ((mkVec (- 28 / 53) (45 / 53) 0, 1), g0)).
  { intros g0. unfold shinySurf. cbn [sample]. rewrite mirror_direction.
    cbn [lit exactR]. rewrite litR_int. reflexivity. }
  assert (Hdir : forall g0, fst (direct_term (mkHit (sphere_at 6) (mkVec 73 33 78)
                                    (mkVec (28 / 53) (45 / 53) 0) (mkVec 0 1 0)) g0) = Vec0)
    by reflexivity.
  rewrite Hdraws, Hspec, Hs, Hdir, Nat.add_0_r. cbn [fst snd].
  rewrite (normalize_of_unit _ ray_out_unit). fold ray_out.
  assert (He : sph_e (sphere_at 6) = mkVec 0 0 0)
    by (change (sph_e (sphere_at 6)) with (@Vec0 R exactR); unfold Vec0; to_R;
        rewrite !litR_int; reflexivity).
  destruct (d_lt (draws g (pos g)) (roulette_p d)).
  - pose proof (Hself (d + 1)%Z (advanced g (draws_before shinySurf))) as Hrec.
    destruct (Hret ray_out (d + 1)%Z true (advanced g (draws_before shinySurf)))
      as (rec & g4 & E).
    rewrite E in *. cbn [radiance] in *. subst rec.
    unfold with_emission, indirect. rewrite He, eval_mirror.
    unfold vadd, vscale, mult, Vec0. to_R. rewrite !litR_int.
    pose proof (roulette_p_nonzero d) as Hp. field. exact Hp.
  - cbn [radiance]. unfold with_emission. rewrite He. unfold vadd, Vec0. to_R.
    rewrite !litR_int. ring.
Qed.

(** A call of the estimator that always continues, on samples below 1: it
    recurses, and weighs the recursive result by [n.dot(i) / (pdf * 1)]. *)
Lemma always_continue_step (fuel : nat) (r : Ray R) (flag : bool) (g : RNG R) (t : R) (id : nat) :
  (forall j, 0 <= draws g j < 1) ->
  intersect r 0 = (true, t, id) ->
  let h := hit_of r t id in
  let f := sph_brdf (hit_obj h) in
  let direct := fst (direct_term h g) in
  let s := sample f (hit_n h) (hit_o h) (advanced g (draws_of f + 1)) in
  let i := normalize (fst (fst s)) in
  always_continue (S fuel) r 0%Z flag g =
    match always_continue fuel (mkRay (hit_x h) i) 0%Z (isSpecular f)
                          (advanced g (draws_before f)) with
    | Some (rec, g4) =>
        Some (with_emission flag (hit_obj h)
                (vadd direct (indirect f (hit_n h) (hit_o h) i (snd (fst s)) 1 rec)), g4)
    | None => None
    end.
Proof.
  intros Hg Hi h f direct s i.
  cbn [always_continue]. unfold at_depth_0.
  rewrite (body_on _ r 0%Z flag g g t id Hi eq_refl (fun j _ _ => eq_refl)). cbv zeta.
  fold h f s i direct. rewrite roulette_p_0.
  replace (d_lt (draws g (pos g + draws_of f)) 1) with true
    by (symmetry; apply Rltb_true, Hg).
  rewrite (always_continue_depth fuel _ (0 + 1)%Z 0%Z). reflexivity.
Qed.

(** C9, amended.  On exact reals, for a path of at most [fuel] nested calls
    (the radiance of the remainder counted as black), for every value in
    [0, 1) of the samples that are not roulette samples, and when no divisor
    on the path is zero: the mean of each component of the value of
    [receivedRadiance] over the roulette samples of the path, uniform on
    [0, 1), is the value of the estimator that always continues ([p = 1.0] at
    every depth), and no other number is that mean.  This holds at every
    [depth] of the first call, that is wherever the threshold 5 lies on the
    path: the division of the weight by [p] compensates the probability [p]
    of continuing.  The estimator cut is the program where the program returns
    within [fuel] calls, and it is the estimator that always continues
    while the depth stays below 5; both return; a call of the latter that
    hits recurses and weighs the recursive result by [n.dot(i) / (pdf * 1)].
    The equality holds for every value of the other samples, hence on
    average over them. *)
Theorem roulette_unbiased (c : Vec R -> R) (fuel : nat) (r : Ray R) (depth : Z) (flag : bool)
    (g : RNG R) :
  c = vx \/ c = vy \/ c = vz ->
  (forall j, 0 <= draws g j < 1) ->
  divisions_defined fuel r g ->
  (forall x, receivedRadiance fuel r depth flag g = Some x ->
             receivedRadiance_cut fuel r depth flag g = Some x) /\
  (forall d, (d + Z.of_nat fuel <= 5)%Z ->
             receivedRadiance_cut fuel r d flag g = always_continue fuel r 0%Z flag g) /\
  (forall g', exists v g'', receivedRadiance_cut fuel r depth flag g' = Some (v, g'')) /\
  (exists v g', always_continue fuel r 0%Z flag g = Some (v, g')) /\
  (forall n t id, intersect r 0 = (true, t, id) ->
     let h := hit_of r t id in
     let f := sph_brdf (hit_obj h) in
     let direct := fst (direct_term h g) in
     let s := sample f (hit_n h) (hit_o h) (advanced g (draws_of f + 1)) in
     let i := normalize (fst (fst s)) in
     always_continue (S n) r 0%Z flag g =
       match always_continue n (mkRay (hit_x h) i) 0%Z (isSpecular f)
                             (advanced g (draws_before f)) with
       | Some (rec, g4) =>
           Some (with_emission flag (hit_obj h)
                   (vadd direct (indirect f (hit_n h) (hit_o h) i (snd (fst s)) 1 rec)), g4)
       | None => None
       end) /\
  mean_over (roulette_draws fuel r g)
            (fun g' => c (radiance (receivedRadiance_cut fuel r depth flag g'))) g
            (c (radiance (always_continue fuel r 0%Z flag g))) /\
  (forall m,
     mean_over (roulette_draws fuel r g)
               (fun g' => c (radiance (receivedRadiance_cut fuel r depth flag g'))) g m ->
     m = c (radiance (always_continue fuel r 0%Z flag g))).
Proof.
  intros Hc Hg Hdef.
  pose proof (roulette_mean_over c fuel Hc r depth flag g Hg Hdef) as Hmean.
  split; [apply receivedRadiance_cut_agrees |].
  split; [intros d Hd; apply receivedRadiance_cut_below, Hd |].
  split; [intros g'; apply receivedRadiance_cut_returns |].
  split; [apply always_continue_returns |].
  split; [intros n t id Hi; exact (always_continue_step n r flag g t id Hg Hi) |].
  split; [exact Hmean |].
  intros m Hm. exact (mean_over_unique _ _ _ _ _ Hm Hmean).
Qed.

(** On the path from the mirror ball to the light, at depth 5: the call is
    worth 55.5 when its roulette sample is below 0.9 and nothing otherwise,
    the estimator that always continues 49.95, and 0.9 * 55.5 = 49.95. *)
Lemma roulette_unbiased_witness :
  (forall j, 0 <= draws path_engine j < 1) /\
  divisions_defined 2 ray_in path_engine /\
  roulette_draws 2 ray_in path_engine = [0%nat; 3%nat] /\
  (forall u u',
     vx (radiance (receivedRadiance_cut 2 ray_in 5%Z true
                     (set_draw (set_draw path_engine 0 u) 3 u')))
     = if Rlt_dec u (9 / 10) then 111 / 2 else 0) /\
  vx (radiance (always_continue 2 ray_in 0%Z true path_engine)) = 999 / 20 /\
  mean_over [0%nat; 3%nat]
            (fun g' => vx (radiance (receivedRadiance_cut 2 ray_in 5%Z true g'))) path_engine
            (999 / 20).
Proof.
  assert (Hg : forall j, 0 <= draws path_engine j < 1).
  { intros j. cbn [path_engine draws].
    do 5 (destruct j as [| j]; [lra |]). lra. }
  assert (Hcut : forall d' g', radiance (receivedRadiance_cut 1 ray_out d' true g') = mkVec 50 50 50)
    by (intros d' g'; apply light_value).
  assert (Halways : forall d' g', radiance (always_continue 1 ray_out d' true g') = mkVec 50 50 50)
    by (intros d' g'; apply light_value).
  assert (HC : vx (radiance (always_continue 2 ray_in 0%Z true path_engine)) = 999 / 20).
  { change (always_continue 2) with (at_depth_0 (receivedRadiance_body (always_continue 1))).
    unfold at_depth_0.
    rewrite (mirror_value _ 0%Z path_engine Halways (always_continue_returns 1)).
    rewrite roulette_p_0. cbn [path_engine draws pos d_lt exactR].
    unfold Rltb. destruct (Rlt_dec 0 1); lra. }
  split; [exact Hg |]. split; [exact divisions_defined_path |].
  split; [exact roulette_draws_path |].
  split.
  { intros u u'.
    change (receivedRadiance_cut 2) with (receivedRadiance_body (receivedRadiance_cut 1)).
    rewrite (mirror_value _ 5%Z _ Hcut (receivedRadiance_cut_returns 1)).
    rewrite roulette_p_5. cbn [set_draw path_engine draws pos Nat.eqb d_lt exactR].
    unfold Rltb. destruct (Rlt_dec u (9 / 10)); lra. }
  split; [exact HC |].
  rewrite <- HC, <- roulette_draws_path.
  exact (proj1 (proj2 (proj2 (proj2 (proj2 (proj2
           (roulette_unbiased vx 2 ray_in 5%Z true path_engine
              (or_introl eq_refl) Hg divisions_defined_path))))))).
Defined.

End Roulette.

(** ** The layout of the image *)

Section ImageLayout.

Local Open Scope Z_scope.

(** X22.  Line 352: for a pixel of the image, the index [(h - y - 1)*w + x] is
    within the vector [c] of [w*h] elements; it is in row [h - 1 - y] and
    column [x] of the image written, which is thus upside down with
    respect to [y]; two pixels have the same index only when they are the
    same, and every element of [c] is the place of a pixel. *)
Theorem pixel_index_layout (x y : Z) :
  0 <= x < w -> 0 <= y < h ->
  0 <= pixel_index x y < w * h /\
  pixel_index x y / w = h - 1 - y /\
  pixel_index x y mod w = x /\
  (forall x' y', 0 <= x' < w -> 0 <= y' < h ->
     pixel_index x' y' = pixel_index x y -> x' = x /\ y' = y) /\
  (forall i, 0 <= i < w * h ->
     0 <= i mod w < w /\ 0 <= h - 1 - i / w < h /\ pixel_index (i mod w) (h - 1 - i / w) = i).
Proof.
  unfold pixel_index, w, h. intros Hx Hy.
  split; [lia |].
  split; [symmetry; apply (Z.div_unique _ 480 _ x); lia |].
  split; [symmetry; apply (Z.mod_unique _ 480 (360 - y - 1) x); lia |].
  split; [intros x' y' Hx' Hy' He; lia |].
  intros i Hi.
  pose proof (Z.div_mod i 480 ltac:(lia)) as Hdm.
  pose proof (Z.mod_pos_bound i 480 ltac:(lia)) as Hm.
  assert (0 <= i / 480 < 360) by (split; [apply Z.div_pos; lia | apply Z.div_lt_upper_bound; lia]).
  lia.
Qed.

Lemma pixel_index_layout_witness :
  pixel_index 0 0 = 172320 /\ pixel_index 479 359 = 479 /\ pixel_index 0 0 / w = 359.
Proof.
  destruct (pixel_index_layout 0 0 ltac:(unfold w; lia) ltac:(unfold h; lia)) as (_ & Hrow & _).
  split; [reflexivity |]. split; [reflexivity | exact Hrow].
Defined.

End ImageLayout.
